(** * ComponentClip and its StateManager (src/clip/ComponentClip.js)

    A shallow embedding of the state-switching core of [ComponentClip]:
    the common-parameter setter, the [State] decorator, the [StateManager]
    (constructor, [addComponent], [setState], [setupState],
    [getActiveComponentByKey]) and the part of [ComponentClip] that builds
    children and registers them with its manager.

    Modelling conventions.
    - JavaScript objects used as dictionaries by the manager and the clip
      ([_states], [_components], [_componentKeys],
      [_residentComponentsByKey], [_childrenById]) are [gmap string _];
      [hasOwnProperty] is a successful lookup. Names inherited from
      [Object.prototype] are outside the model.
    - Configuration objects whose enumeration order is observable
      ([config.states], a state's config) are association lists, listed in
      the enumeration order of their keys.
    - Game objects live in a heap (a list indexed by location); the maps
      of the clip and of the manager hold locations, so that one child
      reached through two maps is one object.
    - A [TypeError] raised by the source is the [Throw] completion; the
      state reached when it is raised is kept.
    - What the host engine alone sees (origins, the text and what its
      style says, sizes, destruction) is left out: of a game object the
      model keeps the transform fields, [visible] and the mask; of a
      config it keeps whether [textStyle] and [vertices] are there, which
      the source reads without a test. The frame map of
      [_createImagesMap] and the [lineTo] calls of
      [_createPolygonFromConfig] are modelled apart from the heap, the
      scene's textures being a parameter. *)

From Stdlib Require Import QArith.
From stdpp Require Import gmap strings list fin_maps.

Open Scope string_scope.
Open Scope list_scope.

(** ** Numbers

    A JavaScript number as far as the source inspects it: the only
    operation applied to a number is the truthiness test of [||]. *)

Inductive number : Type :=
| NaN
| Num (q : Q).

Definition truthy (n : number) : bool :=
  match n with
  | NaN => false
  | Num q => negb (Qeq_bool q 0)
  end.

(** [v || d] where [v] is an optional numeric property ([None] is
    [undefined]). *)
Definition or_else (v : option number) (d : number) : number :=
  match v with
  | Some n => if truthy n then n else d
  | None => d
  end.

(** ** StateConfig: the optional transform properties of a config *)

Module StateConfig.
Record t : Type := mk {
  x : option number;
  y : option number;
  scaleX : option number;
  scaleY : option number;
  angle : option number;
  alpha : option number
}.

Definition empty : t := mk None None None None None None.
End StateConfig.

(** ** Game objects *)

(** Locations of game objects in the heap *)
Abbreviation loc := nat.

Module GameObject.
Record t : Type := mk {
  x : number;
  y : number;
  scaleX : number;
  scaleY : number;
  angle : number;
  alpha : number;
  visible : bool;
  mask : option loc
}.

Definition set_visible (v : bool) (o : t) : t :=
  mk (x o) (y o) (scaleX o) (scaleY o) (angle o) (alpha o) v (mask o).

Definition set_mask (m : loc) (o : t) : t :=
  mk (x o) (y o) (scaleX o) (scaleY o) (angle o) (alpha o) (visible o) (Some m).
End GameObject.

(** [ComponentClip._setupCommonParams(component, config)] *)
Definition _setupCommonParams (config : StateConfig.t) (component : GameObject.t)
  : GameObject.t :=
  let x := or_else (StateConfig.x config) (Num 0) in
  let y := or_else (StateConfig.y config) (Num 0) in
  let scaleX := or_else (StateConfig.scaleX config) (Num 1) in
  let scaleY := or_else (StateConfig.scaleY config) (Num 1) in
  let angle := or_else (StateConfig.angle config) (Num 0) in
  let alpha :=
    match StateConfig.alpha config with
    | Some a => a
    | None => Num 1
    end in
  GameObject.mk x y scaleX scaleY angle alpha
    (GameObject.visible component) (GameObject.mask component).

(** ** Configuration objects

    An object literal whose key order matters is the list of its entries
    in enumeration order. *)

Definition keys {V : Type} (o : list (string * V)) : list string := map fst o.

(** [o[k]] on such an object *)
Fixpoint prop {V : Type} (o : list (string * V)) (k : string) : option V :=
  match o with
  | [] => None
  | (k', v) :: o' => if decide (k' = k) then Some v else prop o' k
  end.

(** The [textStyle] of a text config, of which the source reads [align] *)
Module TextStyle.
Record t : Type := mk {
  align : option string
}.
End TextStyle.

(** A config may lack [textStyle] and [vertices] ([None] is [undefined]);
    the source reads a member of each without a test. *)
Module ComponentConfig.
#[local] Unset Elimination Schemes.
Inductive t : Type := mk {
  type : string;
  childId : option string;
  key : option string;
  children : list t;
  states : list (string * list (string * StateConfig.t));
  masking : option (list string);
  common : StateConfig.t;
  textStyle : option TextStyle.t;
  vertices : option (list number)
}.
End ComponentConfig.

Definition TYPE_IMAGE := "image".
Definition TYPE_COMPONENT := "component".
Definition TYPE_TEXT := "text".
Definition TYPE_TILE_SPRITE := "tileSprite".
Definition TYPE_POLYGON := "polygon".
Definition TYPE_ZONE := "zone".

(** An absent [childId] used as a property name is the name ["undefined"]. *)
Definition prop_name (childId : option string) : string :=
  match childId with
  | Some s => s
  | None => "undefined"
  end.

(** ** The underscore functions the manager calls

    [underscore] is an external dependency; these follow its documented
    behaviour on arrays of strings. *)

(** [_.flatten] of an array of arrays of strings *)
Definition flatten (arrays : list (list string)) : list string := concat arrays.

(** [_.uniq]: scans the array and pushes a value onto the result unless the
    result already contains it. *)
Definition uniq_step (result : list string) (value : string) : list string :=
  if bool_decide (value ∈ result) then result else result ++ [value].

Definition uniq (array : list string) : list string := foldl uniq_step [] array.

(** [_.difference(array, rest)]: the values of [array] not present in [rest] *)
Definition difference (array rest : list string) : list string :=
  filter (λ value, value ∉ rest) array.

Fixpoint indexOf_from (array : list string) (item : string) (i : Z) : Z :=
  match array with
  | [] => (-1)%Z
  | v :: array' => if decide (v = item) then i else indexOf_from array' item (i + 1)%Z
  end.

(** [_.indexOf(array, item)]: the index of the first occurrence of [item],
    or [-1]. The [item] may be [undefined] ([None]); an array of strings
    never holds [undefined]. *)
Definition indexOf (array : list string) (item : option string) : Z :=
  match item with
  | Some s => indexOf_from array s 0%Z
  | None => (-1)%Z
  end.

(** ** Completions and mutable state

    A method runs on a mutable state [S] and either completes normally
    with a value or throws; the state it leaves behind is kept in both
    cases. *)

Inductive completion (A : Type) : Type :=
| Normal (a : A)
| Throw.
Arguments Normal {A} a.
Arguments Throw {A}.

Definition M (S A : Type) : Type := S → S * completion A.

#[export] Instance M_ret {S} : MRet (M S) := λ A a s, (s, Normal a).

#[export] Instance M_bind {S} : MBind (M S) := λ A B k m s,
  match m s with
  | (s', Normal a) => k a s'
  | (s', Throw) => (s', Throw)
  end.

Definition throw {S A} : M S A := λ s, (s, Throw).

Section for_of.
Context {S A : Type} (body : A → M S unit).

(** [for (a of array) body] *)
Fixpoint for_of (array : list A) : M S unit :=
  match array with
  | [] => mret ()
  | a :: array' => body a ;; for_of array'
  end.
End for_of.

Abbreviation heap := (list GameObject.t).

Section this_and_heap.
Context {T : Type}.

Definition this : M (T * heap) T := λ s, (s, Normal s.1).

Definition set_this (f : T → T) : M (T * heap) unit :=
  λ s, ((f s.1, s.2), Normal ()).

(** Member access on a reference that may be [undefined] *)
Definition deref {A} (r : option A) : M (T * heap) A :=
  match r with
  | Some a => mret a
  | None => throw
  end.

(** Assignment to fields of the object at [l] *)
Definition assign (l : loc) (f : GameObject.t → GameObject.t) : M (T * heap) unit :=
  λ s, ((s.1, alter f l s.2), Normal ()).

(** A new game object *)
Definition alloc (o : GameObject.t) : M (T * heap) loc :=
  λ s, ((s.1, s.2 ++ [o]), Normal (length s.2)).
End this_and_heap.

(** What a lookup method returns *)
Inductive reference : Type :=
| Null
| Undefined
| Object (l : loc).

(** ** State *)

Module State.
Record t : Type := mk {
  config : list (string * StateConfig.t);
  componentIds : list string
}.

Definition new (config : list (string * StateConfig.t)) : t :=
  mk config (keys config).
End State.

(** ** StateManager *)

Module StateManager.
Record t : Type := mk {
  _dynamicChildrenIds : list string;
  _states : gmap string State.t;
  stateIds : list string;
  _components : gmap string loc;
  _currentState : option State.t;
  _currentStateId : option string;
  _componentKeys : gmap string string;
  _residentComponentsByKey : gmap string loc
}.

(** One iteration of the constructor's loop [for (stateId in config.states)]
    on the entry [stateId, config.states[stateId]]; the accumulators are
    [stateIds], [_states] and [idsArrays]. *)
Definition constructor_loop
    (acc : list string * gmap string State.t * list (list string))
    (entry : string * list (string * StateConfig.t))
  : list string * gmap string State.t * list (list string) :=
  let '(stateIds, _states, idsArrays) := acc in
  let '(stateId, stateConfig) := entry in
  let state := State.new stateConfig in
  (stateIds ++ [stateId], <[stateId := state]> _states,
   idsArrays ++ [State.componentIds state]).

Definition new (config : ComponentConfig.t) : t :=
  let '(stateIds, _states, idsArrays) :=
    foldl constructor_loop ([], ∅, []) (ComponentConfig.states config) in
  mk (uniq (flatten idsArrays)) _states stateIds ∅ None None ∅ ∅.

(** [getStateConfigById(stateId)]; the result [None] is the [null] that
    the method returns for an id that [_states] lacks. *)
Definition getStateConfigById (stateId : string) (this : t)
  : option (list (string * StateConfig.t)) :=
  State.config <$> (_states this !! stateId).

Definition addComponent (component : loc) (childId childKey : option string)
    (this : t) : t :=
  if decide (indexOf (_dynamicChildrenIds this) childId = (-1)%Z) then
    match childKey with
    | Some k =>
        mk (_dynamicChildrenIds this) (_states this) (stateIds this)
          (_components this) (_currentState this) (_currentStateId this)
          (_componentKeys this) (<[k := component]> (_residentComponentsByKey this))
    | None => this
    end
  else
    mk (_dynamicChildrenIds this) (_states this) (stateIds this)
      (<[prop_name childId := component]> (_components this))
      (_currentState this) (_currentStateId this)
      (match childKey with
       | Some k => <[prop_name childId := k]> (_componentKeys this)
       | None => _componentKeys this
       end)
      (_residentComponentsByKey this).

(** [this._currentStateId = stateId; this._currentState = state] *)
Definition set_current (stateId : string) (state : State.t) (this : t) : t :=
  mk (_dynamicChildrenIds this) (_states this) (stateIds this) (_components this)
     (Some state) (Some stateId) (_componentKeys this)
     (_residentComponentsByKey this).

(** The body of the first loop of [setupState]:
    [this._components[id].visible = false] *)
Definition hide (id : string) : M (t * heap) unit :=
  this ← this;
  component ← deref (_components this !! id);
  assign component (GameObject.set_visible false).

(** The body of the second loop of [setupState] *)
Definition show (id : string) : M (t * heap) unit :=
  this ← this;
  component ← deref (_components this !! id);
  assign component (GameObject.set_visible true);;
  currentState ← deref (_currentState this);
  config ← deref (prop (State.config currentState) id);
  assign component (_setupCommonParams config).

Definition setupState : M (t * heap) unit :=
  this ← this;
  currentState ← deref (_currentState this);
  let idsToShow := State.componentIds currentState in
  let idsToHide := difference (_dynamicChildrenIds this) idsToShow in
  for_of hide idsToHide;;
  for_of show idsToShow.

Definition setState (stateId : string) (force : bool) : M (t * heap) unit :=
  this ← this;
  if bool_decide (_currentStateId this = Some stateId) && negb force then mret ()
  else
    match _states this !! stateId with
    | None => mret ()
    | Some state =>
        set_this (set_current stateId state);;
        setupState
    end.

(** The scan of [getActiveComponentByKey] over the current state's ids *)
Fixpoint scan (this : t) (key : string) (componentIds : list string) : reference :=
  match componentIds with
  | [] => Null
  | id :: componentIds' =>
      if decide (_componentKeys this !! id = Some key) then
        match _components this !! id with
        | Some component => Object component
        | None => Undefined
        end
      else scan this key componentIds'
  end.

Definition getActiveComponentByKey (key : string) : M (t * heap) reference :=
  this ← this;
  match _residentComponentsByKey this !! key with
  | Some component => mret (Object component)
  | None =>
      match _currentState this with
      | None => mret Null
      | Some currentState => mret (scan this key (State.componentIds currentState))
      end
  end.
End StateManager.

(** ** ComponentClip *)

(** The host engine creates a game object at a position with unit scale,
    zero angle, full opacity, visible and without mask. *)
Definition engine_object (x y : number) : GameObject.t :=
  GameObject.mk x y (Num 1) (Num 1) (Num 0) (Num 1) true None.

Module ComponentClip.
Record t : Type := mk {
  self : loc;
  _config : ComponentConfig.t;
  _key : option string;
  _stateManager : StateManager.t;
  _childrenById : gmap string loc;
  childComponentClips : list loc;
  container : list loc
}.

(** Running a constructor, which sees the heap alone, from a method of
    the clip *)
Definition lift_heap {A} (m : M heap A) : M (t * heap) A := λ s,
  match m s.2 with
  | (σ, c) => ((s.1, σ), c)
  end.

Definition set_stateManager (sm : StateManager.t) (this : t) : t :=
  mk (self this) (_config this) (_key this) sm (_childrenById this)
     (childComponentClips this) (container this).

(** Running a method of [this._stateManager] from a method of the clip *)
Definition on_stateManager {A} (m : M (StateManager.t * heap) A) : M (t * heap) A :=
  λ s,
    match m (_stateManager s.1, s.2) with
    | ((sm, σ), c) => ((set_stateManager sm s.1, σ), c)
    end.

Definition getStateConfig (stateId : string) (this : t) :=
  StateManager.getStateConfigById stateId (_stateManager this).

Definition getStateIds (this : t) : list string :=
  StateManager.stateIds (_stateManager this).

Definition setState (stateId : string) (force : bool) : M (t * heap) unit :=
  on_stateManager (StateManager.setState stateId force).

Definition applyChildParams (childId : string) (params : StateConfig.t)
  : M (t * heap) unit :=
  this ← this;
  match _childrenById this !! childId with
  | None => mret ()
  | Some child => assign child (_setupCommonParams params)
  end.

Definition getChildClip (key : string) : M (t * heap) reference :=
  on_stateManager (StateManager.getActiveComponentByKey key).

Definition _createImageFromConfig (config : ComponentConfig.t) : M (t * heap) loc :=
  image ← alloc (engine_object (Num 0) (Num 0));
  assign image (_setupCommonParams (ComponentConfig.common config));;
  mret image.

(** The text is created first; [config.textStyle.align] is read next and
    throws when the config has no [textStyle]. *)
Definition _createTextFromConfig (config : ComponentConfig.t) : M (t * heap) loc :=
  text ← alloc (engine_object (Num 0) (Num 0));
  textStyle ← deref (ComponentConfig.textStyle config);
  assign text (_setupCommonParams (ComponentConfig.common config));;
  mret text.

Definition _createTileSpriteFromConfig (config : ComponentConfig.t) : M (t * heap) loc :=
  sprite ← alloc (engine_object (Num 0) (Num 0));
  assign sprite (_setupCommonParams (ComponentConfig.common config));;
  mret sprite.

Definition _createHitZoneFromConfig (config : ComponentConfig.t) : M (t * heap) loc :=
  alloc (engine_object
           (or_else (StateConfig.x (ComponentConfig.common config)) (Num 0))
           (or_else (StateConfig.y (ComponentConfig.common config)) (Num 0))).

(** The graphics object is created first; [config.vertices.length] is
    read next and throws when the config has no [vertices]. *)
Definition _createPolygonFromConfig (config : ComponentConfig.t) : M (t * heap) loc :=
  shape ← alloc (engine_object (Num 0) (Num 0));
  vertices ← deref (ComponentConfig.vertices config);
  assign shape (_setupCommonParams (ComponentConfig.common config));;
  mret shape.

(** [maskedChild = this._childrenById[maskedChildId]; maskedChild.setMask(mask)] *)
Definition setMask (mask : loc) (maskedChildId : string) : M (t * heap) unit :=
  this ← this;
  maskedChild ← deref (_childrenById this !! maskedChildId);
  assign maskedChild (GameObject.set_mask mask).

(** The tail of [_createChildFromConfig], once a child has been made *)
Definition register (child : loc) (childId childKey : option string)
    (addAsChild : bool) (this : t) : t :=
  mk (self this) (_config this) (_key this)
     (StateManager.addComponent child childId childKey (_stateManager this))
     (<[prop_name childId := child]> (_childrenById this))
     (childComponentClips this ++ [child])
     (if addAsChild then container this ++ [child] else container this).

Section create_child.
(** The constructor run on the child's config, for a child of type
    [component] *)
Variable new_child : M heap t.

Definition _createChildFromConfig (config : ComponentConfig.t) : M (t * heap) unit :=
  let childId := ComponentConfig.childId config in
  let childKey := ComponentConfig.key config in
  let type := ComponentConfig.type config in
  made ←
    (if decide (type = TYPE_IMAGE) then
       child ← _createImageFromConfig config; mret (Some (child, true))
     else if decide (type = TYPE_TEXT) then
       child ← _createTextFromConfig config; mret (Some (child, true))
     else if decide (type = TYPE_TILE_SPRITE) then
       child ← _createTileSpriteFromConfig config; mret (Some (child, true))
     else if decide (type = TYPE_COMPONENT) then
       clip ← lift_heap new_child;
       assign (self clip) (_setupCommonParams (ComponentConfig.common config));;
       mret (Some (self clip, true))
     else if decide (type = TYPE_ZONE) then
       child ← _createHitZoneFromConfig config; mret (Some (child, true))
     else if decide (type = TYPE_POLYGON) then
       child ← _createPolygonFromConfig config;
       match ComponentConfig.masking config with
       | Some masking =>
           for_of (setMask child) masking;;
           mret (Some (child, false))
       | None => mret (Some (child, true))
       end
     else mret None);
  match made with
  | None => mret ()
  | Some (child, addAsChild) => set_this (register child childId childKey addAsChild)
  end.
End create_child.

(** [new ComponentClip(scene, config, textures)]: the container itself
    is created first, then [_parseConfig] builds the children. *)
Fixpoint new (config : ComponentConfig.t) : M heap t := λ σ,
  let this :=
    mk (length σ) config (ComponentConfig.key config) (StateManager.new config)
       ∅ [] [] in
  match
    for_of (λ childConfig, _createChildFromConfig (new childConfig) childConfig)
           (ComponentConfig.children config)
           (this, σ ++ [engine_object (Num 0) (Num 0)])
  with
  | ((this', σ'), Normal _) => (σ', Normal this')
  | ((_, σ'), Throw) => (σ', Throw)
  end.
End ComponentClip.

(** * Specification-level definitions *)

(** The duplicate-free list of the values of an array in order of first
    appearance, as a specification of [uniq]. *)
Fixpoint first_appearances (array : list string) : list string :=
  match array with
  | [] => []
  | value :: array' => value :: filter (λ v, v ≠ value) (first_appearances array')
  end.

(** A childId is declared when some declared state lists it. *)
Definition declared (config : ComponentConfig.t) (id : string) : Prop :=
  ∃ stateId stateConfig,
    (stateId, stateConfig) ∈ ComponentConfig.states config ∧ id ∈ keys stateConfig.

(** The types for which [_createChildFromConfig] builds a child *)
Definition known_type (type : string) : Prop :=
  type ∈ [TYPE_IMAGE; TYPE_TEXT; TYPE_TILE_SPRITE; TYPE_COMPONENT; TYPE_ZONE; TYPE_POLYGON].

(** The manager of [config] after the registrations [regs], each a call
    [addComponent(component, childId, childKey)], in order. *)
Definition registered (config : ComponentConfig.t)
    (regs : list (loc * option string * option string)) : StateManager.t :=
  foldl (λ sm '(component, childId, childKey),
           StateManager.addComponent component childId childKey sm)
        (StateManager.new config) regs.

(** ** Reachable worlds

    A world is a clip together with the heap of game objects. After its
    construction a clip is driven through its public methods, while the
    host (engine, tweens, nested clips) may rewrite any game object and
    create new ones. *)

Inductive step : ComponentClip.t * heap → ComponentClip.t * heap → Prop :=
| step_setState stateId force w :
    step w (ComponentClip.setState stateId force w).1
| step_applyChildParams childId params w :
    step w (ComponentClip.applyChildParams childId params w).1
| step_getChildClip key w :
    step w (ComponentClip.getChildClip key w).1
| step_host_write l o w :
    step w (w.1, <[l := o]> w.2)
| step_host_create o w :
    step w (w.1, w.2 ++ [o]).

Definition reachable (config : ComponentConfig.t) (w : ComponentClip.t * heap) : Prop :=
  ∃ σ0 clip σ, ComponentClip.new config σ0 = (σ, Normal clip) ∧ rtc step (clip, σ) w.

(** ** Invariants of a world *)

Record wf_manager (sm : StateManager.t) (σ : heap) : Prop := {
  wf_components_valid :
    ∀ id l, StateManager._components sm !! id = Some l → l < length σ;
  wf_components_inj :
    ∀ id1 id2 l,
      StateManager._components sm !! id1 = Some l →
      StateManager._components sm !! id2 = Some l → id1 = id2;
  wf_components_dynamic :
    ∀ id l, StateManager._components sm !! id = Some l →
            id ∈ StateManager._dynamicChildrenIds sm;
  wf_componentKeys :
    ∀ id k, StateManager._componentKeys sm !! id = Some k →
            is_Some (StateManager._components sm !! id);
  wf_resident :
    ∀ key l, StateManager._residentComponentsByKey sm !! key = Some l →
             l < length σ ∧ ∀ id, StateManager._components sm !! id ≠ Some l;
  wf_states :
    ∀ stateId state, StateManager._states sm !! stateId = Some state →
      State.componentIds state = keys (State.config state) ∧
      ∀ id, id ∈ State.componentIds state → id ∈ StateManager._dynamicChildrenIds sm;
  wf_current :
    match StateManager._currentStateId sm with
    | Some stateId =>
        is_Some (StateManager._currentState sm) ∧
        StateManager._states sm !! stateId = StateManager._currentState sm
    | None => StateManager._currentState sm = None
    end
}.

Record wf_clip (config : ComponentConfig.t) (w : ComponentClip.t * heap) : Prop := {
  wf_stateManager : wf_manager (ComponentClip._stateManager w.1) w.2;
  wf_dynamicChildrenIds :
    StateManager._dynamicChildrenIds (ComponentClip._stateManager w.1)
    = StateManager._dynamicChildrenIds (StateManager.new config);
  wf_declared_states :
    StateManager._states (ComponentClip._stateManager w.1)
    = StateManager._states (StateManager.new config);
  wf_children_valid :
    ∀ id l, ComponentClip._childrenById w.1 !! id = Some l → l < length w.2;
  wf_children_components :
    ∀ id id' l,
      ComponentClip._childrenById w.1 !! id = Some l →
      StateManager._components (ComponentClip._stateManager w.1) !! id' = Some l →
      id = id'
}.

(** ** The effect of the apply routine

    [shown] and [hidden] relate the heap before and after a transition
    to [state]. *)

Definition show_object (config : StateConfig.t) (o : GameObject.t) : GameObject.t :=
  _setupCommonParams config (GameObject.set_visible true o).

Definition shown (sm : StateManager.t) (state : State.t) (σ σ' : heap) : Prop :=
  ∀ id, id ∈ State.componentIds state →
    ∃ l o config,
      StateManager._components sm !! id = Some l ∧ σ !! l = Some o ∧
      prop (State.config state) id = Some config ∧
      σ' !! l = Some (show_object config o).

Definition hidden (sm : StateManager.t) (state : State.t) (σ σ' : heap) : Prop :=
  ∀ id, id ∈ StateManager._dynamicChildrenIds sm → id ∉ State.componentIds state →
    ∃ l o,
      StateManager._components sm !! id = Some l ∧ σ !! l = Some o ∧
      σ' !! l = Some (GameObject.set_visible false o).

(** What a sequence of updates [g id], each applied to the object that
    [components] holds for [id], does to the object at location [l] *)
Definition touched (components : gmap string loc)
    (g : string → GameObject.t → GameObject.t)
    (l : loc) (o : option GameObject.t) (ids : list string) : option GameObject.t :=
  foldl (λ o id, if decide (components !! id = Some l) then g id <$> o else o) o ids.

(** The update of the show pass for [id] in [state] *)
Definition show_in (state : State.t) (id : string) (o : GameObject.t) : GameObject.t :=
  match prop (State.config state) id with
  | Some config => show_object config o
  | None => GameObject.set_visible true o
  end.

(** Whatever a pass of the apply routine does, it leaves the manager
    alone, keeps the heap's size and writes only to objects held by the
    dynamic components map. *)
Definition frame (sm : StateManager.t) (σ : heap) (s : StateManager.t * heap) : Prop :=
  s.1 = sm ∧ length s.2 = length σ ∧
  ∀ l, (∀ id, StateManager._components sm !! id ≠ Some l) → s.2 !! l = σ !! l.

(** ** Transforms as values

    What a handle holds after a partial transform has been applied,
    said field by field and without the setter. *)

(** Two numbers that are the same value: a rational has more than one
    representation. *)
Definition same_number (m n : number) : Prop :=
  match m, n with
  | NaN, NaN => True
  | Num p, Num q => p == q
  | _, _ => False
  end.

(** The record's field if present, else the default *)
Definition present_or (v : option number) (d : number) : number :=
  match v with
  | Some n => n
  | None => d
  end.

(** The handle [o] holds the partial transform [config]: each field is
    the record's value if present, else [0] for [x], [y] and [angle] and
    [1] for [scaleX], [scaleY] and [alpha]. *)
Definition transform_applied (config : StateConfig.t) (o : GameObject.t) : Prop :=
  same_number (GameObject.x o) (present_or (StateConfig.x config) (Num 0)) ∧
  same_number (GameObject.y o) (present_or (StateConfig.y config) (Num 0)) ∧
  same_number (GameObject.scaleX o) (present_or (StateConfig.scaleX config) (Num 1)) ∧
  same_number (GameObject.scaleY o) (present_or (StateConfig.scaleY config) (Num 1)) ∧
  same_number (GameObject.angle o) (present_or (StateConfig.angle config) (Num 0)) ∧
  same_number (GameObject.alpha o) (present_or (StateConfig.alpha config) (Num 1)).

(** A supplied scale that is a number other than zero *)
Definition nonzero (v : option number) : Prop :=
  ∀ n, v = Some n → ∃ q, n = Num q ∧ ¬ q == 0.

(** A partial transform that supplies no [NaN] for [x], [y] or [angle]
    and neither zero nor [NaN] for a scale *)
Definition regular (config : StateConfig.t) : Prop :=
  StateConfig.x config ≠ Some NaN ∧ StateConfig.y config ≠ Some NaN ∧
  StateConfig.angle config ≠ Some NaN ∧
  nonzero (StateConfig.scaleX config) ∧ nonzero (StateConfig.scaleY config).

(** The handle [o'] has the transform fields of [o]. *)
Definition same_transform (o o' : GameObject.t) : Prop :=
  GameObject.x o' = GameObject.x o ∧ GameObject.y o' = GameObject.y o ∧
  GameObject.scaleX o' = GameObject.scaleX o ∧ GameObject.scaleY o' = GameObject.scaleY o ∧
  GameObject.angle o' = GameObject.angle o ∧ GameObject.alpha o' = GameObject.alpha o.

(** Induction on a configuration tree, with the property available for
    every child *)
Fixpoint ComponentConfig_ind (P : ComponentConfig.t → Prop)
    (Hmk : ∀ type childId key children states masking common textStyle vertices,
        Forall P children →
        P (ComponentConfig.mk type childId key children states masking common
             textStyle vertices))
    (config : ComponentConfig.t) : P config :=
  match config with
  | ComponentConfig.mk type childId key children states masking common textStyle vertices =>
      Hmk type childId key children states masking common textStyle vertices
        ((fix children_ind (l : list ComponentConfig.t) : Forall P l :=
            match l with
            | [] => @List.Forall_nil _ P
            | c :: l' =>
                @List.Forall_cons _ P c l' (ComponentConfig_ind P Hmk c) (children_ind l')
            end) children)
  end.

(** A constructor run creates its clip at the next free location and
    never shrinks the heap. *)
Definition fresh_clip (new_child : M heap ComponentClip.t) : Prop :=
  ∀ σ σ' c, new_child σ = (σ', c) →
    length σ < length σ' ∧
    ∀ clip, c = Normal clip → ComponentClip.self clip = length σ.

Ltac unfold_M :=
  unfold mbind, M_bind, mret, M_ret, this, set_this, deref, assign, alloc, throw in *;
  simpl in *.

(** ** A worked configuration

    Two states, [A] showing [c1] and [B] showing [c2]; a resident child
    [r1] sharing the key of [c1]. *)

Definition example_transform (x : Q) : StateConfig.t :=
  StateConfig.mk (Some (Num x)) None None None None None.

Definition example_child (type childId key : string) : ComponentConfig.t :=
  ComponentConfig.mk type (Some childId) (Some key) [] [] None StateConfig.empty
    (Some (TextStyle.mk None)) None.

Definition example_state_A : list (string * StateConfig.t) :=
  [("c1", example_transform 10)].

Definition example_state_B : list (string * StateConfig.t) :=
  [("c2", example_transform 20)].

Definition example_config : ComponentConfig.t :=
  ComponentConfig.mk TYPE_COMPONENT None None
    [example_child TYPE_IMAGE "c1" "btn";
     example_child TYPE_IMAGE "c2" "icon";
     example_child TYPE_TEXT "r1" "btn"]
    [("A", example_state_A); ("B", example_state_B)]
    None StateConfig.empty None None.

(** The clip built from [example_config] in an empty heap: the clip is
    object 0 and [c1], [c2], [r1] are objects 1, 2, 3. *)
Definition example_clip : ComponentClip.t :=
  ComponentClip.mk 0 example_config None
    (StateManager.addComponent 3 (Some "r1") (Some "btn")
       (StateManager.addComponent 2 (Some "c2") (Some "icon")
          (StateManager.addComponent 1 (Some "c1") (Some "btn")
             (StateManager.new example_config))))
    (<["r1" := 3]> (<["c2" := 2]> (<["c1" := 1]> ∅)))
    [1; 2; 3] [1; 2; 3].

Definition example_heap : heap :=
  [engine_object (Num 0) (Num 0); engine_object (Num 0) (Num 0);
   engine_object (Num 0) (Num 0); engine_object (Num 0) (Num 0)].

(** The same clip after [setState("A")] *)
Definition example_clip_A : ComponentClip.t :=
  (ComponentClip.setState "A" false (example_clip, example_heap)).1.1.

Definition example_heap_A : heap :=
  (ComponentClip.setState "A" false (example_clip, example_heap)).1.2.

(** ** A worked configuration with a zero scale

    The worked configuration with a third state [Z] that shows [c1]
    squeezed flat: [{c1: {x: 10, scaleX: 0}}]. *)

Definition example_zero_scale : StateConfig.t :=
  StateConfig.mk (Some (Num 10)) None (Some (Num 0)) None None None.

Definition example_state_Z : list (string * StateConfig.t) :=
  [("c1", example_zero_scale)].

Definition example_zero_config : ComponentConfig.t :=
  ComponentConfig.mk TYPE_COMPONENT None None
    [example_child TYPE_IMAGE "c1" "btn";
     example_child TYPE_IMAGE "c2" "icon";
     example_child TYPE_TEXT "r1" "btn"]
    [("A", example_state_A); ("B", example_state_B); ("Z", example_state_Z)]
    None StateConfig.empty None None.

(** The clip built from [example_zero_config] in an empty heap, which is
    [example_heap] again *)
Definition example_zero_clip : ComponentClip.t :=
  ComponentClip.mk 0 example_zero_config None
    (StateManager.addComponent 3 (Some "r1") (Some "btn")
       (StateManager.addComponent 2 (Some "c2") (Some "icon")
          (StateManager.addComponent 1 (Some "c1") (Some "btn")
             (StateManager.new example_zero_config))))
    (<["r1" := 3]> (<["c2" := 2]> (<["c1" := 1]> ∅)))
    [1; 2; 3] [1; 2; 3].

(** * Further definitions *)

(** ** Children that are built *)

#[export] Instance known_type_dec (type : string) : Decision (known_type type).
Proof. unfold known_type. apply _. Defined.

(** The children for which [_createChildFromConfig] makes a game object,
    in order *)
Definition built_children (children : list ComponentConfig.t) : list ComponentConfig.t :=
  filter (λ c, known_type (ComponentConfig.type c)) children.

(** A polygon that is used as a mask: it is kept out of the container. *)
Definition is_mask (config : ComponentConfig.t) : bool :=
  bool_decide (ComponentConfig.type config = TYPE_POLYGON)
  && bool_decide (is_Some (ComponentConfig.masking config)).

(** The registration that the tail of [_createChildFromConfig] performs
    for the child built at [l] from [config] *)
Definition registration (l : loc) (config : ComponentConfig.t)
  : loc * option string * option string :=
  (l, ComponentConfig.childId config, ComponentConfig.key config).

(** A clip under construction, relative to the first location [n] that
    construction may write and to a property [Q] of heaps: the heap has
    the property and every child recorded so far lies at [n] or above. *)
Definition built_from (n : nat) (Q : heap → Prop) (s : ComponentClip.t * heap) : Prop :=
  Q s.2 ∧ ∀ id l, ComponentClip._childrenById s.1 !! id = Some l → (n ≤ l)%nat.

(** [addComponent] for each registration, in order *)
Definition register_all (regs : list (loc * option string * option string))
    (sm : StateManager.t) : StateManager.t :=
  foldl (λ sm '(component, childId, childKey),
           StateManager.addComponent component childId childKey sm) sm regs.

(** [_childrenById[childId] = child] for each registration, in order *)
Definition record_all (regs : list (loc * option string * option string))
    (childrenById : gmap string loc) : gmap string loc :=
  foldl (λ m '(component, childId, _), <[prop_name childId := component]> m)
        childrenById regs.

(** The objects of [locs], built from [configs], that are added to the
    container: all but the masks *)
Definition displayed (locs : list loc) (configs : list ComponentConfig.t) : list loc :=
  (filter (λ p, is_mask p.2 = false) (zip locs configs)).*1.

(** ** A worked configuration with a mask *)

(** A polygon that masks the children [masking] *)
Definition example_mask (masking : list string) : ComponentConfig.t :=
  ComponentConfig.mk TYPE_POLYGON (Some "m") None [] [] (Some masking) StateConfig.empty
    None (Some [Num 0; Num 0; Num 10; Num 0; Num 10; Num 10]).

(** The mask is declared between the two children it names. *)
Definition example_masked_config : ComponentConfig.t :=
  ComponentConfig.mk TYPE_COMPONENT None None
    [example_child TYPE_IMAGE "c1" "btn";
     example_mask ["c1"; "c2"];
     example_child TYPE_IMAGE "c2" "icon"]
    [] None StateConfig.empty None None.

(** ** What the methods of a clip leave alone *)

(** The part of a manager that is fixed once the children are
    registered: everything but the active state *)
Definition registry (sm : StateManager.t) :=
  (StateManager._dynamicChildrenIds sm, StateManager._states sm, StateManager.stateIds sm,
   StateManager._components sm, StateManager._componentKeys sm,
   StateManager._residentComponentsByKey sm).

(** The fields of a clip other than its manager *)
Definition structure (clip : ComponentClip.t) :=
  (ComponentClip.self clip, ComponentClip._config clip, ComponentClip._key clip,
   ComponentClip._childrenById clip, ComponentClip.childComponentClips clip,
   ComponentClip.container clip).

(** [getChildText(key)] *)
Definition getChildText (key : string) : M (ComponentClip.t * heap) reference :=
  ComponentClip.on_stateManager (StateManager.getActiveComponentByKey key).

(** ** The size of a configuration

    The number of game objects that a configuration describes: the clip
    itself, one object per child of a known type, and for a child of
    type [component] the objects of its own configuration instead. *)
Fixpoint objects (config : ComponentConfig.t) : nat :=
  S (list_sum
       (List.map
          (λ childConfig,
             if decide (known_type (ComponentConfig.type childConfig)) then
               if decide (ComponentConfig.type childConfig = TYPE_COMPONENT)
               then objects childConfig else 1
             else 0)
          (ComponentConfig.children config))).

(** ** A worked configuration with a nested clip

    A panel inside the clip, with two children of its own, and a child
    of a type that the clip does not know. *)
Definition example_nested_config : ComponentConfig.t :=
  ComponentConfig.mk TYPE_COMPONENT None None
    [example_child TYPE_IMAGE "bg" "bg";
     ComponentConfig.mk TYPE_COMPONENT (Some "panel") (Some "panel")
       [example_child TYPE_TEXT "title" "title"; example_child TYPE_ZONE "hit" "hit"]
       [] None StateConfig.empty None None;
     example_child "video" "clip" "clip"]
    [] None StateConfig.empty None None.

(** ** The map from frame names to texture names *)

Section images_map.
(** [this.scene.textures.get(textureName)] followed by
    [texture.getFrameNames()]: the frame names of the texture, or [None]
    when [get] returns a falsy value *)
Variable getFrameNames : string → option (list string).

(** The inner loop of [_createImagesMap]:
    [this.imageFramesMap[frameName] = textureName] for each frame *)
Definition add_frames (textureName : string) (frames : list string)
    (imageFramesMap : gmap string string) : gmap string string :=
  foldl (λ m frameName, <[frameName := textureName]> m) imageFramesMap frames.

(** [_createImagesMap(textures)] on [this.imageFramesMap]; the [return]
    on a missing texture leaves the loop. *)
Fixpoint _createImagesMap (textures : list string) (imageFramesMap : gmap string string)
  : gmap string string :=
  match textures with
  | [] => imageFramesMap
  | textureName :: textures' =>
      match getFrameNames textureName with
      | None => imageFramesMap
      | Some frames =>
          _createImagesMap textures' (add_frames textureName frames imageFramesMap)
      end
  end.

(** The textures that list [frameName] among their frames *)
Definition textures_with (frameName : string) (textures : list string) : list string :=
  filter (λ textureName, frameName ∈ default [] (getFrameNames textureName)) textures.
End images_map.

(** Two textures that share the frame [ok]; any other texture has no
    frame. *)
Definition example_textures (textureName : string) : option (list string) :=
  if decide (textureName = "ui") then Some ["ok"; "cancel"]
  else if decide (textureName = "hud") then Some ["ok"; "bar"]
  else Some [].

(** ** The outline of a polygon *)

(** The calls [shape.lineTo(vertices[i], vertices[i + 1])] of
    [_createPolygonFromConfig], in order, from the counter [i] on; an
    index past the end reads [undefined]. The counter advances by two
    while [i < vertices.length]; [fuel] bounds the number of iterations. *)
Fixpoint lineTo_loop (fuel : nat) (vertices : list number) (i : nat)
  : list (option number * option number) :=
  match fuel with
  | 0 => []
  | S fuel' =>
      if decide (i < length vertices) then
        (vertices !! i, vertices !! (i + 1)) :: lineTo_loop fuel' vertices (i + 2)
      else []
  end.

(** The loop from [i = 0]; [vertices.length] iterations are more than it
    takes. *)
Definition lineTo_calls (vertices : list number) : list (option number * option number) :=
  lineTo_loop (length vertices) vertices 0.

(** * Properties *)

(** ** The common-parameter setter *)

(** The setter keeps every supplied value that is truthy and defaults the
    others; [alpha] is kept whenever it is supplied. *)
Lemma _setupCommonParams_supplied config component :
  let kept v := match v with Some n => truthy n = true | None => True end in
  let value v d := default d v in
  kept (StateConfig.x config) → kept (StateConfig.y config) →
  kept (StateConfig.scaleX config) → kept (StateConfig.scaleY config) →
  kept (StateConfig.angle config) →
  _setupCommonParams config component
  = GameObject.mk
      (value (StateConfig.x config) (Num 0)) (value (StateConfig.y config) (Num 0))
      (value (StateConfig.scaleX config) (Num 1)) (value (StateConfig.scaleY config) (Num 1))
      (value (StateConfig.angle config) (Num 0)) (value (StateConfig.alpha config) (Num 1))
      (GameObject.visible component) (GameObject.mask component).
Proof.
  destruct config as [x y sx sy an al]. simpl. intros Hx Hy Hsx Hsy Han.
  unfold _setupCommonParams. simpl.
  assert (∀ v d, match v with Some n => truthy n = true | None => True end →
                 or_else v d = default d v) as Hor.
  { intros [n|] d Hn; simpl; [by rewrite Hn | done]. }
  rewrite !Hor by done. by destruct al.
Qed.

(** The fields the setter leaves, as values *)

Lemma same_number_refl n : same_number n n.
Proof. destruct n; simpl; [done | reflexivity]. Qed.

Lemma or_else_zero v :
  v ≠ Some NaN → same_number (or_else v (Num 0)) (present_or v (Num 0)).
Proof.
  destruct v as [[|q]|]; simpl; [done| |reflexivity]. intros _.
  destruct (Qeq_bool q 0) eqn:Hq; simpl; [|reflexivity].
  symmetry. by apply Qeq_bool_iff.
Qed.

Lemma or_else_one v :
  nonzero v → same_number (or_else v (Num 1)) (present_or v (Num 1)).
Proof.
  destruct v as [n|]; simpl; [|reflexivity]. intros Hv.
  destruct (Hv n eq_refl) as (q & -> & Hq). simpl.
  destruct (Qeq_bool q 0) eqn:Hb; simpl; [|reflexivity].
  by apply Qeq_bool_iff in Hb.
Qed.

Lemma or_else_zero_scale q : q == 0 → or_else (Some (Num q)) (Num 1) = Num 1.
Proof. intros Hq. simpl. apply Qeq_bool_iff in Hq. by rewrite Hq. Qed.

Lemma _setupCommonParams_applied config component :
  regular config → transform_applied config (_setupCommonParams config component).
Proof.
  intros (Hx & Hy & Han & Hsx & Hsy). unfold transform_applied. simpl.
  repeat split; try (by apply or_else_zero); try (by apply or_else_one).
  destruct (StateConfig.alpha config); apply same_number_refl.
Qed.

Lemma _setupCommonParams_kept config component :
  GameObject.visible (_setupCommonParams config component) = GameObject.visible component ∧
  GameObject.mask (_setupCommonParams config component) = GameObject.mask component.
Proof. done. Qed.

Lemma _setupCommonParams_zero_scaleX config component q :
  StateConfig.scaleX config = Some (Num q) → q == 0 →
  GameObject.scaleX (_setupCommonParams config component) = Num 1 ∧
  ¬ transform_applied config (_setupCommonParams config component).
Proof.
  intros Hsx Hq. unfold transform_applied. simpl. rewrite Hsx.
  rewrite (or_else_zero_scale q Hq). split; [done|].
  intros (_ & _ & Habs & _). simpl in Habs. rewrite Hq in Habs. by apply Q_apart_0_1.
Qed.

Lemma _setupCommonParams_zero_scaleY config component q :
  StateConfig.scaleY config = Some (Num q) → q == 0 →
  GameObject.scaleY (_setupCommonParams config component) = Num 1 ∧
  ¬ transform_applied config (_setupCommonParams config component).
Proof.
  intros Hsy Hq. unfold transform_applied. simpl. rewrite Hsy.
  rewrite (or_else_zero_scale q Hq). split; [done|].
  intros (_ & _ & _ & Habs & _). simpl in Habs. rewrite Hq in Habs. by apply Q_apart_0_1.
Qed.

(** ** The underscore functions *)

Lemma indexOf_from_absent array item i :
  (0 ≤ i)%Z → indexOf_from array item i = (-1)%Z ↔ item ∉ array.
Proof.
  revert i. induction array as [|v array IH]; intros i Hi; simpl.
  - split; [intros _; apply not_elem_of_nil | done].
  - case_decide as Hv.
    + subst v. split; [lia | intros []; apply elem_of_cons; by left].
    + rewrite IH by lia. rewrite not_elem_of_cons.
      split; [intros ?; split; [congruence | done] | by intros []].
Qed.

Lemma indexOf_absent array childId :
  indexOf array childId = (-1)%Z ↔ ∀ id, childId = Some id → id ∉ array.
Proof.
  destruct childId as [id|]; simpl.
  - rewrite indexOf_from_absent by lia.
    split; [by intros ? ? [= <-] | by intros H; apply H].
  - split; [by intros _ ? [=] | done].
Qed.

Lemma foldl_uniq_step result array :
  foldl uniq_step result array
  = result ++ filter (λ v, v ∉ result) (first_appearances array).
Proof.
  revert result. induction array as [|value array IH]; intros result; simpl.
  - by rewrite app_nil_r.
  - rewrite IH. unfold uniq_step. case_bool_decide as Hin.
    + rewrite filter_cons_False by (intros H; by apply H).
      rewrite list_filter_filter. f_equal. apply list_filter_iff.
      intros v. split; [intros Hv; split; [done | by intros ->] | by intros []].
    + rewrite filter_cons_True by done.
      rewrite list_filter_filter, <- app_assoc. simpl. do 2 f_equal.
      apply list_filter_iff. intros v. rewrite not_elem_of_app, not_elem_of_cons.
      pose proof (not_elem_of_nil v). tauto.
Qed.

Lemma filter_all {A} (P : A → Prop) `{∀ x, Decision (P x)} (l : list A) :
  (∀ x, x ∈ l → P x) → filter P l = l.
Proof.
  induction l as [|a l IH]; intros Hall; [done|].
  rewrite filter_cons_True by (apply Hall; by left).
  f_equal. apply IH. intros x Hx. apply Hall. by right.
Qed.

Lemma uniq_first_appearances array : uniq array = first_appearances array.
Proof.
  unfold uniq. rewrite foldl_uniq_step. simpl. apply filter_all. intros v _. apply not_elem_of_nil.
Qed.

Lemma elem_of_first_appearances v array : v ∈ first_appearances array ↔ v ∈ array.
Proof.
  induction array as [|a array IH]; simpl; [done|].
  rewrite !elem_of_cons, list_elem_of_filter, IH.
  destruct (decide (v = a)); tauto.
Qed.

Lemma NoDup_first_appearances array : NoDup (first_appearances array).
Proof.
  induction array as [|a array IH]; simpl; [constructor|].
  apply NoDup_cons. split; [| by apply NoDup_filter].
  rewrite list_elem_of_filter. by intros [? _].
Qed.

Lemma elem_of_difference v array rest : v ∈ difference array rest ↔ v ∈ array ∧ v ∉ rest.
Proof. unfold difference. rewrite list_elem_of_filter. tauto. Qed.

(** ** Loops *)

Section for_of_lemmas.
Context {S A : Type} (body : A → M S unit).

(** An invariant kept by every iteration is kept by the loop, however it
    completes. *)
Lemma for_of_invariant (P : S → Prop) array s s' c :
  (∀ a s1 s2 c1, a ∈ array → P s1 → body a s1 = (s2, c1) → P s2) →
  P s → for_of body array s = (s', c) → P s'.
Proof.
  revert s. induction array as [|a array IH]; intros s Hbody Hs Hrun.
  - unfold_M. by injection Hrun as <- _.
  - simpl in Hrun. unfold mbind, M_bind in Hrun.
    destruct (body a s) as [s1 [[]|]] eqn:Ha.
    + apply (IH s1); [| |done].
      * intros a' s2 s3 c1 Hin. apply Hbody. by right.
      * eapply Hbody; [by left | exact Hs | exact Ha].
    + injection Hrun as <- _. eapply Hbody; [by left | exact Hs | exact Ha].
Qed.

(** A loop that completes normally ran every iteration to a normal
    completion. *)
Lemma for_of_normal_inv (P : S → Prop) array s s' :
  (∀ a s1 s2 c1, a ∈ array → P s1 → body a s1 = (s2, c1) → P s2) →
  P s → for_of body array s = (s', Normal ()) →
  ∀ a, a ∈ array → ∃ s1 s2, P s1 ∧ body a s1 = (s2, Normal ()).
Proof.
  revert s. induction array as [|a array IH]; intros s Hbody Hs Hrun a' Hin.
  - by apply elem_of_nil in Hin.
  - simpl in Hrun. unfold mbind, M_bind in Hrun.
    destruct (body a s) as [s1 [[]|]] eqn:Ha; [|done].
    apply elem_of_cons in Hin as [->|Hin]; [by exists s, s1|].
    apply (IH s1); [| |done|done].
    + intros a'' s2 s3 c1 Hin'. apply Hbody. by right.
    + eapply Hbody; [by left | exact Hs | exact Ha].
Qed.

(** What each iteration establishes for its element, and later iterations
    keep, holds for every element after a loop that completes normally. *)
Lemma for_of_established (P : S → Prop) (R : A → S → Prop) array s s' :
  (∀ a s1 s2 c1, P s1 → body a s1 = (s2, c1) → P s2) →
  (∀ a s1 s2, P s1 → body a s1 = (s2, Normal ()) → R a s2) →
  (∀ a b s1 s2 c1, P s1 → R a s1 → body b s1 = (s2, c1) → R a s2) →
  P s → for_of body array s = (s', Normal ()) →
  ∀ a, a ∈ array → R a s'.
Proof.
  intros HP Hest Hkeep. revert s.
  induction array as [|b array IH]; intros s Hs Hrun a Hin.
  - by apply elem_of_nil in Hin.
  - simpl in Hrun. unfold mbind, M_bind in Hrun.
    destruct (body b s) as [s1 [[]|]] eqn:Hb; [|done].
    pose proof (HP _ _ _ _ Hs Hb) as Hs1.
    apply elem_of_cons in Hin as [->|Hin]; [|by apply (IH s1)].
    assert (P s' ∧ R b s') as [_ ?]; [|done].
    eapply (for_of_invariant (λ s2, P s2 ∧ R b s2)); [| |exact Hrun].
    + intros a' s2 s3 c1 _ [Hs2 HR] Ha'.
      split; [exact (HP _ _ _ _ Hs2 Ha') | exact (Hkeep _ _ _ _ _ Hs2 HR Ha')].
    + split; [done | exact (Hest _ _ _ Hs Hb)].
Qed.

End for_of_lemmas.

(** ** Objects touched through a map of locations *)

Section touch.
Context (components : gmap string loc) (g : string → GameObject.t → GameObject.t).

Lemma touched_none l o ids :
  (∀ id, id ∈ ids → components !! id ≠ Some l) → touched components g l o ids = o.
Proof.
  revert o. induction ids as [|a ids IH]; intros o Hno; [done|].
  simpl. rewrite decide_False by (apply Hno; by left).
  apply IH. intros id Hin. apply Hno. by right.
Qed.

Lemma touched_single l o ids id :
  components !! id = Some l → id ∈ ids →
  (∀ id', id' ∈ ids → components !! id' = Some l → id' = id) →
  (∀ o, g id (g id o) = g id o) →
  touched components g l o ids = g id <$> o.
Proof.
  intros Hid Hin Honly Hidem.
  assert (∀ ids' o', (∀ id', id' ∈ ids' → components !! id' = Some l → id' = id) →
            touched components g l (g id <$> o') ids' = g id <$> o') as Hrest.
  { induction ids' as [|a ids' IH]; intros o' Hall; [done|].
    simpl. case_decide as Ha.
    - rewrite (Hall a) by (done || by left).
      assert (g id <$> (g id <$> o') = g id <$> o') as ->
        by (destruct o'; simpl; by rewrite ?Hidem).
      apply IH. intros ???; apply Hall; [by right|done].
    - apply IH. intros ???; apply Hall; [by right|done]. }
  revert o Hin Honly. induction ids as [|a ids IH]; intros o Hin Honly.
  - by apply elem_of_nil in Hin.
  - simpl. case_decide as Ha.
    + rewrite (Honly a) by (done || by left).
      apply Hrest. intros ???; apply Honly; [by right|done].
    + apply elem_of_cons in Hin as [->|Hin]; [done|].
      apply IH; [done|]. intros ???; apply Honly; [by right|done].
Qed.
End touch.

Section touch_loop.
Context (sm : StateManager.t) (g : string → GameObject.t → GameObject.t)
        (body : string → M (StateManager.t * heap) unit).

(** A loop whose iterations update the object registered for their id *)
Lemma for_of_touch ids σ :
  (∀ id, id ∈ ids → ∃ l, StateManager._components sm !! id = Some l ∧
      ∀ σ1, body id (sm, σ1) = ((sm, alter (g id) l σ1), Normal ())) →
  ∃ σ', for_of body ids (sm, σ) = ((sm, σ'), Normal ()) ∧
        length σ' = length σ ∧
        ∀ l, σ' !! l = touched (StateManager._components sm) g l (σ !! l) ids.
Proof.
  revert σ. induction ids as [|a ids IH]; intros σ Hbody.
  - exists σ. by unfold_M.
  - destruct (Hbody a) as (la & Hla & Ha); [by left|].
    destruct (IH (alter (g a) la σ)) as (σ' & Hrun & Hlen & Hlook).
    { intros id Hin. apply Hbody. by right. }
    exists σ'. split; [|split].
    + simpl. unfold mbind, M_bind. by rewrite Ha.
    + by rewrite Hlen, length_alter.
    + intros l. rewrite Hlook. simpl. f_equal.
      rewrite list_lookup_alter. rewrite Hla.
      destruct (decide (la = l)) as [->|Hne].
      * by rewrite !decide_True.
      * by rewrite !decide_False by congruence.
Qed.
End touch_loop.

(** ** Configuration objects *)

Lemma prop_keys {V} (o : list (string * V)) k : k ∈ keys o → is_Some (prop o k).
Proof.
  induction o as [|[k' v] o IH]; simpl; intros Hin.
  - by apply elem_of_nil in Hin.
  - case_decide; [by eexists|]. apply IH.
    apply elem_of_cons in Hin as [->|Hin]; done.
Qed.

(** ** The passes of the apply routine *)

Import StateManager.

Lemma hide_registered sm id l σ :
  _components sm !! id = Some l →
  hide id (sm, σ) = ((sm, alter (GameObject.set_visible false) l σ), Normal ()).
Proof. intros Hl. unfold hide. unfold_M. by rewrite Hl. Qed.

Lemma hide_unregistered sm id σ :
  _components sm !! id = None → hide id (sm, σ) = ((sm, σ), Throw).
Proof. intros Hl. unfold hide. unfold_M. by rewrite Hl. Qed.

Lemma show_registered sm state id l config σ :
  _components sm !! id = Some l →
  _currentState sm = Some state →
  prop (State.config state) id = Some config →
  show id (sm, σ) = ((sm, alter (show_in state id) l σ), Normal ()).
Proof.
  intros Hl Hst Hp. unfold show. unfold_M. rewrite Hl, Hst. simpl. rewrite Hp. simpl.
  rewrite list_alter_alter_eq. do 2 f_equal.
  apply list_alter_ext; [|done]. intros o _. unfold show_in. by rewrite Hp.
Qed.

Lemma show_unregistered sm id σ :
  _components sm !! id = None → show id (sm, σ) = ((sm, σ), Throw).
Proof. intros Hl. unfold show. unfold_M. by rewrite Hl. Qed.

Lemma frame_refl sm σ : frame sm σ (sm, σ).
Proof. by repeat split. Qed.

Lemma frame_alter sm σ s id l f :
  frame sm σ s → _components sm !! id = Some l → frame sm σ (sm, alter f l s.2).
Proof.
  intros (Hsm & Hlen & Hfr) Hl. split; [done|]. split; simpl.
  - by rewrite length_alter.
  - intros l' Hl'. rewrite list_lookup_alter_ne; [by apply Hfr|].
    intros ->. by apply (Hl' id).
Qed.

Lemma hide_frame sm σ id s s' c : frame sm σ s → hide id s = (s', c) → frame sm σ s'.
Proof.
  intros Hfr Hrun. destruct s as [sm1 σ1]. pose proof Hfr as (Hsm & _). simpl in Hsm. subst sm1.
  destruct (_components sm !! id) as [l|] eqn:Hl.
  - rewrite (hide_registered _ _ l) in Hrun by done. injection Hrun as <- _.
    by apply (frame_alter _ _ (sm, σ1) id).
  - rewrite hide_unregistered in Hrun by done. by injection Hrun as <- _.
Qed.

Lemma show_frame sm σ id s s' c : frame sm σ s → show id s = (s', c) → frame sm σ s'.
Proof.
  intros Hfr Hrun. destruct s as [sm1 σ1]. pose proof Hfr as (Hsm & _). simpl in Hsm. subst sm1.
  unfold show in Hrun. unfold_M.
  destruct (_components sm !! id) as [l|] eqn:Hl; simpl in Hrun.
  - pose proof (frame_alter _ _ _ id l (GameObject.set_visible true) Hfr Hl) as Hfr1.
    simpl in Hfr1.
    destruct (_currentState sm) as [state|]; simpl in Hrun;
      [|by injection Hrun as <- _].
    destruct (prop (State.config state) id) as [config|]; simpl in Hrun;
      injection Hrun as <- _; [|done].
    by apply (frame_alter _ _ (sm, _) id).
  - by injection Hrun as <- _.
Qed.

Lemma setupState_frame sm σ s' c :
  setupState (sm, σ) = (s', c) → frame sm σ s'.
Proof.
  unfold setupState. intros Hrun. unfold mbind at 1, M_bind at 1 in Hrun.
  unfold this at 1 in Hrun. simpl in Hrun.
  unfold mbind at 1, M_bind at 1 in Hrun.
  destruct (_currentState sm) as [state|]; simpl in Hrun;
    [|injection Hrun as <- _; apply frame_refl].
  unfold mbind, M_bind in Hrun.
  destruct (for_of hide _ _) as [s1 [[]|]] eqn:Hhide.
  - eapply (for_of_invariant show (frame sm σ)); [| |exact Hrun].
    + intros id s2 s3 c1 _. apply show_frame.
    + eapply (for_of_invariant hide (frame sm σ)); [| |exact Hhide].
      * intros id s2 s3 c1 _. apply hide_frame.
      * apply frame_refl.
  - injection Hrun as <- _.
    eapply (for_of_invariant hide (frame sm σ)); [| |exact Hhide].
    + intros id s2 s3 c1 _. apply hide_frame.
    + apply frame_refl.
Qed.

(** The apply routine when every dynamic id is registered *)
Lemma setupState_registered sm state σ :
  _currentState sm = Some state →
  State.componentIds state = keys (State.config state) →
  (∀ id, id ∈ _dynamicChildrenIds sm → is_Some (_components sm !! id)) →
  (∀ id, id ∈ State.componentIds state → id ∈ _dynamicChildrenIds sm) →
  ∃ σ', setupState (sm, σ) = ((sm, σ'), Normal ()) ∧
    ∀ l, σ' !! l =
      touched (_components sm) (show_in state) l
        (touched (_components sm) (λ _, GameObject.set_visible false) l (σ !! l)
           (difference (_dynamicChildrenIds sm) (State.componentIds state)))
        (State.componentIds state).
Proof.
  intros Hst Hkeys Hreg Hsub.
  destruct (for_of_touch sm (λ _, GameObject.set_visible false) hide
              (difference (_dynamicChildrenIds sm) (State.componentIds state)) σ)
    as (σ1 & Hhide & _ & Hlook1).
  { intros id [Hid _]%elem_of_difference. destruct (Hreg id Hid) as [l Hl].
    exists l. split; [done|]. intros σ1. by apply hide_registered. }
  destruct (for_of_touch sm (show_in state) show (State.componentIds state) σ1)
    as (σ' & Hshow & _ & Hlook2).
  { intros id Hid. destruct (Hreg id (Hsub id Hid)) as [l Hl].
    exists l. split; [done|]. intros σ2.
    destruct (prop_keys (State.config state) id) as [config Hp];
      [by rewrite <- Hkeys|].
    by apply (show_registered _ state _ _ config). }
  exists σ'. split.
  - unfold setupState. unfold mbind at 1, M_bind at 1. unfold this at 1. simpl.
    unfold mbind at 1, M_bind at 1. rewrite Hst. simpl.
    unfold mbind, M_bind. by rewrite Hhide.
  - intros l. by rewrite Hlook2, Hlook1.
Qed.

(** The apply routine completes normally only if every dynamic id is
    registered. *)
Lemma setupState_normal_registered sm state σ s' :
  _currentState sm = Some state →
  setupState (sm, σ) = (s', Normal ()) →
  ∀ id, id ∈ _dynamicChildrenIds sm → is_Some (_components sm !! id).
Proof.
  intros Hst Hrun id Hid.
  unfold setupState in Hrun. unfold mbind at 1, M_bind at 1 in Hrun.
  unfold this at 1 in Hrun. simpl in Hrun.
  unfold mbind at 1, M_bind at 1 in Hrun. rewrite Hst in Hrun. simpl in Hrun.
  unfold mbind, M_bind in Hrun.
  destruct (for_of hide _ _) as [s1 [[]|]] eqn:Hhide; [|done].
  assert (frame sm σ s1) as Hfr1.
  { eapply (for_of_invariant hide (frame sm σ)); [| |exact Hhide].
    - intros ???? _. apply hide_frame.
    - apply frame_refl. }
  destruct (decide (id ∈ State.componentIds state)) as [Hin|Hout].
  - destruct (for_of_normal_inv show (frame sm σ) _ _ _
                (λ a s2 s3 c1 _, show_frame sm σ a s2 s3 c1) Hfr1 Hrun id Hin)
      as ([sm2 σ2] & s3 & (Hsm2 & _) & Hbody).
    simpl in Hsm2. subst sm2.
    destruct (_components sm !! id) eqn:Hl; [by eexists|].
    by rewrite show_unregistered in Hbody.
  - destruct (for_of_normal_inv hide (frame sm σ) _ _ _
                (λ a s2 s3 c1 _, hide_frame sm σ a s2 s3 c1) (frame_refl sm σ) Hhide id)
      as ([sm2 σ2] & s3 & (Hsm2 & _) & Hbody).
    { by apply elem_of_difference. }
    simpl in Hsm2. subst sm2.
    destruct (_components sm !! id) eqn:Hl; [by eexists|].
    by rewrite hide_unregistered in Hbody.
Qed.

Lemma show_in_idemp state id o : show_in state id (show_in state id o) = show_in state id o.
Proof. unfold show_in. by destruct (prop _ _). Qed.

(** What the apply routine leaves in the heap *)
Lemma setupState_effect sm state σ σ' :
  wf_manager sm σ →
  _currentState sm = Some state →
  State.componentIds state = keys (State.config state) →
  (∀ id, id ∈ _dynamicChildrenIds sm → is_Some (_components sm !! id)) →
  (∀ id, id ∈ State.componentIds state → id ∈ _dynamicChildrenIds sm) →
  (∀ l, σ' !! l =
      touched (_components sm) (show_in state) l
        (touched (_components sm) (λ _, GameObject.set_visible false) l (σ !! l)
           (difference (_dynamicChildrenIds sm) (State.componentIds state)))
        (State.componentIds state)) →
  shown sm state σ σ' ∧ hidden sm state σ σ'.
Proof.
  intros Hwf Hst Hkeys Hreg Hsub Hlook. split.
  - intros id Hin.
    destruct (prop_keys (State.config state) id) as [config Hp]; [by rewrite <- Hkeys|].
    destruct (Hreg id (Hsub id Hin)) as [l Hl].
    destruct (lookup_lt_is_Some_2 σ l) as [o Ho]; [by eapply wf_components_valid|].
    exists l, o, config. repeat split; try done.
    rewrite Hlook. rewrite (touched_none _ (λ _, GameObject.set_visible false)).
    + rewrite (touched_single _ _ _ _ _ id); try done.
      * rewrite Ho. simpl. unfold show_in. by rewrite Hp.
      * intros id' _ Hl'. by eapply wf_components_inj.
      * apply show_in_idemp.
    + intros id' [_ Hout]%elem_of_difference Hl'.
      by rewrite (wf_components_inj _ _ Hwf id' id l) in Hout.
  - intros id Hdyn Hout. destruct (Hreg id Hdyn) as [l Hl].
    destruct (lookup_lt_is_Some_2 σ l) as [o Ho]; [by eapply wf_components_valid|].
    exists l, o. repeat split; try done.
    rewrite Hlook. rewrite (touched_none _ (show_in state)).
    + rewrite (touched_single _ _ _ _ _ id); try done.
      * by rewrite Ho.
      * by apply elem_of_difference.
      * intros id' _ Hl'. by eapply wf_components_inj.
    + intros id' Hin Hl'.
      by rewrite (wf_components_inj _ _ Hwf id' id l) in Hin.
Qed.

(** ** Transitions *)

Lemma setState_same sm σ stateId :
  _currentStateId sm = Some stateId →
  setState stateId false (sm, σ) = ((sm, σ), Normal ()).
Proof.
  intros Hcur. unfold setState. unfold_M. by rewrite bool_decide_true.
Qed.

Lemma setState_undeclared sm σ stateId force :
  _states sm !! stateId = None →
  setState stateId force (sm, σ) = ((sm, σ), Normal ()).
Proof.
  intros Hst. unfold setState. unfold_M. rewrite Hst. by destruct (_ && _).
Qed.

Lemma setState_transition sm σ stateId force state :
  _states sm !! stateId = Some state →
  (_currentStateId sm = Some stateId → force = true) →
  setState stateId force (sm, σ) = setupState (set_current stateId state sm, σ).
Proof.
  intros Hst Hforce. unfold setState.
  unfold mbind at 1, M_bind at 1. unfold this at 1. simpl.
  destruct (bool_decide _ && negb force) eqn:Hguard.
  - apply andb_true_iff in Hguard as [Hcur%bool_decide_eq_true Hf].
    rewrite (Hforce Hcur) in Hf. done.
  - rewrite Hst. reflexivity.
Qed.

(** The three ways a call of [setState] can go *)
Lemma setState_cases sm σ stateId force :
  setState stateId force (sm, σ) = ((sm, σ), Normal ()) ∨
  ∃ state, _states sm !! stateId = Some state ∧
           setState stateId force (sm, σ) = setupState (set_current stateId state sm, σ).
Proof.
  destruct (_states sm !! stateId) as [state|] eqn:Hst;
    [|left; by apply setState_undeclared].
  destruct (decide (_currentStateId sm = Some stateId)) as [Hcur|Hcur].
  - destruct force.
    + right. exists state. split; [done|]. by apply setState_transition.
    + left. by apply setState_same.
  - right. exists state. split; [done|]. by apply setState_transition.
Qed.

Lemma setState_frame sm σ stateId force s' c :
  setState stateId force (sm, σ) = (s', c) →
  (s'.1 = sm ∨ ∃ state, _states sm !! stateId = Some state ∧
                        s'.1 = set_current stateId state sm) ∧
  length s'.2 = length σ ∧
  ∀ l, (∀ id, _components sm !! id ≠ Some l) → s'.2 !! l = σ !! l.
Proof.
  intros Hrun. destruct (setState_cases sm σ stateId force) as [Heq|(state & Hst & Heq)];
    rewrite Heq in Hrun.
  - injection Hrun as <- _. split; [by left|done].
  - apply setupState_frame in Hrun as (Hsm & Hlen & Hfr).
    split; [right; by exists state|]. split; [done|]. exact Hfr.
Qed.

(** ** Invariants are kept *)

Lemma wf_manager_length sm (σ σ' : heap) :
  (length σ ≤ length σ')%nat → wf_manager sm σ → wf_manager sm σ'.
Proof.
  intros Hlen [H1 H2 H3 H4 H5 H6 H7]. split; try done.
  - intros id l Hl. specialize (H1 id l Hl). lia.
  - intros key l Hl. destruct (H5 key l Hl). split; [lia|done].
Qed.

Lemma wf_manager_set_current sm σ stateId state :
  _states sm !! stateId = Some state →
  wf_manager sm σ → wf_manager (set_current stateId state sm) σ.
Proof. intros Hst [H1 H2 H3 H4 H5 H6 H7]. split; try done; simpl; by split. Qed.

Lemma wf_manager_setState sm σ stateId force s' c :
  setState stateId force (sm, σ) = (s', c) →
  wf_manager sm σ → wf_manager s'.1 s'.2.
Proof.
  intros Hrun Hwf. apply setState_frame in Hrun as (Hsm & Hlen & _).
  apply (wf_manager_length _ σ); [lia|].
  destruct Hsm as [->|(state & Hst & ->)]; [done|].
  by apply wf_manager_set_current.
Qed.

Lemma wf_clip_heap config clip (σ σ' : heap) :
  (length σ ≤ length σ')%nat → wf_clip config (clip, σ) → wf_clip config (clip, σ').
Proof.
  intros Hlen [H1 H2 H3 H4 H5]. split; try done; simpl in *.
  - by apply (wf_manager_length _ σ).
  - intros id l Hl. specialize (H4 id l Hl). lia.
Qed.

Lemma wf_clip_step config w w' : step w w' → wf_clip config w → wf_clip config w'.
Proof.
  intros Hstep Hwf. destruct Hstep as [stateId force [clip σ]|childId params [clip σ]
                                      |key [clip σ]|l o [clip σ]|o [clip σ]]; simpl.
  - unfold ComponentClip.setState, ComponentClip.on_stateManager. simpl.
    destruct (setState stateId force _) as [[sm' σ'] c] eqn:Hrun. simpl.
    pose proof (wf_manager_setState _ _ _ _ _ _ Hrun (wf_stateManager _ _ Hwf)) as Hsm.
    apply setState_frame in Hrun as (Hcase & Hlen & _). simpl in *.
    destruct Hwf as [H1 H2 H3 H4 H5]. simpl in *.
    split; simpl; try done.
    + by destruct Hcase as [->|(state & _ & ->)].
    + by destruct Hcase as [->|(state & _ & ->)].
    + intros id l Hl. specialize (H4 id l Hl). lia.
    + intros id id' l. destruct Hcase as [->|(state & _ & ->)]; apply H5.
  - unfold ComponentClip.applyChildParams. unfold_M.
    destruct (ComponentClip._childrenById clip !! childId); simpl; [|done].
    apply (wf_clip_heap _ _ σ); [by rewrite length_alter | done].
  - unfold ComponentClip.getChildClip, ComponentClip.on_stateManager,
      getActiveComponentByKey. unfold_M.
    assert (ComponentClip.set_stateManager (ComponentClip._stateManager clip) clip = clip)
      as Hid by by destruct clip.
    destruct (_residentComponentsByKey _ !! key); simpl; [by rewrite Hid|].
    destruct (_currentState _); simpl; by rewrite Hid.
  - apply (wf_clip_heap _ _ σ); [by rewrite length_insert | done].
  - apply (wf_clip_heap _ _ σ); [rewrite length_app; simpl; lia | done].
Qed.

(** ** The constructor of the manager *)

Lemma constructor_loop_foldl entries stateIds states idsArrays :
  foldl constructor_loop (stateIds, states, idsArrays) entries
  = (stateIds ++ keys entries,
     foldl (λ m e, <[e.1 := State.new e.2]> m) states entries,
     idsArrays ++ map (λ e, keys e.2) entries).
Proof.
  revert stateIds states idsArrays.
  induction entries as [|[stateId stateConfig] entries IH]; intros; simpl.
  - by rewrite !app_nil_r.
  - rewrite IH. by rewrite <- !app_assoc.
Qed.

Lemma new_fields config :
  StateManager.new config
  = mk (uniq (flatten (map (λ e, keys e.2) (ComponentConfig.states config))))
       (foldl (λ m e, <[e.1 := State.new e.2]> m) ∅ (ComponentConfig.states config))
       (keys (ComponentConfig.states config)) ∅ None None ∅ ∅.
Proof. unfold StateManager.new. by rewrite constructor_loop_foldl. Qed.

Lemma states_foldl_lookup entries (states : gmap string State.t) stateId state :
  foldl (λ m e, <[e.1 := State.new e.2]> m) states entries !! stateId = Some state →
  states !! stateId = Some state ∨
  ∃ stateConfig, (stateId, stateConfig) ∈ entries ∧ state = State.new stateConfig.
Proof.
  revert states. induction entries as [|[sid sc] entries IH]; intros states; simpl.
  - by left.
  - intros [Hold|(sc' & Hin & ->)]%IH.
    + apply lookup_insert_Some in Hold as [[<- <-]|[_ Hold]]; [|by left].
      right. exists sc. split; [by left|done].
    + right. exists sc'. split; [by right|done].
Qed.

Lemma states_foldl_None entries (states : gmap string State.t) stateId :
  stateId ∉ keys entries → states !! stateId = None →
  foldl (λ m e, <[e.1 := State.new e.2]> m) states entries !! stateId = None.
Proof.
  revert states. induction entries as [|[sid sc] entries IH]; intros states; simpl; [done|].
  intros [Hne Hout]%not_elem_of_cons Hnone. apply IH; [done|].
  by rewrite lookup_insert_ne.
Qed.

Lemma states_foldl_is_Some entries (states : gmap string State.t) stateId :
  stateId ∈ keys entries ∨ is_Some (states !! stateId) →
  is_Some (foldl (λ m e, <[e.1 := State.new e.2]> m) states entries !! stateId).
Proof.
  revert states. induction entries as [|[sid sc] entries IH]; intros states; simpl.
  - intros [Hin|?]; [by apply elem_of_nil in Hin | done].
  - intros Hor. apply IH. destruct (decide (sid = stateId)) as [->|Hne].
    + right. rewrite lookup_insert_eq. by eexists.
    + rewrite lookup_insert_ne by done.
      destruct Hor as [[?|?]%elem_of_cons|?]; [congruence | by left | by right].
Qed.

Lemma new_undeclared config stateId :
  _states (StateManager.new config) !! stateId = None
  ↔ stateId ∉ keys (ComponentConfig.states config).
Proof.
  rewrite new_fields. simpl. split.
  - intros Hnone Hin.
    destruct (states_foldl_is_Some (ComponentConfig.states config) ∅ stateId) as [? Hs];
      [by left | congruence].
  - intros Hout. by apply states_foldl_None.
Qed.

Lemma elem_of_dynamicChildrenIds config id :
  id ∈ _dynamicChildrenIds (StateManager.new config) ↔ declared config id.
Proof.
  rewrite new_fields. simpl. rewrite uniq_first_appearances, elem_of_first_appearances.
  unfold flatten, declared. rewrite list_elem_of_In, in_concat. split.
  - intros (ids & Hids & Hid). apply in_map_iff in Hids as ([sid sc] & <- & Hin).
    exists sid, sc. by rewrite !list_elem_of_In.
  - intros (sid & sc & Hin & Hid). exists (keys sc). rewrite <- !list_elem_of_In.
    split; [|done]. apply list_elem_of_In, in_map_iff. exists (sid, sc).
    by rewrite <- list_elem_of_In.
Qed.

Lemma wf_manager_new config σ : wf_manager (StateManager.new config) σ.
Proof.
  split; try (rewrite new_fields; simpl; intros *; by rewrite lookup_empty).
  - intros stateId state Hst. pose proof Hst as Hst'.
    rewrite new_fields in Hst'. simpl in Hst'.
    apply states_foldl_lookup in Hst' as [Hempty|(sc & Hin & ->)];
      [by rewrite lookup_empty in Hempty|].
    split; [done|]. intros id Hid. apply elem_of_dynamicChildrenIds.
    by exists stateId, sc.
  - by rewrite new_fields.
Qed.

(** ** Registration *)

Lemma indexOf_present array childId :
  indexOf array childId ≠ (-1)%Z → ∃ id, childId = Some id ∧ id ∈ array.
Proof.
  destruct childId as [id|]; simpl; [|done]. intros Hne. exists id. split; [done|].
  destruct (decide (id ∈ array)) as [|Hout]; [done|].
  by apply (indexOf_from_absent array id 0) in Hout.
Qed.

Lemma addComponent_static component childId childKey sm :
  _dynamicChildrenIds (addComponent component childId childKey sm) = _dynamicChildrenIds sm ∧
  _states (addComponent component childId childKey sm) = _states sm ∧
  _currentState (addComponent component childId childKey sm) = _currentState sm ∧
  _currentStateId (addComponent component childId childKey sm) = _currentStateId sm.
Proof. unfold addComponent. case_decide; [by destruct childKey | done]. Qed.

Lemma wf_manager_addComponent sm (σ σ' : heap) component childId childKey :
  (length σ ≤ component)%nat → component < length σ' →
  wf_manager sm σ → wf_manager (addComponent component childId childKey sm) σ'.
Proof.
  intros Hge Hlt Hwf.
  assert (wf_manager sm σ') as Hwf' by (apply (wf_manager_length _ σ); [lia | done]).
  assert (∀ id, _components sm !! id ≠ Some component) as Hfresh.
  { intros id Hid. apply (wf_components_valid _ _ Hwf) in Hid. lia. }
  unfold addComponent. case_decide as Hidx.
  - destruct childKey as [k|]; [|done].
    destruct Hwf' as [H1 H2 H3 H4 H5 H6 H7]. split; try done. simpl.
    intros key l [[<- <-]|[_ Hold]]%lookup_insert_Some; [by split | by eapply H5].
  - apply indexOf_present in Hidx as (id & -> & Hdyn). simpl.
    destruct Hwf' as [H1 H2 H3 H4 H5 H6 H7]. split; simpl; try done.
    + intros id' l [[<- <-]|[_ Hold]]%lookup_insert_Some; [done | by eapply H1].
    + intros id1 id2 l Hl1 Hl2.
      apply lookup_insert_Some in Hl1 as [[? ?]|[Hne1 Hold1]];
        apply lookup_insert_Some in Hl2 as [[? ?]|[Hne2 Hold2]]; subst.
      * done.
      * by destruct (Hfresh id2).
      * by destruct (Hfresh id1).
      * by eapply H2.
    + intros id' l [[<- <-]|[_ Hold]]%lookup_insert_Some; [done | by eapply H3].
    + intros id' k Hk. apply lookup_insert_is_Some.
      destruct (decide (id = id')); [by left | right; split; [done|]].
      destruct childKey as [k'|]; [rewrite lookup_insert_ne in Hk by done|];
        by eapply H4.
    + intros key l Hl. destruct (H5 key l Hl) as [Hv Hno]. split; [done|].
      intros id' [[_ <-]|[_ Hold]]%lookup_insert_Some; [|by eapply Hno].
      apply (wf_resident _ _ Hwf) in Hl as [? _]. lia.
Qed.

Lemma wf_clip_register config this (σ σ' : heap) child childId childKey addAsChild :
  (length σ ≤ child)%nat → child < length σ' →
  wf_clip config (this, σ) →
  wf_clip config (ComponentClip.register child childId childKey addAsChild this, σ').
Proof.
  intros Hge Hlt [Hsm Hdyn Hst Hval Hcc]. simpl in *.
  pose proof (addComponent_static child childId childKey (ComponentClip._stateManager this))
    as (Ha & Hb & _).
  split; simpl.
  - by apply (wf_manager_addComponent _ σ).
  - by rewrite Ha.
  - by rewrite Hb.
  - intros id l [[_ <-]|[_ Hold]]%lookup_insert_Some; [done|].
    specialize (Hval id l Hold). lia.
  - assert (∀ id, _components (ComponentClip._stateManager this) !! id ≠ Some child)
      as Hfresh.
    { intros id Hid. apply (wf_components_valid _ _ Hsm) in Hid. lia. }
    intros id id' l Hchild Hcomp.
    assert (_components (addComponent child childId childKey
                           (ComponentClip._stateManager this)) !! id' = Some l →
            (id' = prop_name childId ∧ l = child) ∨
            _components (ComponentClip._stateManager this) !! id' = Some l) as Hcases.
    { unfold addComponent. case_decide; [destruct childKey; by right|]. simpl.
      intros [[<- <-]|[_ Hold]]%lookup_insert_Some; [by left | by right]. }
    apply Hcases in Hcomp.
    apply lookup_insert_Some in Hchild as [[<- <-]|[Hne Hold]].
    + destruct Hcomp as [[-> _]|Hold]; [done | by destruct (Hfresh id')].
    + destruct Hcomp as [[-> ->]|Hold'].
      * specialize (Hval id child Hold). lia.
      * by eapply Hcc.
Qed.

(** ** Construction *)

Lemma setMask_frame this (σ : heap) mask maskedChildId s s' c :
  s.1 = this ∧ length s.2 = length σ →
  ComponentClip.setMask mask maskedChildId s = (s', c) →
  s'.1 = this ∧ length s'.2 = length σ.
Proof.
  intros [Hthis Hlen]. destruct s as [this1 σ1]. simpl in *. subst this1.
  unfold ComponentClip.setMask. unfold_M.
  destruct (ComponentClip._childrenById this !! maskedChildId); simpl;
    intros [= <- _]; simpl; [by rewrite length_alter | done].
Qed.

Lemma _createChildFromConfig_spec new_child childConfig this (σ : heap) s' c :
  fresh_clip new_child →
  ComponentClip._createChildFromConfig new_child childConfig (this, σ) = (s', c) →
  (length σ ≤ length s'.2)%nat ∧
  (s'.1 = this ∧ (c = Throw ∨ ¬ known_type (ComponentConfig.type childConfig)) ∨
   ∃ child addAsChild,
     (length σ ≤ child)%nat ∧ child < length s'.2 ∧
     s'.1 = ComponentClip.register child (ComponentConfig.childId childConfig)
              (ComponentConfig.key childConfig) addAsChild this).
Proof.
  intros Hfresh Hrun. unfold ComponentClip._createChildFromConfig in Hrun.
  unfold mbind at 1, M_bind at 1 in Hrun.
  assert (∀ f o b,
    (length σ ≤ length (alter f (length σ) (σ ++ [o])))%nat ∧
    (ComponentClip.register (length σ) (ComponentConfig.childId childConfig)
        (ComponentConfig.key childConfig) b this = this ∧
     (Normal () = @Throw unit ∨ ¬ known_type (ComponentConfig.type childConfig)) ∨
     ∃ child addAsChild,
       (length σ ≤ child)%nat ∧ child < length (alter f (length σ) (σ ++ [o])) ∧
       ComponentClip.register (length σ) (ComponentConfig.childId childConfig)
         (ComponentConfig.key childConfig) b this
       = ComponentClip.register child (ComponentConfig.childId childConfig)
           (ComponentConfig.key childConfig) addAsChild this)) as Hsimple.
  { intros f o b. rewrite length_alter, length_app. simpl. split; [lia|].
    right. exists (length σ), b. repeat split; lia. }
  repeat case_decide.
  - unfold ComponentClip._createImageFromConfig in Hrun. unfold_M.
    injection Hrun as <- <-. apply Hsimple.
  - unfold ComponentClip._createTextFromConfig in Hrun. unfold_M.
    destruct (ComponentConfig.textStyle childConfig) as [textStyle|]; simpl in Hrun;
      injection Hrun as <- <-; [apply Hsimple|].
    simpl. rewrite length_app. split; [lia | left; split; [done | by left]].
  - unfold ComponentClip._createTileSpriteFromConfig in Hrun. unfold_M.
    injection Hrun as <- <-. apply Hsimple.
  - unfold ComponentClip.lift_heap in Hrun. unfold_M.
    destruct (new_child σ) as [σ1 [clip|]] eqn:Hnew; simpl in Hrun;
      destruct (Hfresh _ _ _ Hnew) as [Hlt Hself]; injection Hrun as <- <-; simpl.
    + rewrite length_alter. split; [lia|]. right.
      exists (ComponentClip.self clip), true. rewrite (Hself clip eq_refl).
      repeat split; lia.
    + split; [lia | left; split; [done | by left]].
  - unfold ComponentClip._createHitZoneFromConfig in Hrun. unfold_M.
    injection Hrun as <- <-. simpl. rewrite length_app. simpl. split; [lia|].
    right. exists (length σ), true. repeat split; lia.
  - unfold ComponentClip._createPolygonFromConfig in Hrun. unfold_M.
    destruct (ComponentConfig.vertices childConfig) as [vertices|]; simpl in Hrun.
    2:{ injection Hrun as <- <-. simpl. rewrite length_app.
        split; [lia | left; split; [done | by left]]. }
    destruct (ComponentConfig.masking childConfig) as [masking|]; unfold_M.
    + destruct (for_of _ masking _) as [s1 [[]|]] eqn:Hloop; simpl in Hrun;
        injection Hrun as <- <-;
        apply (for_of_invariant _
                 (λ s, s.1 = this ∧
                       length s.2 = length (alter (_setupCommonParams
                                        (ComponentConfig.common childConfig))
                                        (length σ) (σ ++ [engine_object (Num 0) (Num 0)]))))
          in Hloop as [Hthis Hlen];
        try (intros ???? _; apply setMask_frame); try done;
        rewrite length_alter, length_app in Hlen; simpl in *.
      * split; [lia|]. right. exists (length σ), false.
        rewrite Hthis. repeat split; lia.
      * split; [lia | left; split; [done | by left]].
    + injection Hrun as <- <-. apply Hsimple.
  - unfold_M. injection Hrun as <- <-. split; [done|]. left. split; [done|]. right.
    intros Hknown. unfold known_type in Hknown.
    repeat (apply elem_of_cons in Hknown as [?|Hknown]; [done|]).
    by apply elem_of_nil in Hknown.
Qed.

Lemma parseConfig_spec config children this (σ : heap) s' c :
  Forall (λ childConfig, fresh_clip (ComponentClip.new childConfig)) children →
  wf_clip config (this, σ) →
  for_of (λ childConfig,
            ComponentClip._createChildFromConfig (ComponentClip.new childConfig) childConfig)
         children (this, σ) = (s', c) →
  (length σ ≤ length s'.2)%nat ∧
  ComponentClip.self s'.1 = ComponentClip.self this ∧
  wf_clip config s'.
Proof.
  intros Hchildren Hwf Hrun.
  eapply (for_of_invariant _
            (λ s, (length σ ≤ length s.2)%nat ∧
                  ComponentClip.self s.1 = ComponentClip.self this ∧
                  wf_clip config s)); [| |exact Hrun]; [|done].
  intros childConfig [this1 σ1] [this2 σ2] c1 Hin (Hlen & Hself & Hwf1) Hbody.
  apply _createChildFromConfig_spec in Hbody as [Hlen2 Hreg].
  2:{ rewrite Forall_forall in Hchildren. by apply Hchildren. }
  simpl in *. split; [lia|].
  destruct Hreg as [[-> _]|(child & b & Hge & Hlt & ->)].
  - split; [done|]. by apply (wf_clip_heap _ _ σ1).
  - split; [done|]. by apply (wf_clip_register _ _ σ1).
Qed.

Lemma new_unfold config σ :
  ComponentClip.new config σ =
  match
    for_of (λ childConfig,
              ComponentClip._createChildFromConfig (ComponentClip.new childConfig) childConfig)
           (ComponentConfig.children config)
           (ComponentClip.mk (length σ) config (ComponentConfig.key config)
              (StateManager.new config) ∅ [] [],
            σ ++ [engine_object (Num 0) (Num 0)])
  with
  | ((this', σ'), Normal _) => (σ', Normal this')
  | ((_, σ'), Throw) => (σ', Throw)
  end.
Proof. by destruct config. Qed.

Lemma wf_clip_initial config σ :
  wf_clip config
    (ComponentClip.mk (length σ) config (ComponentConfig.key config)
       (StateManager.new config) ∅ [] [],
     σ ++ [engine_object (Num 0) (Num 0)]).
Proof.
  split; simpl; try done. apply wf_manager_new.
Qed.

(** Construction either throws or yields a well-formed world. *)
Lemma new_spec config σ σ' c :
  ComponentClip.new config σ = (σ', c) →
  length σ < length σ' ∧
  ∀ clip, c = Normal clip → ComponentClip.self clip = length σ ∧ wf_clip config (clip, σ').
Proof.
  revert σ σ' c.
  induction config as [type childId key children states masking common textStyle vertices IH]
    using ComponentConfig_ind.
  intros σ σ' c. rewrite new_unfold.
  set (config := ComponentConfig.mk type childId key children states masking common
                   textStyle vertices).
  destruct (for_of _ _ _) as [[this' σ1] c1] eqn:Hloop.
  apply (parseConfig_spec config) in Hloop as (Hlen & Hself & Hwf).
  - simpl in *. rewrite length_app in Hlen. simpl in Hlen.
    destruct c1 as [[]|]; intros [= <- <-]; (split; [lia|]); [|done].
    by intros clip [= <-].
  - simpl. eapply Forall_impl; [exact IH|]. intros childConfig Hchild σ2 σ3 c2 Hnew.
    destruct (Hchild _ _ _ Hnew) as [Hlt Hclip]. split; [done|].
    intros clip ->. by destruct (Hclip clip eq_refl).
  - apply wf_clip_initial.
Qed.

Lemma new_fresh_clip config : fresh_clip (ComponentClip.new config).
Proof.
  intros σ σ' c Hnew. destruct (new_spec _ _ _ _ Hnew) as [Hlt Hclip].
  split; [done|]. intros clip ->. by destruct (Hclip clip eq_refl).
Qed.

(** No state is active in a freshly constructed clip. *)
Lemma new_no_state config σ0 σ clip :
  ComponentClip.new config σ0 = (σ, Normal clip) →
  _currentState (ComponentClip._stateManager clip) = None.
Proof.
  rewrite new_unfold. destruct (for_of _ _ _) as [[this' σ1] c1] eqn:Hloop.
  apply (for_of_invariant _ (λ s, _currentState (ComponentClip._stateManager s.1) = None))
    in Hloop.
  - destruct c1 as [[]|]; [|done]. by intros [= <- <-].
  - intros childConfig [this1 σ1'] [this2 σ2] c2 _ Hnone Hbody.
    apply _createChildFromConfig_spec in Hbody as [_ Hreg]; [|apply new_fresh_clip].
    simpl in *. destruct Hreg as [[-> _]|(child & b & _ & _ & ->)]; [done|]. simpl.
    by destruct (addComponent_static child (ComponentConfig.childId childConfig)
                   (ComponentConfig.key childConfig) (ComponentClip._stateManager this1))
      as (_ & _ & -> & _).
  - simpl. by rewrite new_fields.
Qed.

(** The manager of a constructed clip is the manager of its config after
    one registration per child built, in the order of
    [childComponentClips]. *)
Lemma new_registered config σ0 σ clip :
  ComponentClip.new config σ0 = (σ, Normal clip) →
  ∃ regs, ComponentClip._stateManager clip = registered config regs ∧
          ComponentClip.childComponentClips clip = map (λ r, r.1.1) regs.
Proof.
  rewrite new_unfold. destruct (for_of _ _ _) as [[this' σ1] c1] eqn:Hloop.
  apply (for_of_invariant _
           (λ s, ∃ regs, ComponentClip._stateManager s.1 = registered config regs ∧
                         ComponentClip.childComponentClips s.1 = map (λ r, r.1.1) regs))
    in Hloop.
  - destruct c1 as [[]|]; [|done]. by intros [= <- <-].
  - intros childConfig [this1 σ1'] [this2 σ2] c2 _ (regs & Hsm & Hclips) Hbody.
    apply _createChildFromConfig_spec in Hbody as [_ Hreg]; [|apply new_fresh_clip].
    simpl in *. destruct Hreg as [[-> _]|(child & b & _ & _ & ->)]; [by exists regs|].
    exists (regs ++ [(child, ComponentConfig.childId childConfig,
                      ComponentConfig.key childConfig)]).
    simpl. rewrite Hsm, Hclips, map_app. split; [|done].
    unfold registered. by rewrite foldl_snoc.
  - by exists [].
Qed.

Lemma addComponent_components_mono component childId childKey sm id :
  is_Some (_components sm !! id) →
  is_Some (_components (addComponent component childId childKey sm) !! id).
Proof.
  intros Hid. unfold addComponent. case_decide; [by destruct childKey|]. simpl.
  apply lookup_insert_is_Some. destruct (decide (prop_name childId = id)); [by left | by right].
Qed.

Lemma addComponent_registers component id childKey sm :
  id ∈ _dynamicChildrenIds sm →
  is_Some (_components (addComponent component (Some id) childKey sm) !! id).
Proof.
  intros Hid. unfold addComponent. rewrite decide_False.
  - simpl. rewrite lookup_insert_eq. by eexists.
  - intros Habs. by apply (proj1 (indexOf_absent _ (Some id)) Habs id).
Qed.

(** Every child of a known type whose childId some state lists is
    registered as a dynamic component by the constructor. *)
Lemma new_registers config σ0 σ clip childConfig id :
  ComponentClip.new config σ0 = (σ, Normal clip) →
  childConfig ∈ ComponentConfig.children config →
  known_type (ComponentConfig.type childConfig) →
  ComponentConfig.childId childConfig = Some id →
  declared config id →
  is_Some (_components (ComponentClip._stateManager clip) !! id).
Proof.
  rewrite new_unfold. destruct (for_of _ _ _) as [[this' σ1] c1] eqn:Hloop.
  destruct c1 as [[]|]; [|done]. intros [= <- <-] Hin Hknown Hid Hdecl.
  apply elem_of_dynamicChildrenIds in Hdecl.
  pose (P := λ s : ComponentClip.t * heap,
          _dynamicChildrenIds (ComponentClip._stateManager s.1)
          = _dynamicChildrenIds (StateManager.new config)).
  pose (R := λ (c : ComponentConfig.t) (s : ComponentClip.t * heap),
          known_type (ComponentConfig.type c) →
          ∀ id, ComponentConfig.childId c = Some id →
                id ∈ _dynamicChildrenIds (StateManager.new config) →
                is_Some (_components (ComponentClip._stateManager s.1) !! id)).
  apply (for_of_established _ P R _ _ _) with (a := childConfig) in Hloop;
    [by apply Hloop | | | | done | done].
  - intros c [this1 σ1'] [this2 σ2] c2 Hs Hbody. unfold P in *.
    apply _createChildFromConfig_spec in Hbody as [_ Hreg]; [|apply new_fresh_clip].
    simpl in *. destruct Hreg as [[-> _]|(child & b & _ & _ & ->)]; [done|]. simpl.
    by destruct (addComponent_static child (ComponentConfig.childId c)
                   (ComponentConfig.key c) (ComponentClip._stateManager this1)) as (-> & _).
  - intros c [this1 σ1'] [this2 σ2] Hs Hbody Hk id' Hid' Hdyn. unfold P in *.
    apply _createChildFromConfig_spec in Hbody as [_ Hreg]; [|apply new_fresh_clip].
    simpl in *. destruct Hreg as [[_ [?|?]]|(child & b & _ & _ & ->)]; [done..|].
    simpl. rewrite Hid'. apply addComponent_registers. by rewrite Hs.
  - intros c c' [this1 σ1'] [this2 σ2] c2 Hs HR Hbody Hk id' Hid' Hdyn.
    apply _createChildFromConfig_spec in Hbody as [_ Hreg]; [|apply new_fresh_clip].
    simpl in *. destruct Hreg as [[-> _]|(child & b & _ & _ & ->)]; [by apply HR|].
    simpl. apply addComponent_components_mono. by apply HR.
Qed.

(** ** Reachable worlds are well formed *)

Lemma reachable_wf config w : reachable config w → wf_clip config w.
Proof.
  intros (σ0 & clip & σ & Hnew & Hsteps).
  apply new_spec in Hnew as [_ Hclip]. destruct (Hclip clip eq_refl) as [_ Hwf].
  clear Hclip. induction Hsteps as [|w1 w2 w3 Hstep _ IH]; [done|].
  apply IH. by apply (wf_clip_step _ w1).
Qed.

Lemma reachable_step config w w' : reachable config w → step w w' → reachable config w'.
Proof.
  intros (σ0 & clip & σ & Hnew & Hsteps) Hstep. exists σ0, clip, σ. split; [done|].
  by eapply rtc_r.
Qed.

(** The methods of a clip never change which children are registered. *)
Lemma step_components w w' :
  step w w' →
  _components (ComponentClip._stateManager w'.1)
  = _components (ComponentClip._stateManager w.1).
Proof.
  intros [stateId force [clip σ]|childId params [clip σ]|key [clip σ]|l o [clip σ]|o [clip σ]];
    simpl; try done.
  - unfold ComponentClip.setState, ComponentClip.on_stateManager. simpl.
    destruct (setState stateId force _) as [[sm' σ'] c] eqn:Hrun. simpl.
    apply setState_frame in Hrun as (Hcase & _). simpl in Hcase.
    by destruct Hcase as [->|(state & _ & ->)].
  - unfold ComponentClip.applyChildParams. unfold_M.
    by destruct (ComponentClip._childrenById clip !! childId).
  - unfold ComponentClip.getChildClip, ComponentClip.on_stateManager,
      getActiveComponentByKey. unfold_M.
    destruct (_residentComponentsByKey _ !! key); simpl; [done|].
    by destruct (_currentState _).
Qed.

(** In a world reached from a config whose every listed childId belongs
    to a child of a known type, every listed childId is registered. *)
Lemma reachable_registered config w :
  reachable config w →
  (∀ id, declared config id →
         ∃ childConfig, childConfig ∈ ComponentConfig.children config ∧
                        known_type (ComponentConfig.type childConfig) ∧
                        ComponentConfig.childId childConfig = Some id) →
  ∀ id, declared config id → is_Some (_components (ComponentClip._stateManager w.1) !! id).
Proof.
  intros (σ0 & clip & σ & Hnew & Hsteps) Hchildren id Hid.
  destruct (Hchildren id Hid) as (childConfig & Hin & Hknown & Hcid).
  pose proof (new_registers _ _ _ _ _ _ Hnew Hin Hknown Hcid Hid) as Hreg.
  clear Hnew. change clip with (clip, σ).1 in Hreg.
  induction Hsteps as [|w1 w2 w3 Hstep _ IH]; [done|].
  apply IH. by rewrite (step_components _ _ Hstep).
Qed.

(** A transition that completes normally has shown the target state's
    children and hidden the other dynamic ones. *)
Lemma setState_applies sm σ stateId force state s' :
  wf_manager sm σ →
  _states sm !! stateId = Some state →
  (_currentStateId sm = Some stateId → force = true) →
  setState stateId force (sm, σ) = (s', Normal ()) →
  s'.1 = set_current stateId state sm ∧ shown sm state σ s'.2 ∧ hidden sm state σ s'.2.
Proof.
  intros Hwf Hst Hforce Hrun. rewrite (setState_transition _ _ _ _ state) in Hrun by done.
  set (sm1 := set_current stateId state sm) in *.
  assert (wf_manager sm1 σ) as Hwf1 by by apply wf_manager_set_current.
  destruct (wf_states _ _ Hwf _ _ Hst) as [Hkeys Hsub].
  pose proof (setupState_normal_registered sm1 state σ s' eq_refl Hrun) as Hreg.
  destruct (setupState_registered sm1 state σ eq_refl Hkeys Hreg Hsub) as (σ' & Hrun' & Hlook).
  rewrite Hrun' in Hrun. injection Hrun as <-. simpl. split; [done|].
  by apply (setupState_effect sm1 state σ σ').
Qed.

(** With every dynamic id registered, [setState] completes normally. *)
Lemma setState_normal sm σ stateId force :
  wf_manager sm σ →
  (∀ id, id ∈ _dynamicChildrenIds sm → is_Some (_components sm !! id)) →
  ∃ s', setState stateId force (sm, σ) = (s', Normal ()).
Proof.
  intros Hwf Hreg.
  destruct (setState_cases sm σ stateId force) as [Heq|(state & Hst & Heq)];
    rewrite Heq; [by eexists|].
  destruct (wf_states _ _ Hwf _ _ Hst) as [Hkeys Hsub].
  destruct (setupState_registered (set_current stateId state sm) state σ
              eq_refl Hkeys Hreg Hsub) as (σ' & Hrun & _).
  by eexists.
Qed.

(** ** Lookup *)

Lemma scan_defined sm σ key ids :
  wf_manager sm σ → scan sm key ids ≠ Undefined.
Proof.
  intros Hwf. induction ids as [|id ids IH]; simpl; [done|].
  case_decide as Hk; [|done].
  destruct (wf_componentKeys _ _ Hwf _ _ Hk) as [l ->]. done.
Qed.

Lemma getActiveComponentByKey_resident sm σ key r :
  _residentComponentsByKey sm !! key = Some r →
  getActiveComponentByKey key (sm, σ) = ((sm, σ), Normal (Object r)).
Proof. intros Hr. unfold getActiveComponentByKey. unfold_M. by rewrite Hr. Qed.

Lemma getActiveComponentByKey_normal sm σ key :
  ∃ r, getActiveComponentByKey key (sm, σ) = ((sm, σ), Normal r) ∧
       (wf_manager sm σ → r ≠ Undefined).
Proof.
  unfold getActiveComponentByKey. unfold_M.
  destruct (_residentComponentsByKey sm !! key); simpl; [by eexists|].
  destruct (_currentState sm); simpl; eexists; (split; [done|]); [|done].
  intros Hwf. by eapply scan_defined.
Qed.

(** ** Registrations *)

Lemma registered_foldl regs sm0 :
  let sm := foldl (λ sm '(component, childId, childKey),
                     addComponent component childId childKey sm) sm0 regs in
  _dynamicChildrenIds sm = _dynamicChildrenIds sm0 ∧
  (∀ id, is_Some (_components sm !! id) ↔
         is_Some (_components sm0 !! id) ∨
         (id ∈ _dynamicChildrenIds sm0 ∧ ∃ component childKey,
             (component, Some id, childKey) ∈ regs)) ∧
  (∀ key, is_Some (_residentComponentsByKey sm0 !! key) ∨
          (∃ component childId, (component, childId, Some key) ∈ regs ∧
             indexOf (_dynamicChildrenIds sm0) childId = (-1)%Z) →
          is_Some (_residentComponentsByKey sm !! key)).
Proof.
  revert sm0. induction regs as [|[[component childId] childKey] regs IH]; intros sm0; simpl.
  - split; [done|]. split.
    + intros id. split; [by left|]. intros [?|(_ & ? & ? & Hin)]; [done|].
      by apply elem_of_nil in Hin.
    + intros key [?|(? & ? & Hin & _)]; [done | by apply elem_of_nil in Hin].
  - destruct (IH (addComponent component childId childKey sm0)) as (Hdyn & Hcomp & Hres).
    destruct (addComponent_static component childId childKey sm0) as (Hdyn0 & _).
    rewrite Hdyn0 in *. split; [done|]. split.
    + intros id. rewrite Hcomp. clear Hcomp Hres IH. unfold addComponent.
      case_decide as Hidx.
      * assert (_components (match childKey with
                             | Some k => _ | None => sm0 end) = _components sm0) as ->
          by by destruct childKey.
        split; (intros [?|(Hid & c & k & Hin)]; [by left|right]); (split; [done|]).
        -- exists c, k. by right.
        -- apply elem_of_cons in Hin as [[= -> <- ->]|Hin]; [|by exists c, k].
           by apply (indexOf_absent _ (Some id)) in Hid.
      * apply indexOf_present in Hidx as (id0 & -> & Hid0). simpl.
        rewrite lookup_insert_is_Some. split.
        -- intros [[<-|[_ ?]]|(Hid & c & k & Hin)].
           ++ right. split; [done|]. exists component, childKey. by left.
           ++ by left.
           ++ right. split; [done|]. exists c, k. by right.
        -- intros [?|(Hid & c & k & Hin)].
           ++ left. destruct (decide (id0 = id)); [by left | by right].
           ++ apply elem_of_cons in Hin as [[= -> <- ->]|Hin]; [left; by left|].
              right. split; [done|]. by exists c, k.
    + intros key Hkey. apply Hres. clear Hcomp Hres IH.
      destruct Hkey as [Hold|(c & cid & Hin & Hidx)].
      * left. unfold addComponent. case_decide; [|done].
        destruct childKey as [k|]; [|done]. simpl. apply lookup_insert_is_Some.
        destruct (decide (k = key)); [by left | by right].
      * apply elem_of_cons in Hin as [[= -> -> <-]|Hin].
        -- left. unfold addComponent. rewrite decide_True by done. simpl.
           rewrite lookup_insert_eq. by eexists.
        -- right. by exists c, cid.
Qed.

(** * The worked configuration *)

Lemma example_new :
  ComponentClip.new example_config [] = (example_heap, Normal example_clip).
Proof. vm_compute. reflexivity. Qed.

Lemma example_reachable : reachable example_config (example_clip, example_heap).
Proof. exists [], example_clip, example_heap. split; [apply example_new | apply rtc_refl]. Qed.

Lemma example_reachable_A : reachable example_config (example_clip_A, example_heap_A).
Proof.
  apply (reachable_step _ (example_clip, example_heap)); [apply example_reachable|].
  apply (step_setState "A" false (example_clip, example_heap)).
Qed.

Lemma example_zero_new :
  ComponentClip.new example_zero_config [] = (example_heap, Normal example_zero_clip).
Proof. vm_compute. reflexivity. Qed.

Lemma example_zero_reachable : reachable example_zero_config (example_zero_clip, example_heap).
Proof.
  exists [], example_zero_clip, example_heap. split; [apply example_zero_new | apply rtc_refl].
Qed.

(** Defaulting: the empty partial transform yields the defaults, and
    [{x: 5, alpha: 0.5}] overrides those two fields. *)
Example example_defaulting (component : GameObject.t) :
  _setupCommonParams StateConfig.empty component
  = GameObject.mk (Num 0) (Num 0) (Num 1) (Num 1) (Num 0) (Num 1)
      (GameObject.visible component) (GameObject.mask component) ∧
  _setupCommonParams
    (StateConfig.mk (Some (Num 5)) None None None None (Some (Num 0.5))) component
  = GameObject.mk (Num 5) (Num 0) (Num 1) (Num 1) (Num 0) (Num 0.5)
      (GameObject.visible component) (GameObject.mask component).
Proof. by split. Qed.

(** The scenario of two exclusive states: after [setState("A")], [c1] is
    visible at [x = 10] and [c2] is hidden; after [setState("B")], [c1] is
    hidden and [c2] is visible at [x = 20], [y = 0]. *)
Example example_exclusive_visibility :
  let wA := (ComponentClip.setState "A" false (example_clip, example_heap)).1 in
  let wB := (ComponentClip.setState "B" false wA).1 in
  (GameObject.visible <$> wA.2 !! 1 = Some true ∧
   GameObject.x <$> wA.2 !! 1 = Some (Num 10) ∧
   GameObject.visible <$> wA.2 !! 2 = Some false) ∧
  (GameObject.visible <$> wB.2 !! 1 = Some false ∧
   GameObject.visible <$> wB.2 !! 2 = Some true ∧
   GameObject.x <$> wB.2 !! 2 = Some (Num 20) ∧
   GameObject.y <$> wB.2 !! 2 = Some (Num 0)).
Proof. vm_compute. by repeat split. Qed.

(** A state that lists a childId for which no child was built: the
    transition throws, after the manager has recorded the new state. *)
Example example_unregistered_throws :
  let config :=
    ComponentConfig.mk TYPE_COMPONENT None None [example_child TYPE_IMAGE "c1" "btn"]
      [("A", [("c1", StateConfig.empty); ("ghost", StateConfig.empty)])]
      None StateConfig.empty None None in
  ∃ σ clip s',
    ComponentClip.new config [] = (σ, Normal clip) ∧
    setState "A" false (ComponentClip._stateManager clip, σ) = (s', Throw) ∧
    _currentStateId s'.1 = Some "A".
Proof.
  eexists _, _, _. split; [vm_compute; reflexivity|].
  split; vm_compute; reflexivity.
Qed.

(** * The claims *)

(** C1 (the code departs from the claim): applying a partial transform
    that supplies [scaleX = 0] and [scaleY = 0] leaves the handle with
    [scaleX = 1] and [scaleY = 1]: the supplied zero is replaced by the
    default instead of being kept. *)
Theorem C1_zero_scale_replaced_by_default (component : GameObject.t) :
  let config := StateConfig.mk None None (Some (Num 0)) (Some (Num 0)) None None in
  GameObject.scaleX (_setupCommonParams config component) = Num 1 ∧
  GameObject.scaleY (_setupCommonParams config component) = Num 1 ∧
  GameObject.scaleX (_setupCommonParams config component) ≠ Num 0 ∧
  GameObject.scaleY (_setupCommonParams config component) ≠ Num 0.
Proof. by repeat split. Qed.

(** C2 (the code departs from the claim where a state supplies a zero
    scale): take a declared state [S] and a call [setState(S)] that
    performs the transition ([S] is not the active state, or [force]). If
    every dynamic id is registered the call completes normally; and
    whenever it completes normally, [S] is the active state and, in the
    heap the call returns, every id of [S]'s componentIds has its handle
    with [visible = true] and every other dynamic id has its handle with
    [visible = false] and its six transform fields as they were. The
    shown handle holds [S]'s partial transform for its id wherever that
    transform is regular; where it supplies [scaleX = 0] or [scaleY = 0]
    the handle ends with that scale at [1], so that the transform the
    state gives is not the one the handle holds. *)
Theorem C2_setState_visibility_and_fields config clip σ stateId force state :
  reachable config (clip, σ) →
  _states (ComponentClip._stateManager clip) !! stateId = Some state →
  (_currentStateId (ComponentClip._stateManager clip) = Some stateId → force = true) →
  ((∀ id, id ∈ _dynamicChildrenIds (ComponentClip._stateManager clip) →
          is_Some (_components (ComponentClip._stateManager clip) !! id)) →
   ∃ s', setState stateId force (ComponentClip._stateManager clip, σ) = (s', Normal ())) ∧
  (∀ s', setState stateId force (ComponentClip._stateManager clip, σ) = (s', Normal ()) →
     _currentStateId s'.1 = Some stateId ∧ _currentState s'.1 = Some state ∧
     (∀ id, id ∈ State.componentIds state →
        ∃ l o o' params,
          _components (ComponentClip._stateManager clip) !! id = Some l ∧
          σ !! l = Some o ∧ s'.2 !! l = Some o' ∧
          prop (State.config state) id = Some params ∧
          GameObject.visible o' = true ∧
          (regular params → transform_applied params o') ∧
          (∀ q, StateConfig.scaleX params = Some (Num q) → q == 0 →
                GameObject.scaleX o' = Num 1 ∧ ¬ transform_applied params o') ∧
          (∀ q, StateConfig.scaleY params = Some (Num q) → q == 0 →
                GameObject.scaleY o' = Num 1 ∧ ¬ transform_applied params o')) ∧
     (∀ id, id ∈ _dynamicChildrenIds (ComponentClip._stateManager clip) →
            id ∉ State.componentIds state →
        ∃ l o o',
          _components (ComponentClip._stateManager clip) !! id = Some l ∧
          σ !! l = Some o ∧ s'.2 !! l = Some o' ∧
          GameObject.visible o' = false ∧ same_transform o o')).
Proof.
  intros Hreach Hst Hforce.
  apply reachable_wf, wf_stateManager in Hreach. simpl in Hreach. split.
  - intros Hreg. by apply setState_normal.
  - intros s' Hrun.
    destruct (setState_applies _ _ _ _ _ _ Hreach Hst Hforce Hrun) as (-> & Hshown & Hhidden).
    split; [done|]. split; [done|]. split.
    + intros id Hid. destruct (Hshown id Hid) as (l & o & params & Hl & Ho & Hparams & Ho').
      exists l, o, (show_object params o), params. unfold show_object.
      do 5 (split; [done|]). split; [apply _setupCommonParams_applied|].
      split; intros q Hq Hzero.
      * by apply (_setupCommonParams_zero_scaleX params _ q).
      * by apply (_setupCommonParams_zero_scaleY params _ q).
    + intros id Hdyn Hout. destruct (Hhidden id Hdyn Hout) as (l & o & Hl & Ho & Ho').
      exists l, o, (GameObject.set_visible false o). by repeat split.
Qed.

(** On the configuration with the zero scale: [setState("Z")] completes
    normally and leaves [c1] visible at [x = 10] with [scaleX = 1], where
    state [Z] gives [scaleX = 0]. *)
Lemma C2_witness :
  let s' := (setState "Z" false
               (ComponentClip._stateManager example_zero_clip, example_heap)).1 in
  setState "Z" false (ComponentClip._stateManager example_zero_clip, example_heap)
  = (s', Normal ()) ∧
  prop example_state_Z "c1" = Some example_zero_scale ∧
  ∃ o', s'.2 !! 1 = Some o' ∧ GameObject.visible o' = true ∧
        GameObject.scaleX o' = Num 1 ∧ ¬ transform_applied example_zero_scale o'.
Proof.
  intros s'.
  assert (setState "Z" false (ComponentClip._stateManager example_zero_clip, example_heap)
          = (s', Normal ())) as Hrun by (vm_compute; reflexivity).
  split; [exact Hrun|]. split; [reflexivity|].
  destruct (C2_setState_visibility_and_fields example_zero_config example_zero_clip
              example_heap "Z" false (State.new example_state_Z) example_zero_reachable)
    as [_ Hafter].
  - vm_compute. reflexivity.
  - intros H. vm_compute in H. discriminate H.
  - destruct (Hafter s' Hrun) as (_ & _ & Hshown & _).
    destruct (Hshown "c1") as (l & o & o' & params & Hl & _ & Ho' & Hparams & Hvis & _ & Hsx & _).
    + apply elem_of_cons. by left.
    + vm_compute in Hl. injection Hl as <-.
      vm_compute in Hparams. injection Hparams as <-.
      exists o'. split; [exact Ho'|]. split; [exact Hvis|].
      apply (Hsx 0%Q); reflexivity.
Defined.

(** C3: [_dynamicChildrenIds] is the duplicate-free union, in order of
    first appearance, of the key-sets of the declared states, and a
    registered child is stored in the dynamic components map exactly when
    its childId is listed by some declared state; otherwise it is
    resident, and reachable through the resident-by-key map when it has a
    key. *)
Theorem C3_classification config regs component childId childKey :
  (component, childId, childKey) ∈ regs →
  _dynamicChildrenIds (registered config regs)
  = first_appearances (flatten (map (λ e, keys e.2) (ComponentConfig.states config))) ∧
  NoDup (_dynamicChildrenIds (registered config regs)) ∧
  (∀ id, id ∈ _dynamicChildrenIds (registered config regs) ↔ declared config id) ∧
  ((∃ id, childId = Some id ∧ is_Some (_components (registered config regs) !! id))
   ↔ (∃ id, childId = Some id ∧ declared config id)) ∧
  (¬ (∃ id, childId = Some id ∧ declared config id) →
   ∀ key, childKey = Some key →
          is_Some (_residentComponentsByKey (registered config regs) !! key)).
Proof.
  intros Hin. unfold registered.
  destruct (registered_foldl regs (StateManager.new config)) as (Hdyn & Hcomp & Hres).
  simpl in *. rewrite Hdyn. split; [|split; [|split; [|split]]].
  - rewrite new_fields. simpl. apply uniq_first_appearances.
  - rewrite new_fields. simpl. rewrite uniq_first_appearances.
    apply NoDup_first_appearances.
  - apply elem_of_dynamicChildrenIds.
  - split; intros (id & -> & Hid); exists id; (split; [done|]).
    + apply Hcomp in Hid as [Hnew|[Hd _]]; [|by apply elem_of_dynamicChildrenIds].
      rewrite new_fields in Hnew. simpl in Hnew. rewrite lookup_empty in Hnew.
      by destruct Hnew.
    + apply Hcomp. right. split; [by apply elem_of_dynamicChildrenIds|].
      by exists component, childKey.
  - intros Hres' key ->. apply Hres. right. exists component, childId. split; [done|].
    apply indexOf_absent. intros id -> Hid. apply Hres'. exists id.
    split; [done | by apply elem_of_dynamicChildrenIds].
Qed.

(** On the worked configuration: the resident child [r1] among the three
    registrations. *)
Lemma C3_witness :
  let regs := [(1, Some "c1", Some "btn"); (2, Some "c2", Some "icon");
               (3, Some "r1", Some "btn")] in
  _dynamicChildrenIds (registered example_config regs)
  = first_appearances
      (flatten (map (λ e, keys e.2) (ComponentConfig.states example_config))) ∧
  NoDup (_dynamicChildrenIds (registered example_config regs)) ∧
  (∀ id, id ∈ _dynamicChildrenIds (registered example_config regs)
         ↔ declared example_config id) ∧
  ((∃ id, Some "r1" = Some id ∧
          is_Some (_components (registered example_config regs) !! id))
   ↔ (∃ id, Some "r1" = Some id ∧ declared example_config id)) ∧
  (¬ (∃ id, Some "r1" = Some id ∧ declared example_config id) →
   ∀ key, Some "btn" = Some key →
          is_Some (_residentComponentsByKey (registered example_config regs) !! key)).
Proof.
  apply (C3_classification example_config _ 3 (Some "r1") (Some "btn")).
  vm_compute. do 2 right. left.
Defined.

(** C4: [setState] with a stateId that is not a declared state, with any
    [force], completes normally and leaves the manager (active state id
    and active state included) and every game object unchanged. *)
Theorem C4_undeclared_state_is_noop config clip σ stateId force :
  reachable config (clip, σ) →
  stateId ∉ keys (ComponentConfig.states config) →
  setState stateId force (ComponentClip._stateManager clip, σ)
  = ((ComponentClip._stateManager clip, σ), Normal ()).
Proof.
  intros Hreach Hout. apply setState_undeclared.
  pose proof (wf_declared_states _ _ (reachable_wf _ _ Hreach)) as Hst.
  simpl in Hst. rewrite Hst. by apply new_undeclared.
Qed.

(** On the worked configuration: a forced [setState("nonexistent")]. *)
Lemma C4_witness :
  setState "nonexistent" true (ComponentClip._stateManager example_clip, example_heap)
  = ((ComponentClip._stateManager example_clip, example_heap), Normal ()).
Proof.
  apply (C4_undeclared_state_is_noop example_config example_clip example_heap
           "nonexistent" true).
  - exact example_reachable.
  - apply (bool_decide_unpack _). vm_compute. exact I.
Defined.

(** C5: a call of [setState], to any target and with any [force], however
    it completes, leaves the game object of every resident child as it
    was: the child stored under a childId that no state lists, the child
    found under a key of the resident-by-key map, and more generally every
    object that the dynamic components map does not hold. *)
Theorem C5_resident_untouched config clip σ stateId force :
  reachable config (clip, σ) →
  (∀ id l, ComponentClip._childrenById clip !! id = Some l →
           id ∉ _dynamicChildrenIds (ComponentClip._stateManager clip) →
           is_Some (σ !! l) ∧
           (ComponentClip.setState stateId force (clip, σ)).1.2 !! l = σ !! l) ∧
  (∀ key l, _residentComponentsByKey (ComponentClip._stateManager clip) !! key = Some l →
            is_Some (σ !! l) ∧
            (ComponentClip.setState stateId force (clip, σ)).1.2 !! l = σ !! l) ∧
  (∀ l, (∀ id, _components (ComponentClip._stateManager clip) !! id ≠ Some l) →
        (ComponentClip.setState stateId force (clip, σ)).1.2 !! l = σ !! l).
Proof.
  intros Hwf%reachable_wf.
  unfold ComponentClip.setState, ComponentClip.on_stateManager. simpl.
  destruct (setState stateId force _) as [[sm' σ'] c] eqn:Hrun. simpl.
  apply setState_frame in Hrun as (_ & _ & Hframe). simpl in Hframe.
  split; [|split; [|exact Hframe]].
  - intros id l Hl Hres. split.
    + apply lookup_lt_is_Some_2. by apply (wf_children_valid _ _ Hwf id).
    + apply Hframe. intros id' Hl'.
      pose proof (wf_children_components _ _ Hwf id id' l Hl Hl') as <-.
      apply Hres. by apply (wf_components_dynamic _ _ (wf_stateManager _ _ Hwf) id l).
  - intros key l Hl.
    destruct (wf_resident _ _ (wf_stateManager _ _ Hwf) key l Hl) as [Hvalid Hno].
    split; [by apply lookup_lt_is_Some_2 | by apply Hframe].
Qed.

(** On the worked configuration: [setState("A")] leaves [r1], object 3,
    as it was. *)
Lemma C5_witness :
  is_Some (example_heap !! 3) ∧
  (ComponentClip.setState "A" false (example_clip, example_heap)).1.2 !! 3
  = example_heap !! 3.
Proof.
  apply (proj1 (C5_resident_untouched example_config example_clip example_heap "A" false
                  example_reachable) "r1" 3).
  - vm_compute. reflexivity.
  - apply (bool_decide_unpack _). vm_compute. exact I.
Defined.

(** C6: [setState] with the active state id and [force = false] is a
    no-op, so that a second [setState(A)] after a first one changes
    nothing; with [force = true] the apply routine runs again although the
    state is already active. *)
Theorem C6_reentry config clip σ stateId :
  reachable config (clip, σ) →
  (_currentStateId (ComponentClip._stateManager clip) = Some stateId →
   setState stateId false (ComponentClip._stateManager clip, σ)
   = ((ComponentClip._stateManager clip, σ), Normal ())) ∧
  (∀ s1 c1, setState stateId false (ComponentClip._stateManager clip, σ) = (s1, c1) →
            setState stateId false s1 = (s1, Normal ())) ∧
  (∀ state, _currentStateId (ComponentClip._stateManager clip) = Some stateId →
     _states (ComponentClip._stateManager clip) !! stateId = Some state →
     setState stateId true (ComponentClip._stateManager clip, σ)
     = setupState (ComponentClip._stateManager clip, σ) ∧
     ∀ s', setState stateId true (ComponentClip._stateManager clip, σ) = (s', Normal ()) →
           shown (ComponentClip._stateManager clip) state σ s'.2 ∧
           hidden (ComponentClip._stateManager clip) state σ s'.2).
Proof.
  intros Hwf%reachable_wf%wf_stateManager. simpl in Hwf.
  set (sm := ComponentClip._stateManager clip) in *.
  split; [apply setState_same|]. split.
  - intros [sm1 σ1] c1 Hrun.
    destruct (setState_cases sm σ stateId false) as [Heq|(state & Hst & Heq)];
      rewrite Heq in Hrun.
    + injection Hrun as <- <- _.
      destruct (_states sm !! stateId) as [state|] eqn:Hst;
        [|by apply setState_undeclared].
      destruct (decide (_currentStateId sm = Some stateId)) as [Hcur|Hcur];
        [by apply setState_same|].
      rewrite (setState_transition _ _ _ _ state) in Heq by done.
      apply setupState_frame in Heq as [Heq _]. simpl in Heq.
      apply (f_equal _currentStateId) in Heq. simpl in Heq. congruence.
    + apply setupState_frame in Hrun as [Hsm _]. simpl in Hsm. subst sm1.
      by apply setState_same.
  - intros state Hcur Hst.
    assert (set_current stateId state sm = sm) as Hsame.
    { pose proof (wf_current _ _ Hwf) as Hc. rewrite Hcur, Hst in Hc.
      destruct Hc as [_ Hc]. destruct sm. simpl in *. by subst. }
    split.
    + rewrite (setState_transition _ _ _ _ state) by done. by rewrite Hsame.
    + intros s' Hrun. by destruct (setState_applies _ _ _ _ _ _ Hwf Hst (λ _, eq_refl) Hrun)
        as (_ & ? & ?).
Qed.

(** On the worked configuration: a second [setState("A")]. *)
Lemma C6_witness :
  setState "A" false (ComponentClip._stateManager example_clip_A, example_heap_A)
  = ((ComponentClip._stateManager example_clip_A, example_heap_A), Normal ()).
Proof.
  apply (C6_reentry example_config example_clip_A example_heap_A "A").
  - exact example_reachable_A.
  - vm_compute. reflexivity.
Defined.

(** C7: when a key is registered for a resident child and also for a
    dynamic child that belongs to the active state,
    [getActiveComponentByKey] returns the resident handle, and that handle
    is not the dynamic child's. *)
Theorem C7_resident_key_first config clip σ key r state d h :
  reachable config (clip, σ) →
  _residentComponentsByKey (ComponentClip._stateManager clip) !! key = Some r →
  _currentState (ComponentClip._stateManager clip) = Some state →
  d ∈ State.componentIds state →
  _componentKeys (ComponentClip._stateManager clip) !! d = Some key →
  _components (ComponentClip._stateManager clip) !! d = Some h →
  getActiveComponentByKey key (ComponentClip._stateManager clip, σ)
  = ((ComponentClip._stateManager clip, σ), Normal (Object r)) ∧ r ≠ h.
Proof.
  intros Hwf%reachable_wf%wf_stateManager Hr _ _ _ Hh. simpl in Hwf.
  split; [by apply getActiveComponentByKey_resident|].
  intros ->. by destruct (wf_resident _ _ Hwf _ _ Hr) as [_ Hno]; destruct (Hno d).
Qed.

(** On the worked configuration, state [A] active: the key ["btn"] of the
    resident [r1] (object 3) and of the dynamic [c1] (object 1). *)
Lemma C7_witness :
  getActiveComponentByKey "btn" (ComponentClip._stateManager example_clip_A, example_heap_A)
  = ((ComponentClip._stateManager example_clip_A, example_heap_A), Normal (Object 3)) ∧
  3 ≠ 1.
Proof.
  apply (C7_resident_key_first example_config example_clip_A example_heap_A "btn" 3
           (State.new example_state_A) "c1" 1).
  - exact example_reachable_A.
  - vm_compute. reflexivity.
  - vm_compute. reflexivity.
  - vm_compute. left.
  - vm_compute. reflexivity.
  - vm_compute. reflexivity.
Defined.

(** C8: a freshly constructed clip has no active state; while no state is
    active, [getActiveComponentByKey] returns [null] for every key that
    the resident-by-key map lacks (a key registered for dynamic children
    only), and it returns the resident handle for every key of that map,
    whether or not a state is active. *)
Theorem C8_lookup_without_state config clip σ key :
  reachable config (clip, σ) →
  (∀ σ0 clip0 σ1, ComponentClip.new config σ0 = (σ1, Normal clip0) →
                  _currentState (ComponentClip._stateManager clip0) = None) ∧
  (_currentState (ComponentClip._stateManager clip) = None →
   _residentComponentsByKey (ComponentClip._stateManager clip) !! key = None →
   getActiveComponentByKey key (ComponentClip._stateManager clip, σ)
   = ((ComponentClip._stateManager clip, σ), Normal Null)) ∧
  (∀ r, _residentComponentsByKey (ComponentClip._stateManager clip) !! key = Some r →
        getActiveComponentByKey key (ComponentClip._stateManager clip, σ)
        = ((ComponentClip._stateManager clip, σ), Normal (Object r))).
Proof.
  intros _. split; [intros σ0 clip0 σ1; apply new_no_state|]. split.
  - intros Hnone Hres. unfold getActiveComponentByKey. unfold_M. by rewrite Hres, Hnone.
  - intros r. apply getActiveComponentByKey_resident.
Qed.

(** On the worked configuration, no state active: the key ["icon"] of the
    dynamic [c2]. *)
Lemma C8_witness :
  getActiveComponentByKey "icon" (ComponentClip._stateManager example_clip, example_heap)
  = ((ComponentClip._stateManager example_clip, example_heap), Normal Null).
Proof.
  apply (C8_lookup_without_state example_config example_clip example_heap "icon").
  - exact example_reachable.
  - vm_compute. reflexivity.
  - vm_compute. reflexivity.
Defined.

(** C9: [getActiveComponentByKey] completes normally for every key, with
    [null] or a handle; when every childId listed by a declared state is
    registered as a dynamic component, [setState] completes normally for
    every stateId and [force]; a forced transition to a declared state
    completes normally only under that condition; and the condition holds
    when every listed childId is the childId of a child of a known type. *)
Theorem C9_no_errors config clip σ :
  reachable config (clip, σ) →
  (∀ key, ∃ r, getActiveComponentByKey key (ComponentClip._stateManager clip, σ)
               = ((ComponentClip._stateManager clip, σ), Normal r) ∧ r ≠ Undefined) ∧
  ((∀ id, declared config id →
          is_Some (_components (ComponentClip._stateManager clip) !! id)) →
   ∀ stateId force, ∃ s',
     setState stateId force (ComponentClip._stateManager clip, σ) = (s', Normal ())) ∧
  (∀ stateId state s',
     _states (ComponentClip._stateManager clip) !! stateId = Some state →
     setState stateId true (ComponentClip._stateManager clip, σ) = (s', Normal ()) →
     ∀ id, declared config id →
           is_Some (_components (ComponentClip._stateManager clip) !! id)) ∧
  ((∀ id, declared config id →
          ∃ childConfig, childConfig ∈ ComponentConfig.children config ∧
                         known_type (ComponentConfig.type childConfig) ∧
                         ComponentConfig.childId childConfig = Some id) →
   ∀ id, declared config id →
         is_Some (_components (ComponentClip._stateManager clip) !! id)).
Proof.
  intros Hreach. pose proof (reachable_wf _ _ Hreach) as Hwf.
  pose proof (wf_stateManager _ _ Hwf) as Hsm.
  pose proof (wf_dynamicChildrenIds _ _ Hwf) as Hdyn. simpl in *.
  split; [|split; [|split]].
  - intros key. destruct (getActiveComponentByKey_normal
                            (ComponentClip._stateManager clip) σ key) as (r & Hr & Hdef).
    exists r. split; [done | by apply Hdef].
  - intros Hreg stateId force. apply setState_normal; [done|].
    intros id Hid. apply Hreg. apply elem_of_dynamicChildrenIds. by rewrite <- Hdyn.
  - intros stateId state s' Hst Hrun id Hid.
    rewrite (setState_transition _ _ _ _ state) in Hrun by done.
    pose proof (setupState_normal_registered
                  (set_current stateId state (ComponentClip._stateManager clip))
                  state σ s' eq_refl Hrun) as Hreg.
    apply (Hreg id). simpl. rewrite Hdyn. by apply elem_of_dynamicChildrenIds.
  - intros Hchildren. by apply (reachable_registered config (clip, σ)).
Qed.

(** On the worked configuration, where every listed childId has a child:
    a forced [setState("B")]. *)
Lemma C9_witness :
  ∃ s', setState "B" true (ComponentClip._stateManager example_clip, example_heap)
        = (s', Normal ()).
Proof.
  destruct (C9_no_errors example_config example_clip example_heap example_reachable)
    as (_ & Hnormal & _).
  apply Hnormal.
  intros id (stateId & stateConfig & Hin & Hid).
  vm_compute in Hin.
  apply elem_of_cons in Hin as [Heq|Hin].
  - injection Heq as -> ->. vm_compute in Hid.
    apply elem_of_cons in Hid as [->|Hid]; [vm_compute; by eexists|].
    by apply elem_of_nil in Hid.
  - apply elem_of_cons in Hin as [Heq|Hin]; [|by apply elem_of_nil in Hin].
    injection Heq as -> ->. vm_compute in Hid.
    apply elem_of_cons in Hid as [->|Hid]; [vm_compute; by eexists|].
    by apply elem_of_nil in Hid.
Defined.

(** C10 (the code departs from the claim where the params supply a zero
    scale): [applyChildParams] with a childId that the children-by-id map
    lacks completes normally and changes nothing. With a childId of that
    map it completes normally, whatever the child's visibility and the
    active state, and writes to that child's game object only: the clip,
    every other object, the child's visibility and its mask stay as they
    were. The child holds the partial transform wherever that transform
    is regular; where it supplies [scaleX = 0] or [scaleY = 0] the child
    ends with that scale at [1], so that the transform given is not the
    one the child holds. *)
Theorem C10_applyChildParams_fields config clip σ childId params :
  reachable config (clip, σ) →
  (ComponentClip._childrenById clip !! childId = None →
   ComponentClip.applyChildParams childId params (clip, σ) = ((clip, σ), Normal ())) ∧
  (∀ l, ComponentClip._childrenById clip !! childId = Some l →
     ∃ o o' σ',
       σ !! l = Some o ∧
       ComponentClip.applyChildParams childId params (clip, σ) = ((clip, σ'), Normal ()) ∧
       length σ' = length σ ∧ σ' !! l = Some o' ∧
       (∀ l', l' ≠ l → σ' !! l' = σ !! l') ∧
       GameObject.visible o' = GameObject.visible o ∧
       GameObject.mask o' = GameObject.mask o ∧
       (regular params → transform_applied params o') ∧
       (∀ q, StateConfig.scaleX params = Some (Num q) → q == 0 →
             GameObject.scaleX o' = Num 1 ∧ ¬ transform_applied params o') ∧
       (∀ q, StateConfig.scaleY params = Some (Num q) → q == 0 →
             GameObject.scaleY o' = Num 1 ∧ ¬ transform_applied params o')).
Proof.
  intros Hwf%reachable_wf. unfold ComponentClip.applyChildParams. unfold_M. split.
  - by intros ->.
  - intros l Hl. rewrite Hl. simpl.
    destruct (lookup_lt_is_Some_2 σ l) as [o Ho]; [by apply (wf_children_valid _ _ Hwf childId)|].
    exists o, (_setupCommonParams params o), (alter (_setupCommonParams params) l σ).
    split; [done|]. split; [done|]. split; [by rewrite length_alter|].
    split; [by rewrite list_lookup_alter_eq, Ho|].
    split; [intros l' Hne; by rewrite list_lookup_alter_ne|].
    do 2 (split; [done|]). split; [apply _setupCommonParams_applied|].
    split; intros q Hq Hzero.
    + by apply (_setupCommonParams_zero_scaleX params _ q).
    + by apply (_setupCommonParams_zero_scaleY params _ q).
Qed.

(** On the worked configuration, state [A] active: [{scaleX: 0}] applied
    to the hidden child [c2] leaves it with [scaleX = 1]. *)
Lemma C10_witness :
  ComponentClip._childrenById example_clip_A !! "c2" = Some 2 ∧
  ∃ σ' o',
    ComponentClip.applyChildParams "c2"
      (StateConfig.mk None None (Some (Num 0)) None None None)
      (example_clip_A, example_heap_A)
    = ((example_clip_A, σ'), Normal ()) ∧
    σ' !! 2 = Some o' ∧ GameObject.visible o' = false ∧ GameObject.scaleX o' = Num 1.
Proof.
  assert (ComponentClip._childrenById example_clip_A !! "c2" = Some 2) as Hchild
    by (vm_compute; reflexivity).
  split; [exact Hchild|].
  destruct (C10_applyChildParams_fields example_config example_clip_A example_heap_A "c2"
              (StateConfig.mk None None (Some (Num 0)) None None None) example_reachable_A)
    as [_ Hknown].
  destruct (Hknown 2 Hchild) as (o & o' & σ' & Ho & Hrun & _ & Ho' & _ & Hvis & _ & _ & Hsx & _).
  exists σ', o'. split; [exact Hrun|]. split; [exact Ho'|]. split.
  - rewrite Hvis. vm_compute in Ho. by injection Ho as <-.
  - apply (Hsx 0%Q); reflexivity.
Defined.

(** * Further properties *)

(** ** What construction does to the heap *)

Section construction_invariant.
(** A property of heaps, relative to a first location [n] from which
    construction may write. *)
Context (n : nat) (Q : heap → Prop).
Hypothesis Q_length : ∀ σ, Q σ → (n ≤ length σ)%nat.
Hypothesis Q_create : ∀ σ x y, Q σ → Q (σ ++ [engine_object x y]).
Hypothesis Q_assign : ∀ σ l f,
  Q σ → (n ≤ l)%nat → (∀ o, GameObject.visible (f o) = GameObject.visible o) →
  Q (alter f l σ).

Lemma setMask_kept mask maskedChildId s s' c :
  built_from n Q s → ComponentClip.setMask mask maskedChildId s = (s', c) → built_from n Q s'.
Proof.
  intros [HQ Hch]. destruct s as [this σ]. simpl in *.
  unfold ComponentClip.setMask. unfold_M.
  destruct (ComponentClip._childrenById this !! maskedChildId) as [l|] eqn:Hl; simpl;
    intros [= <- _]; split; simpl; try done.
  apply Q_assign; [done | by eapply Hch | done].
Qed.

Lemma _createChildFromConfig_kept new_child childConfig s s' c :
  fresh_clip new_child →
  (∀ σ, Q σ → Q (new_child σ).1) →
  built_from n Q s →
  ComponentClip._createChildFromConfig new_child childConfig s = (s', c) →
  built_from n Q s'.
Proof.
  intros Hfresh Hnested [HQ Hch] Hrun. destruct s as [this σ]. simpl in *.
  pose proof (Q_length _ HQ) as Hn.
  assert (∀ f b, (∀ o, GameObject.visible (f o) = GameObject.visible o) →
            ∀ x y, built_from n Q
              (ComponentClip.register (length σ) (ComponentConfig.childId childConfig)
                 (ComponentConfig.key childConfig) b this,
               alter f (length σ) (σ ++ [engine_object x y]))) as Hsimple.
  { intros f b Hf x y. split; simpl.
    - apply Q_assign; [by apply Q_create | done | done].
    - intros id l [[_ <-]|[_ Hold]]%lookup_insert_Some; [done | by eapply Hch]. }
  unfold ComponentClip._createChildFromConfig in Hrun.
  unfold mbind at 1, M_bind at 1 in Hrun.
  repeat case_decide.
  - unfold ComponentClip._createImageFromConfig in Hrun. unfold_M.
    injection Hrun as <- <-. by apply Hsimple.
  - unfold ComponentClip._createTextFromConfig in Hrun. unfold_M.
    destruct (ComponentConfig.textStyle childConfig) as [textStyle|]; simpl in Hrun;
      injection Hrun as <- <-; [by apply Hsimple|].
    split; simpl; [by apply Q_create | done].
  - unfold ComponentClip._createTileSpriteFromConfig in Hrun. unfold_M.
    injection Hrun as <- <-. by apply Hsimple.
  - unfold ComponentClip.lift_heap in Hrun. unfold_M.
    pose proof (Hnested σ HQ) as HQ1.
    destruct (new_child σ) as [σ1 [clip|]] eqn:Hnew; simpl in *;
      destruct (Hfresh _ _ _ Hnew) as [Hlt Hself]; injection Hrun as <- <-.
    + rewrite (Hself clip eq_refl). split; simpl.
      * apply Q_assign; [done | lia | done].
      * intros id l [[_ <-]|[_ Hold]]%lookup_insert_Some; [lia | by eapply Hch].
    + by split.
  - unfold ComponentClip._createHitZoneFromConfig in Hrun. unfold_M.
    injection Hrun as <- <-. split; simpl.
    + by apply Q_create.
    + intros id l [[_ <-]|[_ Hold]]%lookup_insert_Some; [done | by eapply Hch].
  - unfold ComponentClip._createPolygonFromConfig in Hrun. unfold_M.
    destruct (ComponentConfig.vertices childConfig) as [vertices|]; simpl in Hrun.
    2:{ injection Hrun as <- <-. split; simpl; [by apply Q_create | done]. }
    destruct (ComponentConfig.masking childConfig) as [masking|]; unfold_M.
    + destruct (for_of _ masking _) as [s1 [[]|]] eqn:Hloop; simpl in Hrun;
        injection Hrun as <- <-;
        pose proof Hloop as Hthis;
        apply (for_of_invariant _ (built_from n Q)) in Hloop as [HQ1 Hch1];
        try (intros ???? _; apply setMask_kept);
        try (split; simpl; [apply Q_assign; [by apply Q_create | done | done] | done]).
      * apply (for_of_invariant _ (λ s, s.1 = this)) in Hthis; [|intros a [t1 σ1] s2 c1 _ Ht|done].
        -- split; simpl; [done|]. rewrite Hthis.
           intros id l [[_ <-]|[_ Hold]]%lookup_insert_Some; [done | by eapply Hch].
        -- simpl in Ht. subst t1. unfold ComponentClip.setMask. unfold_M.
           destruct (ComponentClip._childrenById this !! a); simpl; by intros [= <- _].
      * by split.
    + injection Hrun as <- <-. by apply Hsimple.
  - unfold_M. injection Hrun as <- <-. by split.
Qed.

(** Construction keeps the property. *)
Lemma new_keeps config σ : Q σ → Q (ComponentClip.new config σ).1.
Proof.
  revert σ.
  induction config as [type childId key children states masking common textStyle vertices IH]
    using ComponentConfig_ind.
  intros σ HQ. rewrite new_unfold.
  destruct (for_of _ _ _) as [[this' σ1] c1] eqn:Hloop.
  apply (for_of_invariant _ (built_from n Q)) in Hloop as [HQ1 _].
  - by destruct c1 as [[]|].
  - intros childConfig s1 s2 c2 Hin Hs1 Hbody.
    apply (_createChildFromConfig_kept _ _ _ _ _ (new_fresh_clip childConfig))
      in Hbody; [done| |done].
    rewrite Forall_forall in IH. by apply IH.
  - split; simpl; [by apply Q_create|]. intros id l. by rewrite lookup_empty.
Qed.

End construction_invariant.

(** X1: constructing a clip leaves every game object that existed before
    as it was, however the construction completes: the heap it returns
    starts with the heap it was given. *)
Theorem new_keeps_existing_objects config (σ0 : heap) :
  take (length σ0) (ComponentClip.new config σ0).1 = σ0.
Proof.
  apply (new_keeps (length σ0) (λ σ, take (length σ0) σ = σ0)).
  - intros σ Hσ. apply (f_equal length) in Hσ. rewrite length_take in Hσ. lia.
  - intros σ x y Hσ. rewrite take_app_le; [done|].
    apply (f_equal length) in Hσ. rewrite length_take in Hσ. lia.
  - intros σ l f Hσ Hl _. by rewrite take_alter_ge.
  - by rewrite firstn_all.
Qed.

(** X2: every game object that a construction creates is visible when the
    construction returns, the dynamic children included: nothing hides a
    child before the first [setState]. *)
Theorem new_objects_visible config (σ0 : heap) :
  Forall (λ o, GameObject.visible o = true)
         (drop (length σ0) (ComponentClip.new config σ0).1).
Proof.
  apply (new_keeps (length σ0)
           (λ σ, (length σ0 ≤ length σ)%nat ∧
                 Forall (λ o, GameObject.visible o = true) (drop (length σ0) σ))).
  - by intros σ [? _].
  - intros σ x y [Hlen Hall]. split; [rewrite length_app; lia|].
    rewrite drop_app_le by done. apply Forall_app. split; [done|].
    by repeat constructor.
  - intros σ l f [Hlen Hall] Hl Hf. split; [by rewrite length_alter|].
    rewrite drop_alter_ge by done. apply Forall_alter; [done|].
    intros o _ Ho. by rewrite Hf.
  - split; [done|]. rewrite drop_all. constructor.
Qed.

(** ** The children that construction builds *)

Lemma known_type_iff type :
  known_type type ↔
  type = TYPE_IMAGE ∨ type = TYPE_TEXT ∨ type = TYPE_TILE_SPRITE ∨
  type = TYPE_COMPONENT ∨ type = TYPE_ZONE ∨ type = TYPE_POLYGON.
Proof.
  unfold known_type. rewrite !elem_of_cons.
  pose proof (not_elem_of_nil type). tauto.
Qed.

(** An iteration of [_parseConfig] that completes normally either skips a
    child of unknown type or registers one new object. *)
Lemma _createChildFromConfig_normal new_child childConfig this (σ : heap) s' :
  fresh_clip new_child →
  ComponentClip._createChildFromConfig new_child childConfig (this, σ) = (s', Normal ()) →
  (¬ known_type (ComponentConfig.type childConfig) ∧ s' = (this, σ)) ∨
  (known_type (ComponentConfig.type childConfig) ∧
   ∃ child, (length σ ≤ child)%nat ∧ child < length s'.2 ∧
     s'.1 = ComponentClip.register child (ComponentConfig.childId childConfig)
              (ComponentConfig.key childConfig) (negb (is_mask childConfig)) this).
Proof.
  intros Hfresh Hrun. unfold ComponentClip._createChildFromConfig in Hrun.
  unfold mbind at 1, M_bind at 1 in Hrun.
  assert (∀ f x y,
    ComponentConfig.type childConfig ≠ TYPE_POLYGON ∨
    ComponentConfig.masking childConfig = None →
    ∃ child, (length σ ≤ child)%nat ∧
      child < length (alter f (length σ) (σ ++ [engine_object x y])) ∧
      ComponentClip.register (length σ) (ComponentConfig.childId childConfig)
        (ComponentConfig.key childConfig) true this
      = ComponentClip.register child (ComponentConfig.childId childConfig)
          (ComponentConfig.key childConfig) (negb (is_mask childConfig)) this) as Hsimple.
  { intros f x y Hno. exists (length σ). rewrite length_alter, length_app. simpl.
    split; [lia|]. split; [lia|]. unfold is_mask.
    destruct Hno as [Hno| ->].
    - by rewrite bool_decide_false.
    - rewrite (bool_decide_false (is_Some None)) by (by intros [? ?]).
      by rewrite andb_false_r. }
  repeat case_decide.
  - unfold ComponentClip._createImageFromConfig in Hrun. unfold_M.
    injection Hrun as <-. right. split; [apply known_type_iff; tauto|].
    apply Hsimple. left. by rewrite H.
  - unfold ComponentClip._createTextFromConfig in Hrun. unfold_M.
    destruct (ComponentConfig.textStyle childConfig) as [textStyle|]; simpl in Hrun; [|done].
    injection Hrun as <-. right. split; [apply known_type_iff; tauto|].
    apply Hsimple. left. by rewrite H0.
  - unfold ComponentClip._createTileSpriteFromConfig in Hrun. unfold_M.
    injection Hrun as <-. right. split; [apply known_type_iff; tauto|].
    apply Hsimple. left. by rewrite H1.
  - unfold ComponentClip.lift_heap in Hrun. unfold_M.
    destruct (new_child σ) as [σ1 [clip|]] eqn:Hnew; simpl in Hrun; [|done].
    destruct (Hfresh _ _ _ Hnew) as [Hlt Hself]. injection Hrun as <-. simpl.
    right. split; [apply known_type_iff; tauto|].
    exists (ComponentClip.self clip). rewrite length_alter, (Hself clip eq_refl).
    split; [lia|]. split; [lia|]. unfold is_mask. rewrite bool_decide_false; [done|].
    by rewrite H2.
  - unfold ComponentClip._createHitZoneFromConfig in Hrun. unfold_M.
    injection Hrun as <-. simpl. right. split; [apply known_type_iff; tauto|].
    exists (length σ). rewrite length_app. simpl. split; [lia|]. split; [lia|].
    unfold is_mask. rewrite bool_decide_false; [done|]. by rewrite H3.
  - right. split; [apply known_type_iff; tauto|].
    unfold ComponentClip._createPolygonFromConfig in Hrun. unfold_M.
    destruct (ComponentConfig.vertices childConfig) as [vertices|]; simpl in Hrun; [|done].
    destruct (ComponentConfig.masking childConfig) as [masking|] eqn:Hmasking; unfold_M.
    + destruct (for_of _ masking _) as [s1 [[]|]] eqn:Hloop; simpl in Hrun; [|done].
      injection Hrun as <-.
      apply (for_of_invariant _
               (λ s, s.1 = this ∧
                     length s.2 = length (alter (_setupCommonParams
                                      (ComponentConfig.common childConfig))
                                      (length σ) (σ ++ [engine_object (Num 0) (Num 0)]))))
        in Hloop as [Hthis Hlen];
        [|intros ???? _; apply setMask_frame|done].
      rewrite length_alter, length_app in Hlen. simpl in *.
      exists (length σ). split; [lia|]. split; [lia|]. rewrite Hthis.
      unfold is_mask. rewrite Hmasking, bool_decide_true by done.
      rewrite bool_decide_true; [done | by eexists].
    + injection Hrun as <-. apply Hsimple. by right.
  - unfold_M. injection Hrun as <-. left. split; [|done].
    rewrite known_type_iff. tauto.
Qed.

(** The loop of [_parseConfig], when it completes normally *)
Lemma parse_built children this (σ : heap) s' :
  for_of (λ childConfig,
            ComponentClip._createChildFromConfig (ComponentClip.new childConfig) childConfig)
         children (this, σ) = (s', Normal ()) →
  ∃ locs,
    length locs = length (built_children children) ∧
    (length σ ≤ length s'.2)%nat ∧
    Forall (λ l, (length σ ≤ l)%nat ∧ l < length s'.2) locs ∧
    NoDup locs ∧
    ComponentClip.childComponentClips s'.1 = ComponentClip.childComponentClips this ++ locs ∧
    ComponentClip.container s'.1
    = ComponentClip.container this ++ displayed locs (built_children children) ∧
    ComponentClip._stateManager s'.1
    = register_all (zip_with registration locs (built_children children))
        (ComponentClip._stateManager this) ∧
    ComponentClip._childrenById s'.1
    = record_all (zip_with registration locs (built_children children))
        (ComponentClip._childrenById this).
Proof.
  revert this σ. induction children as [|c children IH]; intros this σ Hrun.
  - unfold_M. injection Hrun as <-. exists []. simpl.
    rewrite !app_nil_r. repeat split; (done || constructor).
  - simpl in Hrun. unfold mbind, M_bind in Hrun.
    destruct (ComponentClip._createChildFromConfig _ c (this, σ)) as [[this1 σ1] [[]|]]
      eqn:Hc; [|done].
    apply _createChildFromConfig_normal in Hc as [[Hunknown [= -> ->]]|(Hknown & child & Hge & Hlt & Hreg)];
      [| |apply new_fresh_clip].
    + unfold built_children. rewrite filter_cons_False by done. by apply IH.
    + simpl in Hlt, Hreg. subst this1.
      destruct (IH _ _ Hrun) as (locs & Hlen & Hsize & Hrange & Hnodup & Hccc & Hcont & Hsm & Hch).
      exists (child :: locs). unfold built_children in *.
      rewrite filter_cons_True by done. simpl.
      split; [by rewrite Hlen|]. split; [lia|]. split; [|split; [|split; [|split; [|split]]]].
      * constructor; [lia|]. eapply Forall_impl; [exact Hrange|]. simpl. lia.
      * apply NoDup_cons. split; [|done]. intros Hin.
        rewrite Forall_forall in Hrange. apply Hrange in Hin. lia.
      * rewrite Hccc. simpl. by rewrite <- app_assoc.
      * rewrite Hcont. simpl. unfold displayed. simpl.
        destruct (is_mask c) eqn:Hmask; simpl.
        -- by rewrite filter_cons_False by (simpl; congruence).
        -- rewrite filter_cons_True by done. simpl. by rewrite <- app_assoc.
      * by rewrite Hsm.
      * by rewrite Hch.
Qed.

Lemma record_all_snoc regs r m :
  record_all (regs ++ [r]) m = <[prop_name r.1.2 := r.1.1]> (record_all regs m).
Proof. unfold record_all. rewrite foldl_snoc. by destruct r as [[? ?] ?]. Qed.

Lemma record_all_is_Some regs m id :
  is_Some (record_all regs m !! id) ↔
  is_Some (m !! id) ∨ ∃ r, r ∈ regs ∧ prop_name r.1.2 = id.
Proof.
  induction regs as [|r regs IH] using rev_ind.
  - simpl. split; [by left|]. intros [?|(r & Hr & _)]; [done|]. by apply elem_of_nil in Hr.
  - rewrite record_all_snoc, lookup_insert_is_Some, IH. split.
    + intros [<-|[_ [?|(r' & Hr' & Hid)]]].
      * right. exists r. split; [|done]. apply elem_of_app. right. by apply list_elem_of_singleton.
      * by left.
      * right. exists r'. split; [|done]. apply elem_of_app. by left.
    + intros [?|(r' & Hr' & Hid)].
      * destruct (decide (prop_name r.1.2 = id)); [by left|]. right. split; [done|]. by left.
      * apply elem_of_app in Hr' as [Hr'|Hr'].
        -- destruct (decide (prop_name r.1.2 = id)); [by left|]. right. split; [done|].
           right. by exists r'.
        -- apply list_elem_of_singleton in Hr' as ->. by left.
Qed.

Lemma new_parse config σ0 σ clip :
  ComponentClip.new config σ0 = (σ, Normal clip) →
  ∃ locs,
    length locs = length (built_children (ComponentConfig.children config)) ∧
    NoDup locs ∧
    Forall (λ l, length σ0 < l ∧ l < length σ) locs ∧
    ComponentClip.self clip = length σ0 ∧
    ComponentClip.childComponentClips clip = locs ∧
    ComponentClip.container clip
    = displayed locs (built_children (ComponentConfig.children config)) ∧
    ComponentClip._stateManager clip
    = registered config
        (zip_with registration locs (built_children (ComponentConfig.children config))) ∧
    ComponentClip._childrenById clip
    = record_all
        (zip_with registration locs (built_children (ComponentConfig.children config))) ∅.
Proof.
  rewrite new_unfold. destruct (for_of _ _ _) as [[this' σ1] [[]|]] eqn:Hloop; [|done].
  intros [= <- <-].
  pose proof Hloop as Hself.
  apply (for_of_invariant _
           (λ s : ComponentClip.t * heap, ComponentClip.self s.1 = length σ0)) in Hself.
  - apply parse_built in Hloop as (locs & Hlen & _ & Hrange & Hnodup & Hccc & Hcont & Hsm & Hch).
    simpl in *. exists locs. repeat split; try done.
    eapply Forall_impl; [exact Hrange|]. simpl. intros l. rewrite length_app. simpl. lia.
  - intros c [this1 σ1'] [this2 σ2] c2 _ Hs Hbody.
    apply _createChildFromConfig_spec in Hbody as [_ Hreg]; [|apply new_fresh_clip].
    simpl in *. by destruct Hreg as [[-> _]|(child & b & _ & _ & ->)].
  - done.
Qed.

(** X3: a constructed clip holds one game object per child config of a
    known type, in config order, at pairwise different locations created
    during the construction; [childComponentClips] lists them all, the
    container shows all but the masks, and the manager and [_childrenById]
    have received one registration per built child, in that order. *)
Theorem new_builds_children config (σ0 σ : heap) clip :
  ComponentClip.new config σ0 = (σ, Normal clip) →
  ∃ locs,
    length locs = length (built_children (ComponentConfig.children config)) ∧
    NoDup locs ∧
    Forall (λ l, length σ0 < l ∧ l < length σ) locs ∧
    ComponentClip.self clip = length σ0 ∧
    ComponentClip.childComponentClips clip = locs ∧
    ComponentClip.container clip
    = displayed locs (built_children (ComponentConfig.children config)) ∧
    ComponentClip._stateManager clip
    = registered config
        (zip_with registration locs (built_children (ComponentConfig.children config))) ∧
    ComponentClip._childrenById clip
    = record_all
        (zip_with registration locs (built_children (ComponentConfig.children config))) ∅.
Proof. apply new_parse. Qed.

Lemma new_builds_children_witness :
  ∃ locs,
    length locs = length (built_children (ComponentConfig.children example_config)) ∧
    NoDup locs ∧
    Forall (λ l, length (@nil GameObject.t) < l ∧ l < length example_heap) locs ∧
    ComponentClip.self example_clip = length (@nil GameObject.t) ∧
    ComponentClip.childComponentClips example_clip = locs ∧
    ComponentClip.container example_clip
    = displayed locs (built_children (ComponentConfig.children example_config)) ∧
    ComponentClip._stateManager example_clip
    = registered example_config
        (zip_with registration locs
           (built_children (ComponentConfig.children example_config))) ∧
    ComponentClip._childrenById example_clip
    = record_all
        (zip_with registration locs
           (built_children (ComponentConfig.children example_config))) ∅.
Proof.
  apply (new_builds_children example_config [] example_heap example_clip).
  vm_compute. reflexivity.
Defined.

(** X4: [_childrenById] of a constructed clip has an entry exactly for
    the childIds of the child configs of a known type (an absent childId
    being the name [undefined]); children of an unknown type leave no
    entry. *)
Theorem new_childrenById_domain config (σ0 σ : heap) clip id :
  ComponentClip.new config σ0 = (σ, Normal clip) →
  is_Some (ComponentClip._childrenById clip !! id) ↔
  ∃ childConfig,
    childConfig ∈ ComponentConfig.children config ∧
    known_type (ComponentConfig.type childConfig) ∧
    prop_name (ComponentConfig.childId childConfig) = id.
Proof.
  intros Hnew. apply new_parse in Hnew as (locs & Hlen & _ & _ & _ & _ & _ & _ & ->).
  rewrite record_all_is_Some, lookup_empty. split.
  - intros [[? ?]|(r & Hr & Hid)]; [done|].
    apply elem_of_lookup_zip_with in Hr as (i & l & c & -> & _ & Hc).
    exists c. apply list_elem_of_lookup_2 in Hc.
    apply list_elem_of_filter in Hc as [Hknown Hc]. done.
  - intros (c & Hc & Hknown & Hid). right.
    assert (c ∈ built_children (ComponentConfig.children config)) as Hb
      by by apply list_elem_of_filter.
    apply list_elem_of_lookup in Hb as [i Hi].
    destruct (lookup_lt_is_Some_2 locs i) as [l Hl].
    { rewrite Hlen. by eapply lookup_lt_Some. }
    exists (registration l c). split; [|done].
    apply elem_of_lookup_zip_with. by exists i, l, c.
Qed.

Lemma new_childrenById_domain_witness :
  is_Some (ComponentClip._childrenById example_clip !! "c2") ↔
  ∃ childConfig,
    childConfig ∈ ComponentConfig.children example_config ∧
    known_type (ComponentConfig.type childConfig) ∧
    prop_name (ComponentConfig.childId childConfig) = "c2".
Proof.
  apply (new_childrenById_domain example_config [] example_heap example_clip "c2").
  vm_compute. reflexivity.
Defined.

(** ** Masks *)

Lemma touched_const (components : gmap string loc) (g : GameObject.t → GameObject.t)
    l o ids id :
  id ∈ ids → components !! id = Some l → (∀ o, g (g o) = g o) →
  touched components (λ _, g) l o ids = g <$> o.
Proof.
  intros Hin Hid Hidem.
  assert (∀ ids' o', touched components (λ _, g) l (g <$> o') ids' = g <$> o') as Hrest.
  { induction ids' as [|a ids' IH]; intros o'; [done|].
    simpl. case_decide; [|done].
    assert (g <$> (g <$> o') = g <$> o') as ->
      by (destruct o'; simpl; by rewrite ?Hidem).
    apply IH. }
  revert o Hin. induction ids as [|a ids IH]; intros o Hin.
  - by apply elem_of_nil in Hin.
  - simpl. case_decide as Ha; [apply Hrest|].
    apply elem_of_cons in Hin as [->|Hin]; [done|]. by apply IH.
Qed.

Lemma setMask_loop this mask ids (σ : heap) :
  Forall (λ id, is_Some (ComponentClip._childrenById this !! id)) ids →
  ∃ σ', for_of (ComponentClip.setMask mask) ids (this, σ) = ((this, σ'), Normal ()) ∧
        length σ' = length σ ∧
        ∀ l, σ' !! l
             = touched (ComponentClip._childrenById this)
                 (λ _, GameObject.set_mask mask) l (σ !! l) ids.
Proof.
  revert σ. induction ids as [|a ids IH]; intros σ Hall.
  - exists σ. by unfold_M.
  - apply Forall_cons in Hall as [[la Hla] Hall].
    destruct (IH (alter (GameObject.set_mask mask) la σ) Hall) as (σ' & Hrun & Hlen & Hlook).
    exists σ'. split; [|split].
    + simpl. unfold mbind at 1, M_bind at 1. unfold ComponentClip.setMask at 1.
      unfold_M. by rewrite Hla.
    + by rewrite Hlen, length_alter.
    + intros l. rewrite Hlook. simpl. f_equal.
      rewrite list_lookup_alter.
      destruct (decide (la = l)) as [->|Hne].
      * by rewrite !decide_True.
      * by rewrite !decide_False by congruence.
Qed.

Lemma setMask_loop_throws this mask ids (σ : heap) id :
  id ∈ ids → ComponentClip._childrenById this !! id = None →
  ∃ σ', for_of (ComponentClip.setMask mask) ids (this, σ) = ((this, σ'), Throw) ∧
        length σ' = length σ.
Proof.
  revert σ. induction ids as [|a ids IH]; intros σ Hin Hid.
  - by apply elem_of_nil in Hin.
  - simpl. unfold mbind at 1, M_bind at 1. unfold ComponentClip.setMask at 1. unfold_M.
    destruct (ComponentClip._childrenById this !! a) as [la|] eqn:Ha; simpl.
    + apply elem_of_cons in Hin as [->|Hin]; [congruence|].
      destruct (IH (alter (GameObject.set_mask mask) la σ) Hin Hid) as (σ' & -> & Hlen).
      exists σ'. split; [done|]. by rewrite Hlen, length_alter.
    + by exists σ.
Qed.

Lemma polygon_unfold new_child config this (σ : heap) :
  ComponentConfig.type config = TYPE_POLYGON →
  ComponentClip._createChildFromConfig new_child config (this, σ)
  = match ComponentConfig.vertices config with
    | None => ((this, σ ++ [engine_object (Num 0) (Num 0)]), Throw)
    | Some _ =>
        match ComponentConfig.masking config with
        | Some masking =>
            match for_of (ComponentClip.setMask (length σ)) masking
                    (this, σ ++ [_setupCommonParams (ComponentConfig.common config)
                                   (engine_object (Num 0) (Num 0))]) with
            | (s', Normal _) =>
                ((ComponentClip.register (length σ) (ComponentConfig.childId config)
                    (ComponentConfig.key config) false s'.1, s'.2), Normal ())
            | (s', Throw) => (s', Throw)
            end
        | None =>
            ((ComponentClip.register (length σ) (ComponentConfig.childId config)
                (ComponentConfig.key config) true this,
              σ ++ [_setupCommonParams (ComponentConfig.common config)
                      (engine_object (Num 0) (Num 0))]), Normal ())
        end
    end.
Proof.
  intros Htype. unfold ComponentClip._createChildFromConfig. rewrite Htype.
  repeat (rewrite decide_False by done). rewrite decide_True by done.
  unfold ComponentClip._createPolygonFromConfig. unfold_M.
  destruct (ComponentConfig.vertices config) as [vertices|]; simpl; [|done].
  assert (alter (_setupCommonParams (ComponentConfig.common config)) (length σ)
            (σ ++ [engine_object (Num 0) (Num 0)])
          = σ ++ [_setupCommonParams (ComponentConfig.common config)
                    (engine_object (Num 0) (Num 0))]) as ->.
  { rewrite alter_app_r_alt by lia. by rewrite Nat.sub_diag. }
  destruct (ComponentConfig.masking config) as [masking|]; [|done].
  by destruct (for_of _ masking _) as [[this1 σ1] [[]|]].
Qed.

Lemma for_of_app {S A} (body : A → M S unit) array1 array2 s :
  for_of body (array1 ++ array2) s
  = match for_of body array1 s with
    | (s', Normal _) => for_of body array2 s'
    | (s', Throw) => (s', Throw)
    end.
Proof.
  revert s. induction array1 as [|a array1 IH]; intros s; [done|].
  simpl. unfold mbind, M_bind. destruct (body a s) as [s1 [[]|]]; [apply IH|done].
Qed.

(** X5: a polygon that has [vertices] and a [masking] list whose ids
    all name children made before it is created as one new object,
    visible and without a mask of its own, that is recorded in
    [_childrenById] and [childComponentClips] and registered with the
    manager but not added to the container; every object named by the
    list gets the polygon as its mask and keeps its visibility and its
    transform fields, and no other older object changes. *)
Theorem polygon_masks_named_children new_child config this (σ : heap) masking vertices :
  ComponentConfig.type config = TYPE_POLYGON →
  ComponentConfig.vertices config = Some vertices →
  ComponentConfig.masking config = Some masking →
  (∀ id l, ComponentClip._childrenById this !! id = Some l → l < length σ) →
  Forall (λ id, is_Some (ComponentClip._childrenById this !! id)) masking →
  ∃ this' σ' shape,
    ComponentClip._createChildFromConfig new_child config (this, σ)
    = ((this', σ'), Normal ()) ∧
    ComponentClip.childComponentClips this'
    = ComponentClip.childComponentClips this ++ [length σ] ∧
    ComponentClip.container this' = ComponentClip.container this ∧
    ComponentClip._childrenById this'
    = <[prop_name (ComponentConfig.childId config) := length σ]>
        (ComponentClip._childrenById this) ∧
    ComponentClip._stateManager this'
    = addComponent (length σ) (ComponentConfig.childId config) (ComponentConfig.key config)
        (ComponentClip._stateManager this) ∧
    length σ' = S (length σ) ∧
    σ' !! length σ = Some shape ∧
    GameObject.visible shape = true ∧ GameObject.mask shape = None ∧
    (regular (ComponentConfig.common config) →
     transform_applied (ComponentConfig.common config) shape) ∧
    (∀ id l, id ∈ masking → ComponentClip._childrenById this !! id = Some l →
       ∃ o o', σ !! l = Some o ∧ σ' !! l = Some o' ∧
               GameObject.mask o' = Some (length σ) ∧
               GameObject.visible o' = GameObject.visible o ∧ same_transform o o') ∧
    (∀ l, l < length σ →
       (∀ id, id ∈ masking → ComponentClip._childrenById this !! id ≠ Some l) →
       σ' !! l = σ !! l).
Proof.
  intros Htype Hvertices Hmasking Hvalid Hall.
  rewrite polygon_unfold, Hvertices, Hmasking by done.
  destruct (setMask_loop this (length σ) masking
              (σ ++ [_setupCommonParams (ComponentConfig.common config)
                       (engine_object (Num 0) (Num 0))]) Hall)
    as (σ' & -> & Hlen & Hlook).
  exists (ComponentClip.register (length σ) (ComponentConfig.childId config)
            (ComponentConfig.key config) false this), σ',
    (_setupCommonParams (ComponentConfig.common config) (engine_object (Num 0) (Num 0))).
  simpl. do 5 (split; [done|]). rewrite length_app in Hlen. simpl in Hlen.
  split; [lia|]. split; [|split; [done|split; [done|split; [|split]]]].
  - rewrite Hlook, touched_none.
    + by rewrite lookup_app_r, Nat.sub_diag by lia.
    + intros id _ Hid. apply Hvalid in Hid. lia.
  - apply _setupCommonParams_applied.
  - intros id l Hin Hid. pose proof (Hvalid _ _ Hid) as Hl.
    destruct (lookup_lt_is_Some_2 σ l Hl) as [o Ho].
    exists o, (GameObject.set_mask (length σ) o). split; [done|]. split; [|done].
    rewrite Hlook, (touched_const _ _ l _ masking id) by done.
    by rewrite lookup_app_l, Ho by done.
  - intros l Hl Hno. rewrite Hlook, touched_none by done. by rewrite lookup_app_l.
Qed.

(** On the worked configuration: a mask over [c1] and [c2], which are
    objects 1 and 2. *)
Lemma polygon_masks_named_children_witness :
  ∃ this' σ' shape,
    ComponentClip._createChildFromConfig (ComponentClip.new (example_mask ["c1"; "c2"]))
      (example_mask ["c1"; "c2"]) (example_clip, example_heap)
    = ((this', σ'), Normal ()) ∧
    ComponentClip.childComponentClips this'
    = ComponentClip.childComponentClips example_clip ++ [length example_heap] ∧
    ComponentClip.container this' = ComponentClip.container example_clip ∧
    ComponentClip._childrenById this'
    = <[prop_name (Some "m") := length example_heap]>
        (ComponentClip._childrenById example_clip) ∧
    ComponentClip._stateManager this'
    = addComponent (length example_heap) (Some "m") None
        (ComponentClip._stateManager example_clip) ∧
    length σ' = S (length example_heap) ∧
    σ' !! length example_heap = Some shape ∧
    GameObject.visible shape = true ∧ GameObject.mask shape = None ∧
    (regular StateConfig.empty → transform_applied StateConfig.empty shape) ∧
    (∀ id l, id ∈ ["c1"; "c2"] → ComponentClip._childrenById example_clip !! id = Some l →
       ∃ o o', example_heap !! l = Some o ∧ σ' !! l = Some o' ∧
               GameObject.mask o' = Some (length example_heap) ∧
               GameObject.visible o' = GameObject.visible o ∧ same_transform o o') ∧
    (∀ l, l < length example_heap →
       (∀ id, id ∈ ["c1"; "c2"] → ComponentClip._childrenById example_clip !! id ≠ Some l) →
       σ' !! l = example_heap !! l).
Proof.
  apply (polygon_masks_named_children _ (example_mask ["c1"; "c2"])
           example_clip example_heap ["c1"; "c2"]
           [Num 0; Num 0; Num 10; Num 0; Num 10; Num 10]).
  - reflexivity.
  - reflexivity.
  - reflexivity.
  - apply (wf_children_valid _ _ (reachable_wf _ _ example_reachable)).
  - repeat constructor; vm_compute; by eexists.
Defined.

(** X6: a polygon whose [masking] names an id that no child of a known
    type before it in [children] carries makes the construction throw;
    in particular a mask cannot name a child declared after it. *)
Theorem new_mask_on_missing_child_throws config (σ0 : heap) pre polygon post masking id :
  ComponentConfig.children config = pre ++ polygon :: post →
  ComponentConfig.type polygon = TYPE_POLYGON →
  ComponentConfig.masking polygon = Some masking →
  id ∈ masking →
  (∀ c, c ∈ pre → known_type (ComponentConfig.type c) →
        prop_name (ComponentConfig.childId c) ≠ id) →
  (ComponentClip.new config σ0).2 = Throw.
Proof.
  intros Hchildren Htype Hmasking Hin Hpre.
  rewrite new_unfold, Hchildren, for_of_app.
  destruct (for_of _ pre _) as [[this1 σ1] [[]|]] eqn:Hloop; [|done].
  apply parse_built in Hloop as (locs & _ & _ & _ & _ & _ & _ & _ & Hch).
  simpl in Hch.
  assert (ComponentClip._childrenById this1 !! id = None) as Hnone.
  { apply eq_None_not_Some. rewrite Hch, record_all_is_Some, lookup_empty.
    intros [[? ?]|(r & Hr & Hid)]; [done|].
    apply elem_of_lookup_zip_with in Hr as (i & l & c & -> & _ & Hc).
    apply list_elem_of_lookup_2, list_elem_of_filter in Hc as [Hknown Hc].
    by apply (Hpre c). }
  simpl. unfold mbind at 1, M_bind at 1.
  rewrite polygon_unfold by done.
  destruct (ComponentConfig.vertices polygon) as [vertices|]; [|done].
  rewrite Hmasking.
  destruct (setMask_loop_throws this1 (length σ1) masking
              (σ1 ++ [_setupCommonParams (ComponentConfig.common polygon)
                        (engine_object (Num 0) (Num 0))]) id Hin Hnone)
    as (σ' & -> & _).
  done.
Qed.

Lemma new_mask_on_missing_child_throws_witness :
  (ComponentClip.new example_masked_config []).2 = Throw.
Proof.
  apply (new_mask_on_missing_child_throws example_masked_config []
           [example_child TYPE_IMAGE "c1" "btn"] (example_mask ["c1"; "c2"])
           [example_child TYPE_IMAGE "c2" "icon"] ["c1"; "c2"] "c2").
  - reflexivity.
  - reflexivity.
  - reflexivity.
  - apply elem_of_cons. right. apply elem_of_cons. by left.
  - intros c Hc _. apply list_elem_of_singleton in Hc as ->. done.
Defined.

(** ** What a transition leaves alone *)

Lemma alter_keeps {B} (proj : GameObject.t → B) f l (σ : heap) l' :
  (∀ o, proj (f o) = proj o) → proj <$> alter f l σ !! l' = proj <$> σ !! l'.
Proof.
  intros Hf. rewrite list_lookup_alter. case_decide; [subst|done].
  destruct (σ !! l'); simpl; by rewrite ?Hf.
Qed.

Lemma hide_mask id s s' c l :
  hide id s = (s', c) → GameObject.mask <$> s'.2 !! l = GameObject.mask <$> s.2 !! l.
Proof.
  destruct s as [sm σ]. unfold hide. unfold_M.
  destruct (_components sm !! id); simpl; intros [= <- _]; simpl; [|done].
  by apply alter_keeps.
Qed.

Lemma show_mask id s s' c l :
  show id s = (s', c) → GameObject.mask <$> s'.2 !! l = GameObject.mask <$> s.2 !! l.
Proof.
  destruct s as [sm σ]. unfold show. unfold_M.
  destruct (_components sm !! id) as [component|]; simpl; [|by intros [= <- _]].
  destruct (_currentState sm) as [state|]; simpl;
    [|intros [= <- _]; by apply alter_keeps].
  destruct (prop (State.config state) id); simpl; intros [= <- _]; simpl.
  - rewrite !alter_keeps; done.
  - by apply alter_keeps.
Qed.

Lemma setupState_mask s s' c l :
  setupState s = (s', c) → GameObject.mask <$> s'.2 !! l = GameObject.mask <$> s.2 !! l.
Proof.
  destruct s as [sm σ]. unfold setupState. intros Hrun.
  unfold mbind at 1, M_bind at 1 in Hrun. unfold this at 1 in Hrun. simpl in Hrun.
  unfold mbind at 1, M_bind at 1 in Hrun.
  destruct (_currentState sm) as [state|]; simpl in Hrun; [|by injection Hrun as <- _].
  unfold mbind, M_bind in Hrun.
  pose (P := λ s1 : StateManager.t * heap,
          GameObject.mask <$> s1.2 !! l = GameObject.mask <$> σ !! l).
  assert (∀ ids s1 s2 c1, P s1 → for_of hide ids s1 = (s2, c1) → P s2) as Hhide.
  { intros ids s1 s2 c1 Hs1. apply (for_of_invariant hide P); [|done].
    intros id s3 s4 c2 _ Hs3 Hid. unfold P in *. by rewrite (hide_mask _ _ _ _ _ Hid). }
  assert (∀ ids s1 s2 c1, P s1 → for_of show ids s1 = (s2, c1) → P s2) as Hshow.
  { intros ids s1 s2 c1 Hs1. apply (for_of_invariant show P); [|done].
    intros id s3 s4 c2 _ Hs3 Hid. unfold P in *. by rewrite (show_mask _ _ _ _ _ Hid). }
  destruct (for_of hide _ _) as [s1 [[]|]] eqn:Hh.
  - eapply (Hshow _ s1); [|exact Hrun]. by eapply (Hhide _ (sm, σ)).
  - injection Hrun as <- _. by eapply (Hhide _ (sm, σ)).
Qed.

Lemma setState_mask sm σ stateId force s' c l :
  setState stateId force (sm, σ) = (s', c) →
  GameObject.mask <$> s'.2 !! l = GameObject.mask <$> σ !! l.
Proof.
  intros Hrun. destruct (setState_cases sm σ stateId force) as [Heq|(state & Hst & Heq)];
    rewrite Heq in Hrun.
  - by injection Hrun as <- _.
  - by apply (setupState_mask _ _ _ l) in Hrun.
Qed.

Lemma setState_registry sm σ stateId force s' c :
  setState stateId force (sm, σ) = (s', c) → registry s'.1 = registry sm.
Proof.
  intros Hrun. apply setState_frame in Hrun as ([->|(state & _ & ->)] & _); done.
Qed.

Lemma set_stateManager_structure sm clip :
  structure (ComponentClip.set_stateManager sm clip) = structure clip.
Proof. done. Qed.

Lemma step_structure w w' :
  step w w' →
  structure w'.1 = structure w.1 ∧
  registry (ComponentClip._stateManager w'.1) = registry (ComponentClip._stateManager w.1) ∧
  (length w.2 ≤ length w'.2)%nat.
Proof.
  intros [stateId force [clip σ]|childId params [clip σ]|key [clip σ]|l o [clip σ]|o [clip σ]];
    simpl.
  - unfold ComponentClip.setState, ComponentClip.on_stateManager. simpl.
    destruct (setState stateId force _) as [[sm' σ'] c] eqn:Hrun. simpl.
    pose proof (setState_registry _ _ _ _ _ _ Hrun) as Hreg.
    apply setState_frame in Hrun as (_ & Hlen & _). simpl in *. split; [done|]. split; [done|lia].
  - unfold ComponentClip.applyChildParams. unfold_M.
    destruct (ComponentClip._childrenById clip !! childId); simpl; [|done].
    by rewrite length_alter.
  - unfold ComponentClip.getChildClip, ComponentClip.on_stateManager,
      getActiveComponentByKey. unfold_M.
    destruct (_residentComponentsByKey _ !! key); simpl; [done|].
    by destruct (_currentState _).
  - by rewrite length_insert.
  - rewrite length_app. simpl. repeat split; lia.
Qed.

(** Every reachable world keeps the structure and the registry that its
    construction made. *)
Lemma reachable_structure config w :
  reachable config w →
  ∃ σ0 clip0 σ1,
    ComponentClip.new config σ0 = (σ1, Normal clip0) ∧
    structure w.1 = structure clip0 ∧
    registry (ComponentClip._stateManager w.1) = registry (ComponentClip._stateManager clip0) ∧
    (length σ1 ≤ length w.2)%nat.
Proof.
  intros (σ0 & clip0 & σ1 & Hnew & Hsteps). exists σ0, clip0, σ1. split; [done|].
  clear Hnew. remember (clip0, σ1) as w0 eqn:Hw0.
  assert (structure w.1 = structure w0.1 ∧
          registry (ComponentClip._stateManager w.1)
          = registry (ComponentClip._stateManager w0.1) ∧
          (length w0.2 ≤ length w.2)%nat) as Hgoal; [|by subst w0].
  clear Hw0. induction Hsteps as [|w1 w2 w3 Hstep _ IH]; [done|].
  destruct IH as (Hs & Hr & Hl). apply step_structure in Hstep as (Hs' & Hr' & Hl').
  rewrite Hs, Hr, Hs', Hr'. repeat split; lia.
Qed.

(** X7: [setState] on a clip, to any target, with any [force] and
    however it completes, changes neither the fields of the clip nor the
    registry of its manager (only the active state can change), creates
    and removes no game object, and leaves every mask as it was. *)
Theorem setState_keeps_structure stateId force clip (σ : heap) :
  let w' := (ComponentClip.setState stateId force (clip, σ)).1 in
  structure w'.1 = structure clip ∧
  registry (ComponentClip._stateManager w'.1) = registry (ComponentClip._stateManager clip) ∧
  length w'.2 = length σ ∧
  ∀ l, GameObject.mask <$> w'.2 !! l = GameObject.mask <$> σ !! l.
Proof.
  unfold ComponentClip.setState, ComponentClip.on_stateManager. simpl.
  destruct (setState stateId force _) as [[sm' σ'] c] eqn:Hrun. simpl.
  split; [done|]. split; [by apply setState_registry in Hrun|].
  split; [by apply setState_frame in Hrun as (_ & ? & _)|].
  intros l. by apply (setState_mask _ _ _ _ _ _ l) in Hrun.
Qed.

(** ** The declared states *)

Lemma register_all_registry_static regs sm0 :
  _dynamicChildrenIds (register_all regs sm0) = _dynamicChildrenIds sm0 ∧
  _states (register_all regs sm0) = _states sm0 ∧
  stateIds (register_all regs sm0) = stateIds sm0.
Proof.
  revert sm0. induction regs as [|[[component childId] childKey] regs IH]; intros sm0;
    simpl; [done|].
  destruct (IH (addComponent component childId childKey sm0)) as (-> & -> & ->).
  unfold addComponent. case_decide; [by destruct childKey | done].
Qed.

Lemma states_foldl_prop entries (states : gmap string State.t) stateId :
  NoDup (keys entries) →
  foldl (λ m e, <[e.1 := State.new e.2]> m) states entries !! stateId
  = match prop entries stateId with
    | Some stateConfig => Some (State.new stateConfig)
    | None => states !! stateId
    end.
Proof.
  revert states. induction entries as [|[sid sc] entries IH]; intros states Hnodup;
    simpl; [done|].
  apply NoDup_cons in Hnodup as [Hout Hnodup]. rewrite IH by done.
  case_decide as Hsid.
  - subst sid. destruct (prop entries stateId) as [sc'|] eqn:Hprop.
    + exfalso. apply Hout. clear -Hprop.
      induction entries as [|[k v] entries IH]; simpl in *; [done|].
      case_decide; [subst; by left | right; by apply IH].
    + by rewrite lookup_insert_eq.
  - destruct (prop entries stateId); [done|]. by rewrite lookup_insert_ne.
Qed.

Lemma reachable_states config w :
  reachable config w →
  _states (ComponentClip._stateManager w.1) = _states (StateManager.new config) ∧
  stateIds (ComponentClip._stateManager w.1) = stateIds (StateManager.new config).
Proof.
  intros (σ0 & clip0 & σ1 & Hnew & Hs & Hr & _)%reachable_structure.
  apply new_parse in Hnew as (locs & _ & _ & _ & _ & _ & _ & Hsm & _).
  unfold registry in Hr. injection Hr as _ -> -> _ _ _. rewrite Hsm.
  unfold registered. fold (register_all
    (zip_with registration locs (built_children (ComponentConfig.children config)))
    (StateManager.new config)).
  by destruct (register_all_registry_static
    (zip_with registration locs (built_children (ComponentConfig.children config)))
    (StateManager.new config)) as (_ & -> & ->).
Qed.

(** X8: in every reachable world [getStateConfig] returns, for a declared
    state id, the very state config object that the clip's config holds
    under [states], and [null] for an id that [states] lacks. *)
Theorem getStateConfig_declared config w stateId :
  reachable config w →
  NoDup (keys (ComponentConfig.states config)) →
  (∀ stateConfig, prop (ComponentConfig.states config) stateId = Some stateConfig →
                  ComponentClip.getStateConfig stateId w.1 = Some stateConfig) ∧
  (stateId ∉ keys (ComponentConfig.states config) →
   ComponentClip.getStateConfig stateId w.1 = None).
Proof.
  intros [Hstates _]%reachable_states Hnodup.
  unfold ComponentClip.getStateConfig, getStateConfigById. rewrite Hstates. split.
  - intros stateConfig Hprop. rewrite new_fields. simpl.
    by rewrite states_foldl_prop, Hprop by done.
  - intros Hout. apply new_undeclared in Hout. by rewrite Hout.
Qed.

(** On the worked configuration, state [A] active: the config of state
    [B], and [null] for [C]. *)
Lemma getStateConfig_declared_witness :
  ComponentClip.getStateConfig "B" (example_clip_A, example_heap_A).1 = Some example_state_B ∧
  ComponentClip.getStateConfig "C" (example_clip_A, example_heap_A).1 = None.
Proof.
  assert (NoDup (keys (ComponentConfig.states example_config))) as Hnodup
    by (apply (bool_decide_unpack _); vm_compute; exact I).
  split.
  - apply (getStateConfig_declared example_config (example_clip_A, example_heap_A) "B"
             example_reachable_A Hnodup).
    reflexivity.
  - apply (getStateConfig_declared example_config (example_clip_A, example_heap_A) "C"
             example_reachable_A Hnodup).
    apply (bool_decide_unpack _). vm_compute. exact I.
Defined.

(** X9: in every reachable world [getStateIds] is the list of the keys of
    [config.states] in their enumeration order, and a state id belongs to
    it exactly when [getStateConfig] finds a config for it. *)
Theorem getStateIds_declared config w :
  reachable config w →
  ComponentClip.getStateIds w.1 = keys (ComponentConfig.states config) ∧
  ∀ stateId, stateId ∈ ComponentClip.getStateIds w.1
             ↔ is_Some (ComponentClip.getStateConfig stateId w.1).
Proof.
  intros [Hstates Hids]%reachable_states.
  unfold ComponentClip.getStateIds, ComponentClip.getStateConfig, getStateConfigById.
  rewrite Hids, Hstates. assert (stateIds (StateManager.new config)
                                 = keys (ComponentConfig.states config)) as ->
    by by rewrite new_fields.
  split; [done|]. intros stateId. rewrite fmap_is_Some.
  destruct (decide (stateId ∈ keys (ComponentConfig.states config))) as [Hin|Hout].
  - split; [|done]. intros _. apply not_eq_None_Some. rewrite new_undeclared. tauto.
  - apply new_undeclared in Hout as Hnone. rewrite Hnone. split; [done|]. by intros [? ?].
Qed.

Lemma getStateIds_declared_witness :
  ComponentClip.getStateIds (example_clip_A, example_heap_A).1
  = keys (ComponentConfig.states example_config) ∧
  ∀ stateId, stateId ∈ ComponentClip.getStateIds (example_clip_A, example_heap_A).1
             ↔ is_Some (ComponentClip.getStateConfig stateId
                          (example_clip_A, example_heap_A).1).
Proof.
  apply (getStateIds_declared example_config (example_clip_A, example_heap_A)).
  exact example_reachable_A.
Defined.

(** ** What a lookup returns *)

Lemma register_all_snoc regs r sm0 :
  register_all (regs ++ [r]) sm0 = addComponent r.1.1 r.1.2 r.2 (register_all regs sm0).
Proof. unfold register_all. rewrite foldl_snoc. by destruct r as [[? ?] ?]. Qed.

(** Whatever the maps of the manager hold was put there by a
    registration. *)
Lemma register_all_sources regs sm0 :
  _components sm0 = ∅ → _componentKeys sm0 = ∅ → _residentComponentsByKey sm0 = ∅ →
  (∀ id l, _components (register_all regs sm0) !! id = Some l →
           ∃ childKey, (l, Some id, childKey) ∈ regs) ∧
  (∀ id, is_Some (_componentKeys (register_all regs sm0) !! id) →
         id ∈ omap (λ r, r.1.2) regs) ∧
  (∀ key l, _residentComponentsByKey (register_all regs sm0) !! key = Some l →
            ∃ childId, (l, childId, Some key) ∈ regs) ∧
  (NoDup (omap (λ r : loc * option string * option string, r.1.2) regs) →
   ∀ id l, _components (register_all regs sm0) !! id = Some l →
           ∃ childKey, (l, Some id, childKey) ∈ regs ∧
                       _componentKeys (register_all regs sm0) !! id = childKey).
Proof.
  intros Hc Hk Hr. induction regs as [|[[component childId] childKey] regs IH] using rev_ind.
  - simpl. rewrite Hc, Hk, Hr. repeat split; intros *; rewrite ?lookup_empty; try done.
  - destruct IH as (IHc & IHk & IHr & IHu). rewrite register_all_snoc. simpl.
    set (sm := register_all regs sm0) in *.
    assert (∀ r : loc * option string * option string,
              r ∈ regs → r ∈ regs ++ [(component, childId, childKey)]) as Hmono
      by (intros r Hr'; apply elem_of_app; by left).
    assert (∀ id, id ∈ omap (λ r : loc * option string * option string, r.1.2) regs →
                  id ∈ omap (λ r : loc * option string * option string, r.1.2)
                         (regs ++ [(component, childId, childKey)])) as Hmono'
      by (intros id Hid; rewrite omap_app; apply elem_of_app; by left).
    unfold addComponent. case_decide as Hidx.
    + split; [|split; [|split]].
      * intros id l Hl.
        assert (_components sm !! id = Some l) as [k Hin]%IHc by by destruct childKey.
        exists k. by apply Hmono.
      * intros id Hid. apply Hmono', IHk. by destruct childKey.
      * intros key l. destruct childKey as [k|]; simpl.
        -- intros [[<- <-]|[_ Hold]]%lookup_insert_Some.
           ++ exists childId. apply elem_of_app. right. by apply list_elem_of_singleton.
           ++ apply IHr in Hold as [cid Hin]. exists cid. by apply Hmono.
        -- intros [cid Hin]%IHr. exists cid. by apply Hmono.
      * rewrite omap_app. intros [Hnodup _]%NoDup_app id l Hl.
        assert (_components sm !! id = Some l) as Hl' by by destruct childKey.
        destruct (IHu Hnodup id l Hl') as (k & Hin & Hkey). exists k.
        split; [by apply Hmono|]. by destruct childKey.
    + apply indexOf_present in Hidx as (id0 & -> & Hid0). simpl. split; [|split; [|split]].
      * intros id l [[<- <-]|[_ Hold]]%lookup_insert_Some.
        -- exists childKey. apply elem_of_app. right. by apply list_elem_of_singleton.
        -- apply IHc in Hold as [k Hin]. exists k. by apply Hmono.
      * intros id Hid. rewrite omap_app. apply elem_of_app.
        destruct (decide (id = id0)) as [->|Hne]; [right; simpl; by left|].
        left. apply IHk. destruct childKey as [k|]; [|done].
        by rewrite lookup_insert_ne in Hid.
      * intros key l [cid Hin]%IHr. exists cid. by apply Hmono.
      * rewrite omap_app. simpl. intros (Hnodup & Hfresh & _)%NoDup_app id l Hl.
        apply lookup_insert_Some in Hl as [[<- <-]|[Hne Hold]].
        -- exists childKey. split; [apply elem_of_app; right; by apply list_elem_of_singleton|].
           destruct childKey as [k|]; [by rewrite lookup_insert_eq|].
           apply eq_None_not_Some. intros Hsome%IHk. apply (Hfresh id0 Hsome). by left.
        -- destruct (IHu Hnodup id l Hold) as (k & Hin & Hkey). exists k.
           split; [by apply Hmono|]. destruct childKey as [k'|]; [|done].
           by rewrite lookup_insert_ne.
Qed.

Lemma scan_object sm key ids l :
  scan sm key ids = Object l →
  ∃ id, id ∈ ids ∧ _componentKeys sm !! id = Some key ∧ _components sm !! id = Some l.
Proof.
  induction ids as [|id ids IH]; simpl; [done|].
  case_decide as Hk.
  - destruct (_components sm !! id) as [l'|] eqn:Hl; [|done].
    intros [= ->]. exists id. split; [by left|done].
  - intros (id' & Hin & Hid')%IH. exists id'. split; [by right|done].
Qed.

Lemma on_stateManager_getActiveComponentByKey key clip (σ : heap) :
  ComponentClip.on_stateManager (getActiveComponentByKey key) (clip, σ)
  = ((clip, σ), (getActiveComponentByKey key (ComponentClip._stateManager clip, σ)).2).
Proof.
  unfold ComponentClip.on_stateManager. simpl.
  destruct (getActiveComponentByKey_normal (ComponentClip._stateManager clip) σ key)
    as (r & -> & _).
  simpl. by destruct clip.
Qed.

(** The object that a lookup returns comes from a registration with the
    key looked up. *)
Lemma getActiveComponentByKey_source regs sm0 sm (σ : heap) key l :
  _components sm0 = ∅ → _componentKeys sm0 = ∅ → _residentComponentsByKey sm0 = ∅ →
  registry sm = registry (register_all regs sm0) →
  (getActiveComponentByKey key (sm, σ)).2 = Normal (Object l) →
  (∃ childId childKey, (l, childId, childKey) ∈ regs) ∧
  (NoDup (omap (λ r : loc * option string * option string, r.1.2) regs) →
   ∃ childId, (l, childId, Some key) ∈ regs).
Proof.
  intros Hc Hk Hr Hreg.
  destruct (register_all_sources regs sm0 Hc Hk Hr) as (Hcs & _ & Hrs & Hus).
  unfold registry in Hreg. injection Hreg as _ _ _ Hcomp Hkeys Hres.
  rewrite <- Hcomp, <- Hres in *. rewrite <- Hkeys in Hus.
  unfold getActiveComponentByKey. unfold_M.
  destruct (_residentComponentsByKey sm !! key) as [r|] eqn:Hrk; simpl.
  - intros [= ->]. apply Hrs in Hrk as [cid Hin]. split; [by exists cid, (Some key)|].
    intros _. by exists cid.
  - destruct (_currentState sm) as [state|]; simpl; [|done].
    intros [= (id & _ & Hkey & Hl)%scan_object]. split.
    + apply Hcs in Hl as [k Hin]. by exists (Some id), k.
    + intros Hnodup. destruct (Hus Hnodup id l Hl) as (k & Hin & Hk').
      exists (Some id). congruence.
Qed.

Lemma elem_of_registrations locs configs l childId childKey :
  (l, childId, childKey) ∈ zip_with registration locs configs →
  ∃ i childConfig, locs !! i = Some l ∧ configs !! i = Some childConfig ∧
                   ComponentConfig.childId childConfig = childId ∧
                   ComponentConfig.key childConfig = childKey.
Proof.
  intros (i & l' & c & [= -> -> ->] & Hl & Hc)%elem_of_lookup_zip_with.
  by exists i, c.
Qed.

Lemma omap_registrations locs configs :
  length locs = length configs →
  omap (λ r : loc * option string * option string, r.1.2) (zip_with registration locs configs)
  = omap ComponentConfig.childId configs.
Proof.
  revert configs. induction locs as [|l locs IH]; intros [|c configs] Hlen; try done.
  simpl in *. rewrite IH by lia. done.
Qed.

Lemma new_initial_maps config :
  _components (StateManager.new config) = ∅ ∧
  _componentKeys (StateManager.new config) = ∅ ∧
  _residentComponentsByKey (StateManager.new config) = ∅.
Proof. by rewrite new_fields. Qed.

(** X10: in every reachable world [getChildClip] and [getChildText]
    complete normally with the same result and change nothing; the result
    is [null] or one of the clip's own children, which exists in the
    world. *)
Theorem getChildClip_returns_child config w key :
  reachable config w →
  ∃ r, ComponentClip.getChildClip key w = (w, Normal r) ∧
       getChildText key w = (w, Normal r) ∧
       r ≠ Undefined ∧
       ∀ l, r = Object l →
            l ∈ ComponentClip.childComponentClips w.1 ∧ is_Some (w.2 !! l).
Proof.
  intros Hreach. pose proof (reachable_wf _ _ Hreach) as Hwf.
  apply reachable_structure in Hreach as (σ0 & clip0 & σ1 & Hnew & Hs & Hr & Hlen).
  pose proof (new_parse _ _ _ _ Hnew) as (locs & _ & _ & Hrange & _ & Hccc & _ & Hsm & _).
  destruct w as [clip σ]. simpl in *.
  unfold ComponentClip.getChildClip, getChildText.
  rewrite on_stateManager_getActiveComponentByKey.
  destruct (getActiveComponentByKey_normal (ComponentClip._stateManager clip) σ key)
    as (r & Hrun & Hdef).
  exists r. rewrite Hrun. simpl. split; [done|]. split; [done|].
  split; [apply Hdef, Hwf|]. intros l ->.
  destruct (new_initial_maps config) as (Hc0 & Hk0 & Hr0).
  rewrite Hsm in Hr.
  destruct (getActiveComponentByKey_source _ _ _ σ key l Hc0 Hk0 Hr0 Hr) as [(cid & ck & Hin) _];
    [by rewrite Hrun|].
  apply elem_of_registrations in Hin as (i & c & Hl & _).
  unfold structure in Hs. injection Hs as _ _ _ _ Hccc' _.
  rewrite Hccc', Hccc. split; [by eapply list_elem_of_lookup_2|].
  apply lookup_lt_is_Some. apply list_elem_of_lookup_2 in Hl.
  rewrite Forall_forall in Hrange. apply Hrange in Hl. lia.
Qed.

Lemma getChildClip_returns_child_witness :
  ∃ r, ComponentClip.getChildClip "btn" (example_clip_A, example_heap_A)
       = ((example_clip_A, example_heap_A), Normal r) ∧
       getChildText "btn" (example_clip_A, example_heap_A)
       = ((example_clip_A, example_heap_A), Normal r) ∧
       r ≠ Undefined ∧
       ∀ l, r = Object l →
            l ∈ ComponentClip.childComponentClips (example_clip_A, example_heap_A).1 ∧
            is_Some ((example_clip_A, example_heap_A).2 !! l).
Proof.
  apply (getChildClip_returns_child example_config (example_clip_A, example_heap_A) "btn").
  exact example_reachable_A.
Defined.

(** X11: when the children built carry pairwise different childIds, the
    object that [getChildClip] returns for a key is the object of a
    child whose config has that key. *)
Theorem getChildClip_has_key config w key l :
  reachable config w →
  NoDup (omap ComponentConfig.childId (built_children (ComponentConfig.children config))) →
  (ComponentClip.getChildClip key w).2 = Normal (Object l) →
  ∃ i childConfig,
    built_children (ComponentConfig.children config) !! i = Some childConfig ∧
    ComponentClip.childComponentClips w.1 !! i = Some l ∧
    ComponentConfig.key childConfig = Some key.
Proof.
  intros Hreach Hnodup.
  apply reachable_structure in Hreach as (σ0 & clip0 & σ1 & Hnew & Hs & Hr & _).
  pose proof (new_parse _ _ _ _ Hnew) as (locs & Hlen & _ & _ & _ & Hccc & _ & Hsm & _).
  destruct w as [clip σ]. simpl in *.
  unfold ComponentClip.getChildClip. rewrite on_stateManager_getActiveComponentByKey. simpl.
  intros Hrun. destruct (new_initial_maps config) as (Hc0 & Hk0 & Hr0).
  rewrite Hsm in Hr.
  destruct (getActiveComponentByKey_source _ _ _ σ key l Hc0 Hk0 Hr0 Hr Hrun) as [_ Hkey].
  destruct Hkey as [cid Hin]; [by rewrite omap_registrations|].
  apply elem_of_registrations in Hin as (i & c & Hl & Hc & _ & Hck).
  exists i, c. unfold structure in Hs. injection Hs as _ _ _ _ Hccc' _.
  by rewrite Hccc', Hccc.
Qed.

Lemma getChildClip_has_key_witness :
  ∃ i childConfig,
    built_children (ComponentConfig.children example_config) !! i = Some childConfig ∧
    ComponentClip.childComponentClips (example_clip_A, example_heap_A).1 !! i = Some 3 ∧
    ComponentConfig.key childConfig = Some "btn".
Proof.
  apply (getChildClip_has_key example_config (example_clip_A, example_heap_A) "btn" 3).
  - exact example_reachable_A.
  - apply (bool_decide_unpack _). vm_compute. exact I.
  - vm_compute. reflexivity.
Defined.

(** ** The two maps of children *)

Lemma record_all_lookup regs m id l :
  record_all regs m !! id = Some l →
  m !! id = Some l ∨ ∃ childId childKey, (l, childId, childKey) ∈ regs ∧ prop_name childId = id.
Proof.
  induction regs as [|[[component childId] childKey] regs IH] using rev_ind; [by left|].
  rewrite record_all_snoc. simpl. intros [[<- <-]|[_ Hold]]%lookup_insert_Some.
  - right. exists childId, childKey. split; [|done].
    apply elem_of_app. right. by apply list_elem_of_singleton.
  - apply IH in Hold as [?|(cid & ck & Hin & Hid)]; [by left|].
    right. exists cid, ck. split; [|done]. apply elem_of_app. by left.
Qed.

(** A dynamic component is the child that [_childrenById] holds under
    the same id, unless [undefined] is itself a declared id. *)
Lemma register_all_record_all regs sm0 :
  _components sm0 = ∅ →
  "undefined" ∉ _dynamicChildrenIds sm0 →
  ∀ id l, _components (register_all regs sm0) !! id = Some l →
          id ∈ _dynamicChildrenIds sm0 ∧ record_all regs ∅ !! id = Some l.
Proof.
  intros Hc Hundef. induction regs as [|[[component childId] childKey] regs IH] using rev_ind.
  - simpl. intros id l. by rewrite Hc, lookup_empty.
  - intros id l. rewrite register_all_snoc, record_all_snoc. simpl.
    destruct (register_all_registry_static regs sm0) as (Hdyn & _).
    unfold addComponent. rewrite Hdyn. case_decide as Hidx.
    + intros Hl.
      assert (_components (register_all regs sm0) !! id = Some l) as Hl'
        by by destruct childKey.
      destruct (IH id l Hl') as [Hid Hrec]. split; [done|].
      rewrite lookup_insert_ne; [done|]. intros <-.
      destruct childId as [id0|]; simpl in *; [|done].
      by apply (proj1 (indexOf_absent _ (Some id0)) Hidx id0).
    + apply indexOf_present in Hidx as (id0 & -> & Hid0). simpl.
      intros [[<- <-]|[Hne Hold]]%lookup_insert_Some.
      * split; [done|]. by rewrite lookup_insert_eq.
      * destruct (IH id l Hold) as [Hid Hrec]. split; [done|]. by rewrite lookup_insert_ne.
Qed.

(** X12: in every reachable world whose config declares no state that
    lists the id [undefined], the object that the manager shows and hides
    for a dynamic id is the object that [_childrenById] holds under that
    id, the one [applyChildParams] writes to. *)
Theorem dynamic_component_is_child config w id l :
  reachable config w →
  ¬ declared config "undefined" →
  _components (ComponentClip._stateManager w.1) !! id = Some l →
  declared config id ∧ ComponentClip._childrenById w.1 !! id = Some l.
Proof.
  intros Hreach Hundef.
  apply reachable_structure in Hreach as (σ0 & clip0 & σ1 & Hnew & Hs & Hr & _).
  apply new_parse in Hnew as (locs & _ & _ & _ & _ & _ & _ & Hsm & Hch).
  unfold structure in Hs. injection Hs as _ _ _ -> _ _.
  unfold registry in Hr. injection Hr as _ _ _ -> _ _.
  rewrite Hsm, Hch. unfold registered.
  fold (register_all
          (zip_with registration locs (built_children (ComponentConfig.children config)))
          (StateManager.new config)).
  intros Hl. rewrite <- elem_of_dynamicChildrenIds.
  apply register_all_record_all; [by rewrite new_fields | | done].
  by rewrite elem_of_dynamicChildrenIds.
Qed.

Lemma dynamic_component_is_child_witness :
  declared example_config "c2" ∧
  ComponentClip._childrenById (example_clip_A, example_heap_A).1 !! "c2" = Some 2.
Proof.
  apply (dynamic_component_is_child example_config (example_clip_A, example_heap_A) "c2" 2).
  - exact example_reachable_A.
  - rewrite <- elem_of_dynamicChildrenIds.
    apply (bool_decide_unpack _). vm_compute. exact I.
  - vm_compute. reflexivity.
Defined.

(** X13: in every reachable world two different childIds of
    [_childrenById] name two different objects. *)
Theorem childrenById_no_alias config w id1 id2 l1 l2 :
  reachable config w →
  id1 ≠ id2 →
  ComponentClip._childrenById w.1 !! id1 = Some l1 →
  ComponentClip._childrenById w.1 !! id2 = Some l2 →
  l1 ≠ l2.
Proof.
  intros Hreach Hne.
  apply reachable_structure in Hreach as (σ0 & clip0 & σ1 & Hnew & Hs & _).
  apply new_parse in Hnew as (locs & _ & Hnodup & _ & _ & _ & _ & _ & Hch).
  unfold structure in Hs. injection Hs as _ _ _ -> _ _. rewrite Hch.
  intros [Habs|(cid1 & ck1 & Hin1 & <-)]%record_all_lookup; [by rewrite lookup_empty in Habs|].
  intros [Habs|(cid2 & ck2 & Hin2 & <-)]%record_all_lookup; [by rewrite lookup_empty in Habs|].
  apply elem_of_registrations in Hin1 as (i1 & c1 & Hl1 & Hc1 & <- & _).
  apply elem_of_registrations in Hin2 as (i2 & c2 & Hl2 & Hc2 & <- & _).
  intros <-. assert (i1 = i2) as -> by by eapply NoDup_lookup.
  congruence.
Qed.

Lemma childrenById_no_alias_witness :
  ComponentClip._childrenById (example_clip_A, example_heap_A).1 !! "c1" = Some 1 ∧
  ComponentClip._childrenById (example_clip_A, example_heap_A).1 !! "r1" = Some 3 ∧
  1 ≠ 3.
Proof.
  split; [vm_compute; reflexivity|]. split; [vm_compute; reflexivity|].
  apply (childrenById_no_alias example_config (example_clip_A, example_heap_A) "c1" "r1" 1 3).
  - exact example_reachable_A.
  - done.
  - vm_compute. reflexivity.
  - vm_compute. reflexivity.
Defined.

(** ** How many objects a construction creates *)

Lemma _createChildFromConfig_length new_child childConfig this (σ : heap) s' n :
  (∀ σ1 σ2 clip, new_child σ1 = (σ2, Normal clip) → length σ2 = length σ1 + n) →
  ComponentClip._createChildFromConfig new_child childConfig (this, σ) = (s', Normal ()) →
  length s'.2
  = length σ + (if decide (known_type (ComponentConfig.type childConfig)) then
                  if decide (ComponentConfig.type childConfig = TYPE_COMPONENT) then n else 1
                else 0).
Proof.
  intros Hnew Hrun. unfold ComponentClip._createChildFromConfig in Hrun.
  unfold mbind at 1, M_bind at 1 in Hrun.
  destruct (decide (known_type (ComponentConfig.type childConfig))) as [Hknown|Hunknown].
  - apply known_type_iff in Hknown.
    repeat case_decide; try (exfalso; tauto);
      try (exfalso;
           unfold TYPE_IMAGE, TYPE_TEXT, TYPE_TILE_SPRITE, TYPE_COMPONENT, TYPE_ZONE,
             TYPE_POLYGON in *; congruence).
    + unfold ComponentClip._createImageFromConfig in Hrun. unfold_M.
      injection Hrun as <-. simpl. rewrite length_alter, length_app. done.
    + unfold ComponentClip._createTextFromConfig in Hrun. unfold_M.
      destruct (ComponentConfig.textStyle childConfig) as [textStyle|]; simpl in Hrun; [|done].
      injection Hrun as <-. simpl. rewrite length_alter, length_app. done.
    + unfold ComponentClip._createTileSpriteFromConfig in Hrun. unfold_M.
      injection Hrun as <-. simpl. rewrite length_alter, length_app. done.
    + unfold ComponentClip.lift_heap in Hrun. unfold_M.
      destruct (new_child σ) as [σ1 [clip|]] eqn:Hclip; simpl in Hrun; [|done].
      injection Hrun as <-. simpl. rewrite length_alter. by eapply Hnew.
    + unfold ComponentClip._createHitZoneFromConfig in Hrun. unfold_M.
      injection Hrun as <-. simpl. by rewrite length_app.
    + unfold ComponentClip._createPolygonFromConfig in Hrun. unfold_M.
      destruct (ComponentConfig.vertices childConfig) as [vertices|]; simpl in Hrun; [|done].
      destruct (ComponentConfig.masking childConfig) as [masking|]; unfold_M.
      * destruct (for_of _ masking _) as [s1 [[]|]] eqn:Hloop; simpl in Hrun; [|done].
        injection Hrun as <-. simpl.
        apply (for_of_invariant _
                 (λ s, s.1 = this ∧
                       length s.2 = length (alter (_setupCommonParams
                                        (ComponentConfig.common childConfig))
                                        (length σ) (σ ++ [engine_object (Num 0) (Num 0)]))))
          in Hloop as [_ Hlen]; [| |done].
        -- by rewrite Hlen, length_alter, length_app.
        -- intros ???? _. apply setMask_frame.
      * injection Hrun as <-. simpl. by rewrite length_alter, length_app.
  - assert (¬ (ComponentConfig.type childConfig = TYPE_IMAGE ∨
               ComponentConfig.type childConfig = TYPE_TEXT ∨
               ComponentConfig.type childConfig = TYPE_TILE_SPRITE ∨
               ComponentConfig.type childConfig = TYPE_COMPONENT ∨
               ComponentConfig.type childConfig = TYPE_ZONE ∨
               ComponentConfig.type childConfig = TYPE_POLYGON)) as Hno
      by by rewrite <- known_type_iff.
    repeat case_decide; try (exfalso; tauto).
    unfold_M. injection Hrun as <-. simpl. lia.
Qed.

Lemma parse_length children this (σ : heap) s' :
  Forall (λ childConfig, ∀ σ1 σ2 clip,
            ComponentClip.new childConfig σ1 = (σ2, Normal clip) →
            length σ2 = length σ1 + objects childConfig) children →
  for_of (λ childConfig,
            ComponentClip._createChildFromConfig (ComponentClip.new childConfig) childConfig)
         children (this, σ) = (s', Normal ()) →
  length s'.2
  = length σ
    + list_sum
        (List.map
           (λ childConfig,
              if decide (known_type (ComponentConfig.type childConfig)) then
                if decide (ComponentConfig.type childConfig = TYPE_COMPONENT)
                then objects childConfig else 1
              else 0)
           children).
Proof.
  revert this σ. induction children as [|c children IH]; intros this σ Hall Hrun.
  - unfold_M. injection Hrun as <-. simpl. lia.
  - apply Forall_cons in Hall as [Hc Hall]. simpl in Hrun. unfold mbind, M_bind in Hrun.
    destruct (ComponentClip._createChildFromConfig _ c (this, σ)) as [[this1 σ1] [[]|]]
      eqn:Hbody; [|done].
    apply (_createChildFromConfig_length _ _ _ _ _ (objects c) Hc) in Hbody.
    apply IH in Hrun; [|done]. simpl in *. rewrite Hrun, Hbody. lia.
Qed.

Lemma objects_unfold config :
  objects config
  = S (list_sum
         (List.map
            (λ childConfig,
               if decide (known_type (ComponentConfig.type childConfig)) then
                 if decide (ComponentConfig.type childConfig = TYPE_COMPONENT)
                 then objects childConfig else 1
               else 0)
            (ComponentConfig.children config))).
Proof. by destruct config. Qed.

(** X14: a construction that completes normally has created exactly as
    many game objects as its configuration describes: the clip, one
    object per child of a known type, and for each child of type
    [component] the objects of that child's own configuration. *)
Theorem new_creates_objects config (σ0 σ : heap) clip :
  ComponentClip.new config σ0 = (σ, Normal clip) →
  length σ = length σ0 + objects config.
Proof.
  revert σ0 σ clip.
  induction config as [type childId key children states masking common textStyle vertices IH]
    using ComponentConfig_ind.
  intros σ0 σ clip. rewrite new_unfold, objects_unfold.
  destruct (for_of _ _ _) as [[this' σ1] [[]|]] eqn:Hloop; [|done].
  intros [= <- <-]. apply parse_length in Hloop; [|exact IH].
  simpl in *. rewrite Hloop, length_app. simpl. lia.
Qed.

Lemma new_creates_objects_witness :
  length (ComponentClip.new example_nested_config []).1
  = length (@nil GameObject.t) + objects example_nested_config.
Proof.
  eapply (new_creates_objects example_nested_config []).
  cbv. reflexivity.
Defined.

(** ** Partial transforms *)

Lemma or_else_truthy v d : truthy d = true → truthy (or_else v d) = true.
Proof.
  intros Hd. destruct v as [n|]; simpl; [|done]. by destruct (truthy n) eqn:Hn.
Qed.

Lemma or_else_number v q : or_else v (Num q) ≠ NaN.
Proof.
  destruct v as [[|q']|]; simpl; try done. by destruct (negb _).
Qed.

(** X15: whatever the partial transform holds, [_setupCommonParams]
    never leaves a scale that is zero or [NaN] nor a position or angle
    that is [NaN], and it never changes the visibility or the mask. *)
Theorem _setupCommonParams_range config component :
  let o := _setupCommonParams config component in
  truthy (GameObject.scaleX o) = true ∧ truthy (GameObject.scaleY o) = true ∧
  GameObject.x o ≠ NaN ∧ GameObject.y o ≠ NaN ∧ GameObject.angle o ≠ NaN ∧
  GameObject.visible o = GameObject.visible component ∧
  GameObject.mask o = GameObject.mask component.
Proof.
  simpl. repeat split; (by apply or_else_truthy) || apply or_else_number.
Qed.

Lemma _setupCommonParams_overwrites p q o :
  _setupCommonParams q (_setupCommonParams p o) = _setupCommonParams q o.
Proof. done. Qed.

(** X16: [applyChildParams] keeps the clip, the number of game objects
    and every object's visibility and mask, and a second call for the
    same child overwrites the first: applying [p] and then [q] leaves the
    world that applying [q] alone leaves. *)
Theorem applyChildParams_overwrites childId p q clip (σ : heap) :
  let w' := (ComponentClip.applyChildParams childId p (clip, σ)).1 in
  w'.1 = clip ∧ length w'.2 = length σ ∧
  (∀ l, GameObject.visible <$> w'.2 !! l = GameObject.visible <$> σ !! l) ∧
  (∀ l, GameObject.mask <$> w'.2 !! l = GameObject.mask <$> σ !! l) ∧
  ComponentClip.applyChildParams childId q w'
  = ComponentClip.applyChildParams childId q (clip, σ).
Proof.
  unfold ComponentClip.applyChildParams. unfold_M.
  destruct (ComponentClip._childrenById clip !! childId) as [child|] eqn:Hchild; simpl.
  - split; [done|]. split; [by rewrite length_alter|].
    split; [intros l; by apply alter_keeps|]. split; [intros l; by apply alter_keeps|].
    rewrite Hchild. simpl. do 2 f_equal. rewrite list_alter_alter_eq.
    by apply list_alter_ext.
  - by rewrite Hchild.
Qed.

(** ** The texture of a frame *)

Section images_map_lemmas.
Context (getFrameNames : string → option (list string)).

Lemma add_frames_lookup textureName frames imageFramesMap frameName :
  add_frames textureName frames imageFramesMap !! frameName
  = if decide (frameName ∈ frames) then Some textureName else imageFramesMap !! frameName.
Proof.
  unfold add_frames. revert imageFramesMap.
  induction frames as [|f frames IH]; intros m.
  - rewrite decide_False; [done|]. apply not_elem_of_nil.
  - cbn [foldl]. rewrite IH. destruct (decide (frameName ∈ frames)) as [Hin|Hout].
    + rewrite decide_True; [done|]. by right.
    + destruct (decide (f = frameName)) as [->|Hne].
      * rewrite decide_True by (by left). by rewrite lookup_insert_eq.
      * rewrite decide_False by (intros [?|?]%elem_of_cons; congruence).
        by rewrite lookup_insert_ne.
Qed.

Lemma _createImagesMap_app textures1 textures2 imageFramesMap :
  Forall (λ textureName, is_Some (getFrameNames textureName)) textures1 →
  _createImagesMap getFrameNames (textures1 ++ textures2) imageFramesMap
  = _createImagesMap getFrameNames textures2
      (_createImagesMap getFrameNames textures1 imageFramesMap).
Proof.
  revert imageFramesMap. induction textures1 as [|t textures1 IH]; intros m Hall; [done|].
  apply Forall_cons in Hall as [[frames Ht] Hall]. simpl. rewrite Ht. by apply IH.
Qed.

End images_map_lemmas.

(** X18: when the scene holds every listed texture, the frame map built
    from an empty map sends a frame name to the last listed texture that
    has a frame of that name, and holds nothing for a frame name that no
    listed texture has. *)
Theorem _createImagesMap_last_texture getFrameNames textures frameName :
  Forall (λ textureName, is_Some (getFrameNames textureName)) textures →
  _createImagesMap getFrameNames textures ∅ !! frameName
  = last (textures_with getFrameNames frameName textures).
Proof.
  induction textures as [|t textures IH] using rev_ind; intros Hall; [done|].
  apply Forall_app in Hall as [Hall [[frames Ht] _]%Forall_cons].
  rewrite _createImagesMap_app by done. simpl. rewrite Ht, add_frames_lookup.
  unfold textures_with. rewrite filter_app.
  destruct (decide (frameName ∈ frames)) as [Hin|Hout].
  - rewrite (filter_cons_True _ t) by (by rewrite Ht). by rewrite filter_nil, last_snoc.
  - rewrite (filter_cons_False _ t) by (by rewrite Ht). rewrite filter_nil, app_nil_r.
    by apply IH.
Qed.

Lemma _createImagesMap_last_texture_witness :
  _createImagesMap example_textures ["ui"; "hud"] ∅ !! "ok"
  = last (textures_with example_textures "ok" ["ui"; "hud"]).
Proof.
  apply (_createImagesMap_last_texture example_textures ["ui"; "hud"] "ok").
  repeat constructor; by eexists.
Defined.

(** ** The outline of a polygon *)

Lemma lineTo_loop_length fuel vertices i :
  (length vertices ≤ i + 2 * fuel)%nat →
  length (lineTo_loop fuel vertices i) = Nat.div2 (S (length vertices - i)).
Proof.
  revert i. induction fuel as [|fuel IH]; intros i Hfuel; simpl.
  - by replace (length vertices - i) with 0 by lia.
  - case_decide as Hi.
    + simpl. rewrite IH by lia.
      destruct (decide (length vertices - i = 1)) as [Hone|Hmore].
      * rewrite Hone. by replace (length vertices - (i + 2)) with 0 by lia.
      * by replace (length vertices - i) with (S (S (length vertices - (i + 2)))) by lia.
    + by replace (length vertices - i) with 0 by lia.
Qed.

Lemma lineTo_loop_lookup fuel vertices i k :
  (length vertices ≤ i + 2 * fuel)%nat →
  i + 2 * k < length vertices →
  lineTo_loop fuel vertices i !! k
  = Some (vertices !! (i + 2 * k), vertices !! (i + 2 * k + 1)).
Proof.
  revert i k. induction fuel as [|fuel IH]; intros i k Hfuel Hk; simpl; [lia|].
  rewrite decide_True by lia. destruct k as [|k]; simpl.
  - by rewrite Nat.add_0_r.
  - rewrite IH by lia. do 3 f_equal; lia.
Qed.

(** X19: [_createPolygonFromConfig] calls [lineTo] once for every pair
    of consecutive entries of [vertices], in order, and once more with
    an [undefined] second coordinate when [vertices] has an odd number
    of entries; no entry is skipped. *)
Theorem lineTo_calls_pairs vertices :
  length (lineTo_calls vertices) = Nat.div2 (S (length vertices)) ∧
  (∀ k, 2 * k < length vertices →
        lineTo_calls vertices !! k = Some (vertices !! (2 * k), vertices !! (2 * k + 1))) ∧
  (Nat.Even (length vertices) →
   Forall (λ call, is_Some call.1 ∧ is_Some call.2) (lineTo_calls vertices)) ∧
  (Nat.Odd (length vertices) →
   ∃ x, last (lineTo_calls vertices) = Some (Some x, None)).
Proof.
  unfold lineTo_calls.
  assert (length (lineTo_loop (length vertices) vertices 0)
          = Nat.div2 (S (length vertices))) as Hlen
    by (rewrite lineTo_loop_length by lia; by rewrite Nat.sub_0_r).
  assert (∀ k, 2 * k < length vertices →
            lineTo_loop (length vertices) vertices 0 !! k
            = Some (vertices !! (2 * k), vertices !! (2 * k + 1))) as Hlook
    by (intros k Hk; by rewrite lineTo_loop_lookup by lia).
  split; [done|]. split; [done|]. split.
  - intros [m Hm]. apply Forall_lookup. intros k call Hcall.
    assert (k < m) as Hk.
    { apply lookup_lt_Some in Hcall. by rewrite Hlen, Hm, Nat.div2_succ_double in Hcall. }
    rewrite Hlook in Hcall by lia. injection Hcall as <-. simpl.
    split; apply lookup_lt_is_Some; lia.
  - intros [m Hm].
    destruct (lookup_lt_is_Some_2 vertices (2 * m)) as [x Hx]; [lia|].
    assert (Nat.div2 (S (length vertices)) = S m) as Hhalf.
    { rewrite Hm. replace (S (2 * m + 1)) with (2 * S m) by lia. apply Nat.div2_double. }
    exists x. rewrite last_lookup, Hlen, Hhalf. simpl Nat.pred. rewrite Hlook by lia.
    rewrite Hx. do 2 f_equal. apply lookup_ge_None. lia.
Qed.

(** ** Lookups by key *)

(** X20: when no resident child has the key, [getActiveComponentByKey]
    looks among the ids of the active state only: it returns an object
    only for an id of the active state that is registered with that key,
    and [null] when the active state has no such id. *)
Theorem getActiveComponentByKey_active_only sm (σ : heap) key :
  _residentComponentsByKey sm !! key = None →
  (∀ l, (getActiveComponentByKey key (sm, σ)).2 = Normal (Object l) →
        ∃ state id, _currentState sm = Some state ∧ id ∈ State.componentIds state ∧
                    _componentKeys sm !! id = Some key ∧ _components sm !! id = Some l) ∧
  ((∀ state id, _currentState sm = Some state → id ∈ State.componentIds state →
                _componentKeys sm !! id ≠ Some key) →
   getActiveComponentByKey key (sm, σ) = ((sm, σ), Normal Null)).
Proof.
  intros Hres. unfold getActiveComponentByKey. unfold_M. rewrite Hres. simpl.
  destruct (_currentState sm) as [state|]; simpl; [|by split].
  split.
  - intros l [= (id & Hin & Hkey & Hl)%scan_object]. by exists state, id.
  - intros Hnone. do 2 f_equal. specialize (Hnone state).
    induction (State.componentIds state) as [|id ids IH]; simpl; [done|].
    rewrite decide_False by (apply Hnone; [done | by left]).
    apply IH. intros id' ? Hin. apply Hnone; [done | by right].
Qed.

Lemma getActiveComponentByKey_active_only_witness :
  (∀ l, (getActiveComponentByKey "icon"
           (ComponentClip._stateManager example_clip_A, example_heap_A)).2
        = Normal (Object l) →
        ∃ state id, _currentState (ComponentClip._stateManager example_clip_A) = Some state ∧
                    id ∈ State.componentIds state ∧
                    _componentKeys (ComponentClip._stateManager example_clip_A) !! id
                    = Some "icon" ∧
                    _components (ComponentClip._stateManager example_clip_A) !! id = Some l) ∧
  ((∀ state id, _currentState (ComponentClip._stateManager example_clip_A) = Some state →
                id ∈ State.componentIds state →
                _componentKeys (ComponentClip._stateManager example_clip_A) !! id
                ≠ Some "icon") →
   getActiveComponentByKey "icon" (ComponentClip._stateManager example_clip_A, example_heap_A)
   = ((ComponentClip._stateManager example_clip_A, example_heap_A), Normal Null)).
Proof.
  apply (getActiveComponentByKey_active_only
           (ComponentClip._stateManager example_clip_A) example_heap_A "icon").
  vm_compute. reflexivity.
Defined.

Lemma register_all_app regs1 regs2 sm0 :
  register_all (regs1 ++ regs2) sm0 = register_all regs2 (register_all regs1 sm0).
Proof. unfold register_all. by rewrite foldl_app. Qed.

(** The last resident registration with a key holds that key. *)
Lemma register_all_resident_last regs1 l childId key regs2 sm0 :
  indexOf (_dynamicChildrenIds sm0) childId = (-1)%Z →
  (∀ r, r ∈ regs2 → r.2 = Some key → indexOf (_dynamicChildrenIds sm0) r.1.2 ≠ (-1)%Z) →
  _residentComponentsByKey (register_all (regs1 ++ (l, childId, Some key) :: regs2) sm0)
    !! key = Some l.
Proof.
  intros Hres Hlater. rewrite register_all_app. simpl.
  destruct (register_all_registry_static regs1 sm0) as (Hdyn & _).
  set (sm1 := addComponent l childId (Some key) (register_all regs1 sm0)).
  assert (_dynamicChildrenIds sm1 = _dynamicChildrenIds sm0 ∧
          _residentComponentsByKey sm1 !! key = Some l) as Hsm1.
  { unfold sm1, addComponent. rewrite Hdyn, decide_True by done. simpl.
    by rewrite lookup_insert_eq. }
  change (_residentComponentsByKey (register_all regs2 sm1) !! key = Some l).
  clearbody sm1. clear Hdyn Hres. revert sm1 Hsm1.
  induction regs2 as [|[[c cid] ck] regs2 IH]; intros sm1 [Hdyn Hkey]; [done|].
  simpl. apply IH; [intros r Hr; apply Hlater; by right|].
  unfold addComponent. rewrite Hdyn. case_decide as Hidx; [|done].
  destruct ck as [k|]; [|done]. simpl. split; [done|].
  rewrite lookup_insert_ne; [done|]. intros ->.
  by apply (Hlater (c, cid, Some key)); [left|..].
Qed.

(** X21: among the children built whose childId no state lists, the last
    one that carries a key is the one that [getChildClip] returns for
    that key right after the construction, whatever other children share
    the key. *)
Theorem new_resident_key_last config (σ0 σ : heap) clip i childConfig key :
  ComponentClip.new config σ0 = (σ, Normal clip) →
  built_children (ComponentConfig.children config) !! i = Some childConfig →
  ComponentConfig.key childConfig = Some key →
  (∀ id, ComponentConfig.childId childConfig = Some id → ¬ declared config id) →
  (∀ j later, i < j →
     built_children (ComponentConfig.children config) !! j = Some later →
     ComponentConfig.key later = Some key →
     ∃ id, ComponentConfig.childId later = Some id ∧ declared config id) →
  ∃ l, ComponentClip.childComponentClips clip !! i = Some l ∧
       ComponentClip.getChildClip key (clip, σ) = ((clip, σ), Normal (Object l)).
Proof.
  intros Hnew Hi Hkey Hres Hlater.
  apply new_parse in Hnew as (locs & Hlen & _ & _ & _ & Hccc & _ & Hsm & _).
  destruct (lookup_lt_is_Some_2 locs i) as [l Hl].
  { rewrite Hlen. by eapply lookup_lt_Some. }
  exists l. rewrite Hccc. split; [done|].
  unfold ComponentClip.getChildClip. rewrite on_stateManager_getActiveComponentByKey.
  set (regs := zip_with registration locs
                 (built_children (ComponentConfig.children config))) in *.
  assert (regs !! i = Some (l, ComponentConfig.childId childConfig, Some key)) as Hreg.
  { unfold regs. apply lookup_zip_with_Some. exists l, childConfig.
    unfold registration. by rewrite Hkey. }
  rewrite (getActiveComponentByKey_resident _ _ _ l); [done|].
  rewrite Hsm. unfold registered. fold (register_all regs (StateManager.new config)).
  rewrite <- (take_drop_middle regs i _ Hreg).
  apply register_all_resident_last.
  - apply indexOf_absent. intros id Hid. rewrite elem_of_dynamicChildrenIds. by apply Hres.
  - intros r [k Hr]%list_elem_of_lookup Hrk. rewrite lookup_drop in Hr.
    apply lookup_zip_with_Some in Hr as (l' & c' & -> & _ & Hc').
    destruct (Hlater (S i + k) c') as (id & Hid & Hdecl); [lia|done|done|].
    simpl. rewrite Hid. intros Habs.
    apply (proj1 (indexOf_absent _ (Some id)) Habs id eq_refl).
    by apply elem_of_dynamicChildrenIds.
Qed.

Lemma new_resident_key_last_witness :
  ∃ l, ComponentClip.childComponentClips example_clip !! 2 = Some l ∧
       ComponentClip.getChildClip "btn" (example_clip, example_heap)
       = ((example_clip, example_heap), Normal (Object l)).
Proof.
  apply (new_resident_key_last example_config [] example_heap example_clip 2
           (example_child TYPE_TEXT "r1" "btn") "btn").
  - vm_compute. reflexivity.
  - vm_compute. reflexivity.
  - reflexivity.
  - intros id [= <-]. rewrite <- elem_of_dynamicChildrenIds.
    apply (bool_decide_unpack _). vm_compute. exact I.
  - intros j later Hj Hlater. apply lookup_lt_Some in Hlater. vm_compute in Hlater. lia.
Defined.

(** X22: in every reachable world the clip keeps the config and the key
    it was constructed with, its own game object exists, and the clip is
    not one of its own children. *)
Theorem reachable_clip_fields config w :
  reachable config w →
  ComponentClip._config w.1 = config ∧
  ComponentClip._key w.1 = ComponentConfig.key config ∧
  is_Some (w.2 !! ComponentClip.self w.1) ∧
  ComponentClip.self w.1 ∉ ComponentClip.childComponentClips w.1.
Proof.
  intros (σ0 & clip0 & σ1 & Hnew & Hs & _ & Hlen)%reachable_structure.
  assert (ComponentClip._config clip0 = config ∧
          ComponentClip._key clip0 = ComponentConfig.key config) as [Hconfig Hkey].
  { revert Hnew. rewrite new_unfold. destruct (for_of _ _ _) as [[this' σ'] [[]|]] eqn:Hloop;
      [|done]. intros [= <- <-].
    apply (for_of_invariant _
             (λ s, ComponentClip._config s.1 = config ∧
                   ComponentClip._key s.1 = ComponentConfig.key config)) in Hloop; [done| |done].
    intros c [this1 σ2] [this2 σ3] c2 _ Hinv Hbody.
    apply _createChildFromConfig_spec in Hbody as [_ Hreg]; [|apply new_fresh_clip].
    simpl in *. by destruct Hreg as [[-> _]|(child & b & _ & _ & ->)]. }
  pose proof (new_spec _ _ _ _ Hnew) as [Hlt _].
  apply new_parse in Hnew as (locs & _ & _ & Hrange & Hself & Hccc & _).
  unfold structure in Hs. injection Hs as -> -> -> _ -> _.
  rewrite Hself, Hccc. repeat split; try done.
  - apply lookup_lt_is_Some. lia.
  - intros Hin. rewrite Forall_forall in Hrange. apply Hrange in Hin. lia.
Qed.

Lemma reachable_clip_fields_witness :
  ComponentClip._config (example_clip_A, example_heap_A).1 = example_config ∧
  ComponentClip._key (example_clip_A, example_heap_A).1
  = ComponentConfig.key example_config ∧
  is_Some ((example_clip_A, example_heap_A).2
             !! ComponentClip.self (example_clip_A, example_heap_A).1) ∧
  ComponentClip.self (example_clip_A, example_heap_A).1
  ∉ ComponentClip.childComponentClips (example_clip_A, example_heap_A).1.
Proof.
  apply (reachable_clip_fields example_config (example_clip_A, example_heap_A)).
  exact example_reachable_A.
Defined.

(** ** What the methods write to *)

(** X23: in every reachable world [setState] and [applyChildParams]
    write to the clip's own children only: an object that is not in
    [childComponentClips] (the clip itself, the children of a nested
    clip, any other object of the scene) is left as it was, whatever the
    arguments and however the call completes. *)
Theorem methods_write_own_children config w l :
  reachable config w →
  l ∉ ComponentClip.childComponentClips w.1 →
  (∀ stateId force, (ComponentClip.setState stateId force w).1.2 !! l = w.2 !! l) ∧
  (∀ childId params, (ComponentClip.applyChildParams childId params w).1.2 !! l = w.2 !! l).
Proof.
  intros Hreach Hout.
  apply reachable_structure in Hreach as (σ0 & clip0 & σ1 & Hnew & Hs & Hr & _).
  apply new_parse in Hnew as (locs & _ & _ & _ & _ & Hccc & _ & Hsm & Hch).
  destruct w as [clip σ]. simpl in *.
  unfold structure in Hs. injection Hs as _ _ _ Hch' Hccc' _.
  unfold registry in Hr. injection Hr as _ _ _ Hcomp _ _.
  rewrite Hccc', Hccc in Hout. split.
  - intros stateId force. unfold ComponentClip.setState, ComponentClip.on_stateManager. simpl.
    destruct (setState stateId force _) as [[sm' σ'] c] eqn:Hrun. simpl.
    apply setState_frame in Hrun as (_ & _ & Hframe). apply Hframe.
    intros id Hid. rewrite Hcomp, Hsm in Hid.
    destruct (new_initial_maps config) as (Hc0 & Hk0 & Hr0).
    destruct (register_all_sources
                (zip_with registration locs (built_children (ComponentConfig.children config)))
                (StateManager.new config) Hc0 Hk0 Hr0) as (Hsrc & _).
    apply Hsrc in Hid as [k Hin].
    apply elem_of_registrations in Hin as (i & c' & Hl & _).
    by apply Hout, (list_elem_of_lookup_2 _ i).
  - intros childId params. unfold ComponentClip.applyChildParams. unfold_M.
    destruct (ComponentClip._childrenById clip !! childId) as [child|] eqn:Hchild; [|done].
    simpl. rewrite list_lookup_alter_ne; [done|]. intros ->.
    rewrite Hch', Hch in Hchild.
    apply record_all_lookup in Hchild as [Habs|(cid & ck & Hin & _)];
      [by rewrite lookup_empty in Habs|].
    apply elem_of_registrations in Hin as (i & c' & Hl & _).
    by apply Hout, (list_elem_of_lookup_2 _ i).
Qed.

Lemma methods_write_own_children_witness :
  (∀ stateId force,
     (ComponentClip.setState stateId force (example_clip_A, example_heap_A)).1.2 !! 0
     = (example_clip_A, example_heap_A).2 !! 0) ∧
  (∀ childId params,
     (ComponentClip.applyChildParams childId params (example_clip_A, example_heap_A)).1.2 !! 0
     = (example_clip_A, example_heap_A).2 !! 0).
Proof.
  apply (methods_write_own_children example_config (example_clip_A, example_heap_A) 0).
  - exact example_reachable_A.
  - apply (bool_decide_unpack _). vm_compute. exact I.
Defined.
